(** * Cut-pursuit, graph-d1 + quadratic + l1 + bounds: cp_pfdr_d1_ql1b.cpp

    A shallow embedding of the class [Cp_d1_ql1b<real_t, index_t, comp_t>]:
    its constructor, destructor and configuration setters, the closed-form
    solver of the single-component problem, [solve_reduced_problem] (the
    choice of the reduced matricial shape, the reduced operator, the reduced
    l1 term and bounds, the hand-over to the delegated solver and the
    residual), the gradient and the min-cut phase of [split],
    [compute_evolution] and [compute_objective].

    Conventions.
    - [real_t] is a template parameter of the source; it is an interface here
      ([RealT]).  Rounding and NaN are outside the model: where a statement
      needs arithmetic facts they come from [RealLaws], and an executable
      instance over extended rationals ([xreal]) serves the concrete runs.
    - A nullable pointer to a buffer is an [option]; [None] is [nullptr].  An
      access through [nullptr] is undefined behaviour in the source; it is a
      fault here, and faulting code lives in the [option] monad.
    - OpenMP loops are data-parallel with disjoint writes or reductions; they
      are run in index order. *)

From Stdlib Require Import ZArith QArith Qcanon Lia Bool List.
From stdpp Require Import base option numbers list gmap sets fin_sets.

Set Warnings "-clear-no-such-hyp".

(* ------------------------------------------------------------------------- *)
(** ** The numeric interface *)

(** The operations the source applies to [real_t] values.  [rltb x y] is the
    C++ test [x < y], [reqb x y] is [x == y]; [of_nat] is the conversion of an
    unsigned integer; [rfinite] is [std::isfinite] (used in statements only). *)
Class RealT : Type := {
  real_t : Type;
  ZERO : real_t;
  ONE : real_t;
  HALF : real_t;
  INF_REAL : real_t;
  radd : real_t -> real_t -> real_t;
  rsub : real_t -> real_t -> real_t;
  rmul : real_t -> real_t -> real_t;
  rdiv : real_t -> real_t -> real_t;
  ropp : real_t -> real_t;
  rabs : real_t -> real_t;
  rsqrt : real_t -> real_t;
  rltb : real_t -> real_t -> bool;
  reqb : real_t -> real_t -> bool;
  of_nat : nat -> real_t;
  of_Q : Q -> real_t;
  rfinite : real_t -> bool;
  sizeof_real_t : Z
}.

Declare Scope real_scope.
Delimit Scope real_scope with re.
Notation "x + y" := (radd x y) : real_scope.
Notation "x - y" := (rsub x y) : real_scope.
Notation "x * y" := (rmul x y) : real_scope.
Notation "x / y" := (rdiv x y) : real_scope.
Notation "- x" := (ropp x) : real_scope.
Notation "x <? y" := (rltb x y) : real_scope.
Notation "x >? y" := (rltb y x) : real_scope.
Notation "x =? y" := (reqb x y) : real_scope.

(** The facts of exact arithmetic that the statements below rely on.  The
    order is a strict weak order (no NaN); the ring facts are asked of finite
    values only, since [INF_REAL] is a value of the type. *)
Class RealLaws {RT : RealT} : Prop := {
  rltb_irrefl x : (x <? x)%re = false;
  rltb_trans x y z : (x <? y)%re = true -> (y <? z)%re = true -> (x <? z)%re = true;
  rltb_negtrans x y z :
    (x <? y)%re = false -> (y <? z)%re = false -> (x <? z)%re = false;
  reqb_eq x y : (x =? y)%re = true <-> x = y;
  radd_comm x y : (x + y)%re = (y + x)%re;
  radd_assoc x y z : (x + (y + z))%re = ((x + y) + z)%re;
  radd_0_l x : (ZERO + x)%re = x;
  rmul_comm x y : (x * y)%re = (y * x)%re;
  rmul_0_l x : rfinite x = true -> (ZERO * x)%re = ZERO;
  rmul_add_distr_l x y z :
    rfinite x = true -> rfinite y = true -> rfinite z = true ->
    (x * (y + z))%re = (x * y + x * z)%re;
  rsub_diag x : rfinite x = true -> (x - x)%re = ZERO;
  rabs_0 : rabs ZERO = ZERO;
  rabs_nonneg x : (rabs x <? ZERO)%re = false;
  rmul_nonneg x y :
    (x <? ZERO)%re = false -> (y <? ZERO)%re = false -> (x * y <? ZERO)%re = false;
  rsqrt_0 : rsqrt ZERO = ZERO;
  rdiv_0_l x : (ZERO <? x)%re = true -> (ZERO / x)%re = ZERO;
  rfinite_0 : rfinite ZERO = true;
  rfinite_add x y : rfinite x = true -> rfinite y = true -> rfinite (x + y)%re = true;
  rfinite_sub x y : rfinite x = true -> rfinite y = true -> rfinite (x - y)%re = true;
  rfinite_mul x y : rfinite x = true -> rfinite y = true -> rfinite (x * y)%re = true;
  rfinite_abs x : rfinite x = true -> rfinite (rabs x) = true;
  rfinite_of_nat n : rfinite (of_nat n) = true
}.

(** Modelled from the spec: the header's sentinel macros [FULL_ATA],
    [DIAG_ATA] and [IS_ATA], absent from the sources ("only one shape tag is
    active at a time; N encodes which, using reserved sentinel values").  The
    two reserved [size_t] values are parameters; [comp_bits] and [index_bits]
    are the widths of the template parameters [comp_t] and [index_t]. *)
Class IntT : Type := {
  FULL_ATA : Z;
  DIAG_ATA : Z;
  index_bits : Z;
  comp_bits : Z
}.

Definition IS_ATA {IT : IntT} (n : Z) : bool := (n =? FULL_ATA)%Z || (n =? DIAG_ATA)%Z.

(** [size_t] and [uintmax_t] are 64 bits wide. *)
Definition size_bits : Z := 64.
Definition wrap (bits x : Z) : Z := x mod 2 ^ bits.

(* ------------------------------------------------------------------------- *)
(** ** Buffers, pointers and loops *)

(** A buffer is read by index; the source never checks an index. *)
Definition array (T : Type) : Type := nat -> T.
Definition ptr (T : Type) : Type := option (array T).

Definition load {T} (p : ptr T) (i : nat) : option T :=
  match p with Some b => Some (b i) | None => None end.

(** [b[i] = x] *)
Definition upd {T} (b : array T) (i : nat) (x : T) : array T :=
  fun j => if decide (j = i) then x else b j.

Definition store {T} (p : ptr T) (i : nat) (x : T) : option (ptr T) :=
  match p with Some b => Some (Some (upd b i x)) | None => None end.

Definition is_null {T} (p : ptr T) : bool :=
  match p with Some _ => false | None => true end.

Definition of_list {T} (d : T) (l : list T) : array T := fun i => nth i l d.

(** [for (i = lo; i < hi; i++) body] *)
Definition range (lo hi : nat) : list nat := seq lo (hi - lo).

Definition for_loop {S} (lo hi : nat) (body : nat -> S -> S) (s : S) : S :=
  foldl (fun s i => body i s) s (range lo hi).

Fixpoint for_each {S} (l : list nat) (body : nat -> S -> option S) (s : S)
  : option S :=
  match l with
  | [] => Some s
  | i :: l' => s' ← body i s; for_each l' body s'
  end.

Definition for_loopM {S} (lo hi : nat) (body : nat -> S -> option S) (s : S)
  : option S :=
  for_each (range lo hi) body s.

(* ------------------------------------------------------------------------- *)
(** ** The object *)

Section Model.
Context {RT : RealT} {IT : IntT}.

(** An allocated block: its size in bytes and its cells. *)
Record block : Type := {
  blk_bytes : Z;
  blk_cells : array real_t
}.

(** The graph and the partition, owned by the base class [Cp_d1]. *)
Record graph : Type := {
  V : nat;
  E : nat;
  first_edge : array nat;
  adj_vertices : array nat;
  edge_weights : ptr real_t;
  homo_edge_weight : real_t;
  active : gset nat
}.

Record partition : Type := {
  rV : nat;
  comp_assign : array nat;
  comp_list : array nat;
  first_vertex : array nat;
  saturated : gset nat;
  rX : array real_t;
  last_rX : array real_t;
  tmp_comp_assign : array nat
}.

Record quadratic : Type := {
  Y : ptr real_t;
  N : Z;
  A : ptr real_t;
  a : real_t;
  R : option nat
}.

Record l1_term : Type := {
  l1_weights : ptr real_t;
  homo_l1_weight : real_t;
  Yl1 : ptr real_t
}.

Record bounds : Type := {
  low_bnd : ptr real_t;
  homo_low_bnd : real_t;
  upp_bnd : ptr real_t;
  homo_upp_bnd : real_t
}.

Record pfdr_param : Type := {
  pfdr_rho : real_t;
  pfdr_cond_min : real_t;
  pfdr_dif_rcd : real_t;
  pfdr_dif_tol : real_t;
  pfdr_it : Z;
  pfdr_it_max : Z
}.

Record Cp_d1_ql1b : Type := {
  gr : graph;
  part : partition;
  quad : quadratic;
  l1 : l1_term;
  bnd : bounds;
  pfdr : pfdr_param;
  dif_tol : real_t;
  eps : real_t;
  heap : gmap nat block
}.

(** *** Accessor macros of the source *)

Definition EDGE_WEIGHTS_ (g : graph) (e : nat) : real_t :=
  match edge_weights g with Some w => w e | None => homo_edge_weight g end.

Definition L1_WEIGHTS_ (l : l1_term) (v : nat) : real_t :=
  match l1_weights l with Some w => w v | None => homo_l1_weight l end.

Definition Y_ (q : quadratic) (n : nat) : real_t :=
  match Y q with Some y => y n | None => ZERO end.

Definition Yl1_ (l : l1_term) (v : nat) : real_t :=
  match Yl1 l with Some y => y v | None => ZERO end.

(** A [real_t] used as a condition: [if (a)]. *)
Definition truthy (x : real_t) : bool := negb (x =? ZERO)%re.

(** *** Modelled from the spec: the base-class accessors

    Modelled from the spec: [is_active]/[set_active] and
    [is_saturated]/[set_saturation] of the base class, absent from the
    sources ("active-edge predicate/mutator, saturation predicate/mutator";
    "one bit per component"). *)
Definition is_active (g : graph) (e : nat) : bool := bool_decide (e ∈ active g).

Definition set_active (g : graph) (e : nat) : graph :=
  {| V := V g; E := E g; first_edge := first_edge g;
     adj_vertices := adj_vertices g; edge_weights := edge_weights g;
     homo_edge_weight := homo_edge_weight g; active := {[ e ]} ∪ active g |}.

Definition is_saturated (p : partition) (rv : nat) : bool :=
  bool_decide (rv ∈ saturated p).

Definition set_saturation (p : partition) (rv : nat) (b : bool) : partition :=
  {| rV := rV p; comp_assign := comp_assign p; comp_list := comp_list p;
     first_vertex := first_vertex p;
     saturated := if b then {[ rv ]} ∪ saturated p else saturated p ∖ {[ rv ]};
     rX := rX p; last_rX := last_rX p; tmp_comp_assign := tmp_comp_assign p |}.

(** Modelled from the spec: [malloc_check] and [free], absent from the
    sources ("allocation failure is fatal").  Allocation succeeds; the block
    is one that is not live, and its cells hold whatever [junk] is. *)
Definition malloc_check (h : gmap nat block) (bytes : Z) (junk : array real_t)
  : gmap nat block * nat :=
  let p := fresh (dom h) in
  (<[p := {| blk_bytes := bytes; blk_cells := junk |}]> h, p).

Definition free (h : gmap nat block) (p : option nat) : gmap nat block :=
  match p with Some b => delete b h | None => h end.

(* ------------------------------------------------------------------------- *)
(** ** Configuration: lines 48-97 *)

(** What a setter leaves behind: it returns, or it writes a report to
    [cerr] and calls [exit(EXIT_FAILURE)] in the state it was called in. *)
Inductive report : Type :=
  | NegativeHomoL1 (w : real_t)
  | LowerAboveUpper (lo up : real_t).

Inductive outcome : Type :=
  | Returned (s : Cp_d1_ql1b)
  | Exited (r : report) (s : Cp_d1_ql1b).

Definition with_quad (s : Cp_d1_ql1b) (q : quadratic) (h : gmap nat block)
  : Cp_d1_ql1b :=
  {| gr := gr s; part := part s; quad := q; l1 := l1 s; bnd := bnd s;
     pfdr := pfdr s; dif_tol := dif_tol s; eps := eps s; heap := h |}.

Definition with_l1 (s : Cp_d1_ql1b) (l : l1_term) : Cp_d1_ql1b :=
  {| gr := gr s; part := part s; quad := quad s; l1 := l; bnd := bnd s;
     pfdr := pfdr s; dif_tol := dif_tol s; eps := eps s; heap := heap s |}.

Definition with_bnd (s : Cp_d1_ql1b) (b : bounds) : Cp_d1_ql1b :=
  {| gr := gr s; part := part s; quad := quad s; l1 := l1 s; bnd := b;
     pfdr := pfdr s; dif_tol := dif_tol s; eps := eps s; heap := heap s |}.

Definition with_pfdr (s : Cp_d1_ql1b) (p : pfdr_param) : Cp_d1_ql1b :=
  {| gr := gr s; part := part s; quad := quad s; l1 := l1 s; bnd := bnd s;
     pfdr := p; dif_tol := dif_tol s; eps := eps s; heap := heap s |}.

Definition with_part (s : Cp_d1_ql1b) (p : partition) : Cp_d1_ql1b :=
  {| gr := gr s; part := p; quad := quad s; l1 := l1 s; bnd := bnd s;
     pfdr := pfdr s; dif_tol := dif_tol s; eps := eps s; heap := heap s |}.

Definition with_gr (s : Cp_d1_ql1b) (g : graph) : Cp_d1_ql1b :=
  {| gr := g; part := part s; quad := quad s; l1 := l1 s; bnd := bnd s;
     pfdr := pfdr s; dif_tol := dif_tol s; eps := eps s; heap := heap s |}.

(** [set_quadratic(Y, N, A, a)].  The assignment [N = DIAG_ATA] is to the
    parameter; the stored [N] and the allocation both read it afterwards. *)
Definition set_quadratic (s : Cp_d1_ql1b) (Y' : ptr real_t) (N' : Z)
    (A' : ptr real_t) (a' : real_t) (junk : array real_t) : Cp_d1_ql1b :=
  let N1 := if is_null A' && (a' =? ZERO)%re then DIAG_ATA else N' in
  let h1 := free (heap s) (R (quad s)) in
  let '(h2, R') :=
    if IS_ATA N1 then (h1, None)
    else let '(h, p) := malloc_check h1 (wrap size_bits (sizeof_real_t * N1)) junk
         in (h, Some p) in
  with_quad s {| Y := Y'; N := N1; A := A'; a := a'; R := R' |} h2.

(** [set_l1(l1_weights, homo_l1_weight, Yl1)] *)
Definition set_l1 (s : Cp_d1_ql1b) (l1_weights' : ptr real_t)
    (homo_l1_weight' : real_t) (Yl1' : ptr real_t) : outcome :=
  if is_null l1_weights' && (homo_l1_weight' <? ZERO)%re then
    Exited (NegativeHomoL1 homo_l1_weight') s
  else
    Returned (with_l1 s {| l1_weights := l1_weights';
                           homo_l1_weight := homo_l1_weight'; Yl1 := Yl1' |}).

(** [set_bounds(low_bnd, homo_low_bnd, upp_bnd, homo_upp_bnd)] *)
Definition set_bounds (s : Cp_d1_ql1b) (low_bnd' : ptr real_t)
    (homo_low_bnd' : real_t) (upp_bnd' : ptr real_t) (homo_upp_bnd' : real_t)
  : outcome :=
  if is_null low_bnd' && is_null upp_bnd' && (homo_low_bnd' >? homo_upp_bnd')%re then
    Exited (LowerAboveUpper homo_low_bnd' homo_upp_bnd') s
  else
    Returned (with_bnd s {| low_bnd := low_bnd'; homo_low_bnd := homo_low_bnd';
                            upp_bnd := upp_bnd'; homo_upp_bnd := homo_upp_bnd' |}).



(** The constructor, over the graph and partition that the base class
    [Cp_d1] sets up ([g], [p], [dif_tol], [eps] are its members). *)
Definition Cp_d1_ql1b_new (g : graph) (p : partition) (dif_tol' eps' : real_t)
  : Cp_d1_ql1b :=
  {| gr := g; part := p;
     quad := {| Y := None; N := DIAG_ATA; A := None; a := ONE; R := None |};
     l1 := {| l1_weights := None; homo_l1_weight := ZERO; Yl1 := None |};
     bnd := {| low_bnd := None; homo_low_bnd := (- INF_REAL)%re;
               upp_bnd := None; homo_upp_bnd := INF_REAL |};
     pfdr := {| pfdr_rho := ONE; pfdr_cond_min := of_Q (1 # 1000);
                pfdr_dif_rcd := ZERO;
                pfdr_dif_tol := (of_Q (1 # 1000) * dif_tol')%re;
                pfdr_it := 10000; pfdr_it_max := 10000 |};
     dif_tol := dif_tol'; eps := eps'; heap := ∅ |}.

(* ------------------------------------------------------------------------- *)
(** ** Collaborators *)

(** The flow network of the min-cut engine: terminal capacities, the two
    capacities of every edge, and the side of the cut of every vertex. *)
Record flow : Type := {
  term_cap : array real_t;
  edge_cap : array (real_t * real_t);
  sink : array bool
}.

(** Modelled from the spec: the collaborators, absent from the sources and
    consumed through their contracts: "weighted median of a value subset given
    parallel weights, and unweighted median-by-rank selection" (both reorder
    the index range they are given and return the selected value), the
    min-cut "solve call" on a vertex subset, and the "TV evaluator". *)
Class Collaborators : Type := {
  wth_element :
    array nat -> nat -> array real_t -> nat -> real_t -> array real_t
    -> real_t * array nat;
  nth_element_idx :
    array nat -> nat -> array real_t -> nat -> nat -> real_t * array nat;
  maxflow : flow -> list nat -> flow;
  compute_graph_d1 : graph -> partition -> real_t
}.

Context {CO : Collaborators}.

(* ------------------------------------------------------------------------- *)
(** ** solve_univertex_problem: lines 103-204 *)

(** [for (i = lo; i < hi; i++){ acc += f(i); }] *)
Definition sum_loop (lo hi : nat) (f : nat -> real_t) (acc : real_t) : real_t :=
  for_loop lo hi (fun i acc => (acc + f i)%re) acc.

(** Lines 113-122: [rA[n]] is the sum of row [n] of the column-major [A]. *)
Definition sum_columns (Ap : ptr real_t) (Nn Vn : nat) (junk : array real_t)
  : option (array real_t) :=
  for_loopM 0 Nn (fun n rA =>
    let rA := upd rA n ZERO in
    r ← for_loopM 0 Vn (fun _ '(rA, i) =>
           x ← load Ap i;
           Some (upd rA n (rA n + x)%re, (i + Nn)%nat)) (rA, n);
    Some (fst r)) junk.

(** Lines 111-149: [y] and [aa], and [rA] in the direct matricial case. *)
Definition univertex_quadratic (s : Cp_d1_ql1b) (junk : array real_t)
  : option (real_t * real_t * array real_t) :=
  let q := quad s in
  let Vn := V (gr s) in
  if negb (IS_ATA (N q)) then
    let Nn := Z.to_nat (N q) in
    rA ← sum_columns (A q) Nn Vn junk;
    let '(y, aa) :=
      for_loop 0 Nn (fun n '(y, aa) =>
        ((y + rA n * Y_ q n)%re, (aa + rA n * rA n)%re)) (ZERO, ZERO) in
    Some (y, aa, rA)
  else if negb (is_null (A q)) || truthy (a q) then
    let y := match Y q with
             | Some Yb => sum_loop 0 Vn Yb ZERO
             | None => ZERO
             end in
    aa ← (if (N q =? FULL_ATA)%Z then
            for_loopM 0 Vn (fun u aa =>
              for_loopM 0 Vn (fun v aa =>
                x ← load (A q) (Vn * u + v)%nat; Some (aa + x)%re) aa) ZERO
          else match A q with
               | Some Ab => Some (sum_loop 0 Vn Ab ZERO)
               | None => Some (if truthy (a q) then of_nat Vn else ZERO)
               end);
    Some (y, aa, junk)
  else Some (ZERO, ZERO, junk).

(** Lines 151-166: the total l1 weight and the (weighted) median of [Yl1]. *)
Definition univertex_l1 (s : Cp_d1_ql1b) : real_t * real_t * partition :=
  let l := l1 s in
  let p := part s in
  let Vn := V (gr s) in
  match l1_weights l with
  | Some w =>
      let wl1 := sum_loop 0 Vn w ZERO in
      match Yl1 l with
      | Some t =>
          let '(yl1, cl) := wth_element (comp_list p) 0 t Vn (HALF * wl1)%re w in
          let p' := {| rV := rV p; comp_assign := comp_assign p; comp_list := cl;
                       first_vertex := first_vertex p; saturated := saturated p;
                       rX := rX p; last_rX := last_rX p;
                       tmp_comp_assign := tmp_comp_assign p |} in
          (yl1, wl1, set_saturation p' 0 false)
      | None => (ZERO, wl1, p)
      end
  | None =>
      if truthy (homo_l1_weight l) then
        let wl1 := (of_nat Vn * homo_l1_weight l)%re in
        match Yl1 l with
        | Some t =>
            let '(yl1, cl) := nth_element_idx (comp_list p) 0 t Vn (Vn / 2) in
            (yl1, wl1,
             {| rV := rV p; comp_assign := comp_assign p; comp_list := cl;
                first_vertex := first_vertex p; saturated := saturated p;
                rX := rX p; last_rX := last_rX p;
                tmp_comp_assign := tmp_comp_assign p |})
        | None => (ZERO, wl1, p)
        end
      else (ZERO, ZERO, p)
  end.

(** Lines 168-171: solution of least-square + l1. *)
Definition univertex_threshold (y aa wl1 yl1 : real_t) : real_t :=
  if (y - wl1 >? aa * yl1)%re then ((y - wl1) / aa)%re
  else if (y + wl1 <? aa * yl1)%re then ((y + wl1) / aa)%re
  else yl1.

(** Lines 173-183 and 186-196: aggregated bounds. *)
Definition univertex_low (s : Cp_d1_ql1b) : real_t :=
  match low_bnd (bnd s) with
  | Some lb =>
      for_loop 0 (V (gr s)) (fun v low => if (low <? lb v)%re then lb v else low)
        (- INF_REAL)%re
  | None => homo_low_bnd (bnd s)
  end.

Definition univertex_upp (s : Cp_d1_ql1b) : real_t :=
  match upp_bnd (bnd s) with
  | Some ub =>
      for_loop 0 (V (gr s)) (fun v upp => if (upp >? ub v)%re then ub v else upp)
        INF_REAL
  | None => homo_upp_bnd (bnd s)
  end.

(** [R[n] = x] through the owned pointer [R]. *)
Definition store_R (s : Cp_d1_ql1b) (n : nat) (x : real_t) : option Cp_d1_ql1b :=
  p ← R (quad s);
  b ← heap s !! p;
  Some (with_quad s (quad s)
          (<[p := {| blk_bytes := blk_bytes b;
                     blk_cells := upd (blk_cells b) n x |}]> (heap s))).

Definition load_R (s : Cp_d1_ql1b) (n : nat) : option real_t :=
  p ← R (quad s);
  b ← heap s !! p;
  Some (blk_cells b n).

Definition solve_univertex_problem (s : Cp_d1_ql1b) (junk : array real_t)
  : option (real_t * Cp_d1_ql1b) :=
  '(y, aa, rA) ← univertex_quadratic s junk;
  let '(yl1, wl1, p) := univertex_l1 s in
  let uX := univertex_threshold y aa wl1 yl1 in
  let low := univertex_low s in
  let uX := if (uX <? low)%re then low else uX in
  let upp := univertex_upp s in
  let uX := if (uX >? upp)%re then upp else uX in
  let s := with_part s p in
  if negb (IS_ATA (N (quad s))) then
    s' ← for_loopM 0 (Z.to_nat (N (quad s))) (fun n s =>
           store_R s n (Y_ (quad s) n - rA n * uX)%re) s;
    Some (uX, s')
  else Some (uX, s).

(* ------------------------------------------------------------------------- *)
(** ** solve_reduced_problem: lines 206-460 *)

(** Line 224:
    [size_t rN = !IS_ATA(rN) && rV < (2*N*pfdr_it)/(N + pfdr_it) ? FULL_ATA : N;]
    The initialiser reads [rN] itself, whose value is indeterminate; it is the
    argument [rN0].  [pfdr_it] is an [int], converted to [size_t]; the
    arithmetic is that of [size_t].  A zero divisor is a fault. *)
Definition premultiply_test (s : Cp_d1_ql1b) (rN0 : Z) : option bool :=
  if IS_ATA rN0 then Some false
  else
    let n := N (quad s) in
    let it := wrap size_bits (pfdr_it (pfdr s)) in
    let num := wrap size_bits (wrap size_bits (2 * n) * it) in
    let den := wrap size_bits (n + it) in
    if (den =? 0)%Z then None
    else Some (Z.of_nat (rV (part s)) <? num / den)%Z.

(** What lines 213-236 settle, and line 429-430 hand to the delegated solver:
    the reduced shape tag and the number of cells of [rY] and of [rAA]
    ([None] is a pointer left null). *)
Record reduced_shape : Type := {
  rN : Z;
  rY_cells : option nat;
  rAA_cells : option nat
}.

Definition choose_reduced_shape (s : Cp_d1_ql1b) (rN0 : Z) : option reduced_shape :=
  let q := quad s in
  let rVn := rV (part s) in
  premult ← premultiply_test s rN0;
  let rN1 := if (premult : bool) then FULL_ATA else N q in
  if IS_ATA rN1 then
    let rY := if is_null (Y q) then None else Some rVn in
    if negb (is_null (A q)) || truthy (a q) then
      if (N q =? DIAG_ATA)%Z then
        Some {| rN := rN1; rY_cells := rY; rAA_cells := Some rVn |}
      else
        Some {| rN := FULL_ATA; rY_cells := rY; rAA_cells := Some (rVn * rVn)%nat |}
    else Some {| rN := rN1; rY_cells := rY; rAA_cells := None |}
  else Some {| rN := rN1; rY_cells := None; rAA_cells := None |}.

(** Lines 429-430: the shape tag given to [pfdr->set_quadratic]. *)
Definition pfdr_quadratic_shape (s : Cp_d1_ql1b) (r : reduced_shape) : Z :=
  if IS_ATA (rN r) then rN r else N (quad s).

(** Line 441: [pfdr_it = pfdr->precond_proximal_splitting();] records the
    number of iterations, [it], that the delegated solver used. *)
Definition record_pfdr_it (s : Cp_d1_ql1b) (it : Z) : Cp_d1_ql1b :=
  with_pfdr s {| pfdr_rho := pfdr_rho (pfdr s);
                 pfdr_cond_min := pfdr_cond_min (pfdr s);
                 pfdr_dif_rcd := pfdr_dif_rcd (pfdr s);
                 pfdr_dif_tol := pfdr_dif_tol (pfdr s);
                 pfdr_it := it; pfdr_it_max := pfdr_it_max (pfdr s) |}.

Definition with_comp_list (p : partition) (cl : array nat) : partition :=
  {| rV := rV p; comp_assign := comp_assign p; comp_list := cl;
     first_vertex := first_vertex p; saturated := saturated p;
     rX := rX p; last_rX := last_rX p; tmp_comp_assign := tmp_comp_assign p |}.

(** Line 372: [while ((wsum += l1_weights[comp_list[i]]) < wrk){ i++; }] over
    the [V] cells of [comp_list]; running past them is a fault. *)
Fixpoint median_position (fuel : nat) (w : array real_t) (cl : array nat)
    (wrk wsum : real_t) (i : nat) : option nat :=
  match fuel with
  | O => None
  | Datatypes.S fuel' =>
      let wsum := (wsum + w (cl i))%re in
      if (wsum <? wrk)%re then median_position fuel' w cl wrk wsum (Datatypes.S i)
      else Some i
  end.

(** The local buffers of lines 333-351 and the partition, as the loop of
    lines 353-422 threads them. *)
Record reduced_l1b : Type := {
  rl1_weights : ptr real_t;
  rYl1 : ptr real_t;
  rlow_bnd : ptr real_t;
  rupp_bnd : ptr real_t;
  rpart : partition
}.

(** Lines 355-399, for one component. *)
Definition reduce_l1 (s : Cp_d1_ql1b) (rv : nat) (st : reduced_l1b)
  : option reduced_l1b :=
  let l := l1 s in
  let p := rpart st in
  let lo := first_vertex p rv in
  let hi := first_vertex p (rv + 1) in
  match l1_weights l with
  | Some w =>
      rw ← store (rl1_weights st) rv ZERO;
      rw ← for_loopM lo hi (fun v rw =>
              cur ← load rw rv; store rw rv (cur + w (comp_list p v))%re) rw;
      match Yl1 l with
      | Some t =>
          rwv ← load rw rv;
          if is_saturated p rv then
            let wrk := (HALF * rwv + of_nat (hi - lo) * eps s)%re in
            i ← median_position (V (gr s) - lo) w (comp_list p) wrk ZERO lo;
            ry ← store (rYl1 st) rv (t (comp_list p i));
            Some {| rl1_weights := rw; rYl1 := ry; rlow_bnd := rlow_bnd st;
                    rupp_bnd := rupp_bnd st; rpart := p |}
          else
            let '(m, cl) := wth_element (comp_list p) lo t (hi - lo)
                              (HALF * rwv)%re w in
            ry ← store (rYl1 st) rv m;
            Some {| rl1_weights := rw; rYl1 := ry; rlow_bnd := rlow_bnd st;
                    rupp_bnd := rupp_bnd st;
                    rpart := set_saturation (with_comp_list p cl) rv false |}
      | None =>
          Some {| rl1_weights := rw; rYl1 := rYl1 st; rlow_bnd := rlow_bnd st;
                  rupp_bnd := rupp_bnd st; rpart := p |}
      end
  | None =>
      if truthy (homo_l1_weight l) then
        rw ← store (rl1_weights st) rv (of_nat (hi - lo) * homo_l1_weight l)%re;
        match Yl1 l with
        | Some t =>
            if is_saturated p rv then
              ry ← store (rYl1 st) rv (t (comp_list p (lo + (hi - lo) / 2)));
              Some {| rl1_weights := rw; rYl1 := ry; rlow_bnd := rlow_bnd st;
                      rupp_bnd := rupp_bnd st; rpart := p |}
            else
              let '(m, cl) := nth_element_idx (comp_list p) lo t (hi - lo)
                                ((hi - lo) / 2) in
              ry ← store (rYl1 st) rv m;
              Some {| rl1_weights := rw; rYl1 := ry; rlow_bnd := rlow_bnd st;
                      rupp_bnd := rupp_bnd st;
                      rpart := set_saturation (with_comp_list p cl) rv false |}
        | None =>
            Some {| rl1_weights := rw; rYl1 := rYl1 st; rlow_bnd := rlow_bnd st;
                    rupp_bnd := rupp_bnd st; rpart := p |}
        end
      else Some st
  end.

(** Lines 400-409: [rlow_bnd[rv]] over the members of component [rv]. *)
Definition reduce_low (s : Cp_d1_ql1b) (rv : nat) (p : partition)
    (rlow : ptr real_t) : option (ptr real_t) :=
  match low_bnd (bnd s) with
  | Some lb =>
      r ← store rlow rv (- INF_REAL)%re;
      for_loopM (first_vertex p rv) (first_vertex p (rv + 1)) (fun v r =>
        cur ← load r rv;
        if (cur <? lb (comp_list p v))%re then store r rv (lb (comp_list p v))
        else Some r) r
  | None => Some rlow
  end.

(** Lines 411-420, written against the pointer [rupp] in scope there. *)
Definition reduce_upp (s : Cp_d1_ql1b) (rv : nat) (p : partition)
    (rupp : ptr real_t) : option (ptr real_t) :=
  match upp_bnd (bnd s) with
  | Some ub =>
      r ← store rupp rv INF_REAL;
      for_loopM (first_vertex p rv) (first_vertex p (rv + 1)) (fun v r =>
        cur ← load r rv;
        if (cur >? ub (comp_list p v))%re then store r rv (ub (comp_list p v))
        else Some r) r
  | None => Some rupp
  end.

(** Lines 332-422.  Line 410, [real_t *rupp_bnd = nullptr;], declares a new
    pointer inside the loop body: lines 411-420 go through it, and the buffer
    allocated at line 349 is not written. *)
Definition reduce_l1_bounds (s : Cp_d1_ql1b)
    (junk_w junk_y junk_low junk_upp : array real_t) : option reduced_l1b :=
  let l := l1 s in
  let b := bnd s in
  let Vn := V (gr s) in
  let rVn := rV (part s) in
  let has_l1 := negb (is_null (l1_weights l)) || truthy (homo_l1_weight l) in
  let num_ops :=
    ((if has_l1 then (if is_null (l1_weights l) then rVn else Vn) else 0)
     + (if is_null (Yl1 l) then 0 else Vn)
     + (if is_null (low_bnd b) then 0 else Vn)
     + (if is_null (upp_bnd b) then 0 else Vn))%nat in
  let st :=
    {| rl1_weights := if has_l1 then Some junk_w else None;
       rYl1 := if is_null (Yl1 l) then None else Some junk_y;
       rlow_bnd := if is_null (low_bnd b) then None else Some junk_low;
       rupp_bnd := if is_null (upp_bnd b) then None else Some junk_upp;
       rpart := part s |} in
  if (num_ops =? 0)%nat then Some st
  else
    for_loopM 0 rVn (fun rv st =>
      st ← reduce_l1 s rv st;
      rlow ← reduce_low s rv (rpart st) (rlow_bnd st);
      let rupp_bnd_inner : ptr real_t := None in
      _ ← reduce_upp s rv (rpart st) rupp_bnd_inner;
      Some {| rl1_weights := rl1_weights st; rYl1 := rYl1 st; rlow_bnd := rlow;
              rupp_bnd := rupp_bnd st; rpart := rpart st |}) st.

(** Lines 431-432: the arguments of [pfdr->set_l1] and [pfdr->set_bounds]. *)
Record pfdr_l1b_args : Type := {
  arg_l1_weights : ptr real_t;
  arg_homo_l1_weight : real_t;
  arg_Yl1 : ptr real_t;
  arg_low_bnd : ptr real_t;
  arg_homo_low_bnd : real_t;
  arg_upp_bnd : ptr real_t;
  arg_homo_upp_bnd : real_t
}.

Definition pfdr_l1b_arguments (s : Cp_d1_ql1b)
    (junk_w junk_y junk_low junk_upp : array real_t) : option pfdr_l1b_args :=
  st ← reduce_l1_bounds s junk_w junk_y junk_low junk_upp;
  Some {| arg_l1_weights := rl1_weights st; arg_homo_l1_weight := ZERO;
          arg_Yl1 := rYl1 st;
          arg_low_bnd := rlow_bnd st; arg_homo_low_bnd := homo_low_bnd (bnd s);
          arg_upp_bnd := rupp_bnd st; arg_homo_upp_bnd := homo_upp_bnd (bnd s) |}.

(* ------------------------------------------------------------------------- *)
(** ** split: lines 462-663 *)

(** Lines 469-503: the gradient of the quadratic term. *)
Definition gradient_quadratic (s : Cp_d1_ql1b) : option (array real_t) :=
  let q := quad s in
  let p := part s in
  let Vn := V (gr s) in
  let grad : array real_t := fun _ => ZERO in
  if negb (IS_ATA (N q)) then
    let Nn := Z.to_nat (N q) in
    for_loopM 0 Vn (fun v grad =>
      for_loopM 0 Nn (fun n grad =>
        x ← load (A q) (Nn * v + n)%nat;
        r ← load_R s n;
        Some (upd grad v (grad v - x * r)%re)) grad) grad
  else if (N q =? FULL_ATA)%Z then
    for_loopM 0 Vn (fun u grad =>
      grad ← for_loopM 0 (rV p) (fun rv grad =>
        if (rX p rv =? ZERO)%re then Some grad
        else
          aurv ← for_loopM (first_vertex p rv) (first_vertex p (rv + 1))
                   (fun v aurv =>
                      x ← load (A q) (Vn * u + comp_list p v)%nat;
                      Some (aurv + x)%re) ZERO;
          Some (upd grad u (grad u + aurv * rX p rv)%re)) grad;
      Some (upd grad u (grad u - Y_ q u)%re)) grad
  else match A q with
       | Some Ab =>
           Some (for_loop 0 Vn (fun v grad =>
                   upd grad v (Ab v * rX p (comp_assign p v) - Y_ q v)%re) grad)
       | None =>
           if truthy (a q) then
             Some (for_loop 0 Vn (fun v grad =>
                     upd grad v (rX p (comp_assign p v) - Y_ q v)%re) grad)
           else Some grad
       end.

(** Lines 505-517: the differentiable d1 contribution. *)
Definition gradient_d1 (s : Cp_d1_ql1b) (grad : array real_t) : array real_t :=
  let g := gr s in
  let p := part s in
  for_loop 0 (V g) (fun u grad =>
    for_loop (first_edge g u) (first_edge g (u + 1)) (fun e grad =>
      if is_active g e then
        let v := adj_vertices g e in
        let grad_d1 :=
          if (rX p (comp_assign p u) >? rX p (comp_assign p v))%re
          then EDGE_WEIGHTS_ g e else (- EDGE_WEIGHTS_ g e)%re in
        let grad := upd grad u (grad u + grad_d1)%re in
        upd grad v (grad v - grad_d1)%re
      else grad) grad) grad.

Definition has_l1 (s : Cp_d1_ql1b) : bool :=
  negb (is_null (l1_weights (l1 s))) || truthy (homo_l1_weight (l1 s)).

(** Lines 519-529: the differentiable l1 contribution. *)
Definition gradient_l1 (s : Cp_d1_ql1b) (grad : array real_t) : array real_t :=
  let p := part s in
  if has_l1 s then
    for_loop 0 (rV p) (fun rv grad =>
      for_loop (first_vertex p rv) (first_vertex p (rv + 1)) (fun i grad =>
        let v := comp_list p i in
        if (rX p rv >? Yl1_ (l1 s) v)%re then
          upd grad v (grad v + L1_WEIGHTS_ (l1 s) v)%re
        else if (rX p rv <? Yl1_ (l1 s) v)%re then
          upd grad v (grad v - L1_WEIGHTS_ (l1 s) v)%re
        else grad) grad) grad
  else grad.

Definition gradient (s : Cp_d1_ql1b) : option (array real_t) :=
  grad ← gradient_quadratic s;
  Some (gradient_l1 s (gradient_d1 s grad)).

(** Modelled from the spec: the capacity setters and the side-of-cut query
    of the base class, absent from the sources ("terminal-capacity set/add,
    edge-capacity set, ... and a side-of-cut query per vertex"). *)
Definition set_term_capacities (fl : flow) (v : nat) (c : real_t) : flow :=
  {| term_cap := upd (term_cap fl) v c; edge_cap := edge_cap fl; sink := sink fl |}.

Definition add_term_capacities (fl : flow) (v : nat) (c : real_t) : flow :=
  {| term_cap := upd (term_cap fl) v (term_cap fl v + c)%re;
     edge_cap := edge_cap fl; sink := sink fl |}.

Definition set_edge_capacities (fl : flow) (e : nat) (c crev : real_t) : flow :=
  {| term_cap := term_cap fl; edge_cap := upd (edge_cap fl) e (c, crev);
     sink := sink fl |}.

Definition is_sink (fl : flow) (v : nat) : bool := sink fl v.

(** The state of the parallel region of lines 532-659: the object, the flow
    network [Gpar], the reduction variable [activation], and a count of the
    calls to [maxflow] (not a variable of the source). *)
Record split_state : Type := {
  sp_obj : Cp_d1_ql1b;
  sp_flow : flow;
  sp_activation : Z;
  sp_cuts : nat
}.

(** The members of component [rv], in the order of [comp_list]. *)
Definition members (p : partition) (rv : nat) : list nat :=
  map (comp_list p) (range (first_vertex p rv) (first_vertex p (rv + 1))).

(** [for (i = first_vertex[rv]; i < first_vertex[rv + 1]; i++){
       index_t v = comp_list[i]; body }] *)
Definition for_members {S} (p : partition) (rv : nat) (body : nat -> S -> S)
    (s : S) : S :=
  for_loop (first_vertex p rv) (first_vertex p (rv + 1))
    (fun i s => body (comp_list p i) s) s.

(** Lines 544-568: terminal capacities of the first cut. *)
Definition first_cut_terminals (s : Cp_d1_ql1b) (grad : array real_t) (rv : nat)
    (fl : flow) : flow :=
  let p := part s in
  let fl := for_members p rv (fun v fl => set_term_capacities fl v (grad v)) fl in
  let fl :=
    if has_l1 s then
      for_members p rv (fun v fl =>
        if (rX p rv =? Yl1_ (l1 s) v)%re
        then add_term_capacities fl v (L1_WEIGHTS_ (l1 s) v) else fl) fl
    else fl in
  match upp_bnd (bnd s) with
  | Some ub =>
      for_members p rv (fun v fl =>
        if (rX p rv =? ub v)%re then set_term_capacities fl v INF_REAL else fl) fl
  | None =>
      if (homo_upp_bnd (bnd s) <? INF_REAL)%re
         && (rX p rv =? homo_upp_bnd (bnd s))%re
      then for_members p rv (fun v fl => set_term_capacities fl v INF_REAL) fl
      else fl
  end.

(** Lines 603-627: terminal capacities of the second cut. *)
Definition second_cut_terminals (s : Cp_d1_ql1b) (grad : array real_t) (rv : nat)
    (fl : flow) : flow :=
  let p := part s in
  let fl := for_members p rv (fun v fl => set_term_capacities fl v (grad v)) fl in
  let fl :=
    if has_l1 s then
      for_members p rv (fun v fl =>
        if (rX p rv =? Yl1_ (l1 s) v)%re
        then add_term_capacities fl v (- L1_WEIGHTS_ (l1 s) v)%re else fl) fl
    else fl in
  match low_bnd (bnd s) with
  | Some lb =>
      for_members p rv (fun v fl =>
        if (rX p rv =? lb v)%re
        then set_term_capacities fl v (- INF_REAL)%re else fl) fl
  | None =>
      if (homo_low_bnd (bnd s) >? - INF_REAL)%re
         && (rX p rv =? homo_low_bnd (bnd s))%re
      then for_members p rv (fun v fl =>
             set_term_capacities fl v (- INF_REAL)%re) fl
      else fl
  end.

(** Lines 569-577 and 628-637: the d1 edge capacities. *)
Definition set_d1_capacities (s : Cp_d1_ql1b) (rv : nat) (fl : flow) : flow :=
  let g := gr s in
  for_members (part s) rv (fun v fl =>
    for_loop (first_edge g v) (first_edge g (v + 1)) (fun e fl =>
      if negb (is_active g e)
      then set_edge_capacities fl e (EDGE_WEIGHTS_ g e) (EDGE_WEIGHTS_ g e)
      else fl) fl) fl.

(** Lines 582-590 and 642-650: activate the edges that the cut separates;
    [rv_activation] is an [index_t]. *)
Definition activate_cut_edges (p : partition) (fl : flow) (rv : nat)
    (ga : graph * Z) : graph * Z :=
  for_members p rv (fun v ga =>
    for_loop (first_edge (fst ga) v) (first_edge (fst ga) (v + 1)) (fun e ga =>
      let '(g, rv_activation) := ga in
      if negb (is_active g e)
         && negb (Bool.eqb (is_sink fl v) (is_sink fl (adj_vertices g e)))
      then (set_active g e, wrap index_bits (rv_activation + 1))
      else (g, rv_activation)) ga) ga.

(** Lines 595-596. *)
Definition only_d1_nondifferentiable (s : Cp_d1_ql1b) : bool :=
  is_null (l1_weights (l1 s)) && negb (truthy (homo_l1_weight (l1 s)))
  && is_null (low_bnd (bnd s)) && is_null (upp_bnd (bnd s))
  && (homo_low_bnd (bnd s) =? - INF_REAL)%re
  && (homo_upp_bnd (bnd s) =? INF_REAL)%re.

(** Lines 539-600: the first cut of component [rv]. *)
Definition first_cut (grad : array real_t) (rv : nat) (st : split_state)
  : split_state * Z :=
  let s := sp_obj st in
  let fl := first_cut_terminals s grad rv (sp_flow st) in
  let fl := set_d1_capacities s rv fl in
  let fl := maxflow fl (members (part s) rv) in
  let '(g, rv_activation) := activate_cut_edges (part s) fl rv (gr s, 0%Z) in
  ({| sp_obj := with_gr s g; sp_flow := fl;
      sp_activation := sp_activation st; sp_cuts := Datatypes.S (sp_cuts st) |},
   rv_activation).

(** Lines 602-650: the second cut of component [rv]. *)
Definition second_cut (grad : array real_t) (rv : nat) (st : split_state)
    (rv_activation : Z) : split_state * Z :=
  let s := sp_obj st in
  let fl := second_cut_terminals s grad rv (sp_flow st) in
  let fl := set_d1_capacities s rv fl in
  let fl := maxflow fl (members (part s) rv) in
  let '(g, rv_activation) :=
    activate_cut_edges (part s) fl rv (gr s, rv_activation) in
  ({| sp_obj := with_gr s g; sp_flow := fl;
      sp_activation := sp_activation st; sp_cuts := Datatypes.S (sp_cuts st) |},
   rv_activation).

(** Lines 597-598 and 652-653. *)
Definition close_component (rv : nat) (st : split_state) (rv_activation : Z)
  : split_state :=
  let s := sp_obj st in
  {| sp_obj := with_part s (set_saturation (part s) rv (rv_activation =? 0)%Z);
     sp_flow := sp_flow st;
     sp_activation := wrap index_bits (sp_activation st + rv_activation);
     sp_cuts := sp_cuts st |}.

(** The body of the loop of line 538. *)
Definition split_component (grad : array real_t) (rv : nat) (st : split_state)
  : split_state :=
  if is_saturated (part (sp_obj st)) rv then st
  else
    let '(st1, rv_activation) := first_cut grad rv st in
    if only_d1_nondifferentiable (sp_obj st1) then
      close_component rv st1 rv_activation
    else
      let '(st2, rv_activation) := second_cut grad rv st1 rv_activation in
      close_component rv st2 rv_activation.

(** The loop of line 538 over the components [lo], ..., [hi - 1]. *)
Definition split_components (grad : array real_t) (lo hi : nat)
    (st : split_state) : split_state :=
  for_loop lo hi (split_component grad) st.

(** [split()], on the flow network [fl] that [get_parallel_flow_graph]
    hands out. *)
Definition split (s : Cp_d1_ql1b) (fl : flow) : option split_state :=
  grad ← gradient s;
  Some (split_components grad 0 (rV (part s))
          {| sp_obj := s; sp_flow := fl; sp_activation := 0; sp_cuts := 0 |}).

(* ------------------------------------------------------------------------- *)
(** ** compute_evolution: lines 665-701 *)

(** The number of members of component [rv]:
    [first_vertex[rv + 1] - first_vertex[rv]]. *)
Definition comp_size (p : partition) (rv : nat) : nat :=
  first_vertex p (rv + 1) - first_vertex p rv.

(** The previous round's value at the vertex in cell [i] of [comp_list]:
    [last_rX[get_tmp_comp_assign(comp_list[i])]]. *)
Definition last_value (p : partition) (i : nat) : real_t :=
  last_rX p (tmp_comp_assign p (comp_list p i)).

(** The variables that the loop of line 674 updates: [dif], [amp], the
    counter [saturation] (a [comp_t]) and the saturation flags. *)
Record evolution : Type := {
  ev_dif : real_t;
  ev_amp : real_t;
  ev_saturation : Z;
  ev_part : partition
}.

Definition evolution_component (dif_tol' : real_t) (compute_dif : bool)
    (rv : nat) (ev : evolution) : evolution :=
  let p := ev_part ev in
  let rXv := rX p rv in
  if is_saturated p rv then
    let lrXv := last_value p (first_vertex p rv) in
    let rv_dif := rabs (rXv - lrXv)%re in
    let '(sat, p') :=
      if (rv_dif >? rabs (rX p rv) * dif_tol')%re
      then (ev_saturation ev, set_saturation p rv false)
      else (wrap comp_bits (ev_saturation ev + 1), p) in
    if compute_dif then
      {| ev_dif := (ev_dif ev + rv_dif * rv_dif * of_nat (comp_size p rv))%re;
         ev_amp := (ev_amp ev + rXv * rXv * of_nat (comp_size p rv))%re;
         ev_saturation := sat; ev_part := p' |}
    else
      {| ev_dif := ev_dif ev; ev_amp := ev_amp ev;
         ev_saturation := sat; ev_part := p' |}
  else if compute_dif then
    {| ev_dif :=
         for_loop (first_vertex p rv) (first_vertex p (rv + 1)) (fun v dif =>
           let lrXv := last_value p v in
           (dif + (rXv - lrXv) * (rXv - lrXv))%re) (ev_dif ev);
       ev_amp := (ev_amp ev + rXv * rXv * of_nat (comp_size p rv))%re;
       ev_saturation := ev_saturation ev; ev_part := p |}
  else ev.

Definition evolution_loop (s : Cp_d1_ql1b) (compute_dif : bool) (lo hi : nat)
    (ev : evolution) : evolution :=
  for_loop lo hi (evolution_component (dif_tol s) compute_dif) ev.

(** [compute_evolution(compute_dif, saturation)]: the returned value, the
    counter written back to [saturation], and the object. *)
Definition compute_evolution (s : Cp_d1_ql1b) (compute_dif : bool)
  : real_t * Z * Cp_d1_ql1b :=
  let ev := evolution_loop s compute_dif 0 (rV (part s))
              {| ev_dif := ZERO; ev_amp := ZERO; ev_saturation := 0;
                 ev_part := part s |} in
  let s' := with_part s (ev_part ev) in
  if compute_dif then
    let dif := rsqrt (ev_dif ev) in
    let amp := rsqrt (ev_amp ev) in
    (if (amp >? eps s)%re then (dif / amp)%re else (dif / eps s)%re,
     ev_saturation ev, s')
  else (ZERO, ev_saturation ev, s').

(* ------------------------------------------------------------------------- *)
(** ** compute_objective: lines 703-787 *)

(** Lines 725-735: the sum of the entries of [A] over the rows of component
    [ru] and the columns of component [rv]. *)
Definition block_sum (s : Cp_d1_ql1b) (ru rv : nat) : option real_t :=
  let p := part s in
  let Vn := V (gr s) in
  for_loopM (first_vertex p ru) (first_vertex p (ru + 1)) (fun u rAAuv =>
    for_loopM (first_vertex p rv) (first_vertex p (rv + 1)) (fun v rAAuv =>
      x ← load (A (quad s)) (Vn * comp_list p u + comp_list p v)%nat;
      Some (rAAuv + x)%re) rAAuv) ZERO.

(** Lines 739-744 and 753-758: the sum of [Y_] over a component. *)
Definition comp_sum_Y (s : Cp_d1_ql1b) (rv : nat) : real_t :=
  let p := part s in
  for_loop (first_vertex p rv) (first_vertex p (rv + 1)) (fun v acc =>
    (acc + Y_ (quad s) (comp_list p v))%re) ZERO.

(** Lines 710-762: the quadratic term, added to [obj]. *)
Definition objective_quadratic (s : Cp_d1_ql1b) (obj : real_t) : option real_t :=
  let q := quad s in
  let p := part s in
  if negb (IS_ATA (N q)) then
    obj ← for_loopM 0 (Z.to_nat (N q)) (fun n obj =>
             r ← load_R s n; Some (obj + r * r)%re) obj;
    Some (obj * HALF)%re
  else if (N q =? FULL_ATA)%Z then
    for_loopM 0 (rV p) (fun ru obj =>
      sumrAAuvXv ← for_loopM 0 (ru + 1) (fun rv sumrAAuvXv =>
        rAAuv ← block_sum s ru rv;
        if (rv <? ru)%nat then Some (sumrAAuvXv + rAAuv * rX p rv)%re
        else Some (sumrAAuvXv + HALF * rAAuv * rX p ru)%re) ZERO;
      let rAYu := comp_sum_Y s ru in
      Some (obj + rX p ru * (sumrAAuvXv - rAYu))%re) obj
  else if negb (is_null (A q)) || truthy (a q) then
    Some (for_loop 0 (rV p) (fun rv obj =>
      let rAAv :=
        match A q with
        | Some Ab =>
            for_loop (first_vertex p rv) (first_vertex p (rv + 1)) (fun v acc =>
              (acc + Ab (comp_list p v))%re) ZERO
        | None => of_nat (comp_size p rv)
        end in
      let rAYv := comp_sum_Y s rv in
      (obj + rX p rv * (HALF * rAAv * rX p rv - rAYv))%re) obj)
  else Some obj.

(** Lines 766-784: the l1 term, added to [obj]. *)
Definition objective_l1 (s : Cp_d1_ql1b) (obj : real_t) : real_t :=
  let p := part s in
  match l1_weights (l1 s) with
  | Some w =>
      for_loop 0 (V (gr s)) (fun v obj =>
        (obj + w v * rabs (rX p (comp_assign p v) - Yl1_ (l1 s) v))%re) obj
  | None =>
      if truthy (homo_l1_weight (l1 s)) then
        let l1' :=
          for_loop 0 (rV p) (fun rv acc =>
            for_loop (first_vertex p rv) (first_vertex p (rv + 1)) (fun v acc =>
              (acc + rabs (rX p rv - Yl1_ (l1 s) (comp_list p v)))%re) acc) ZERO in
        (obj + homo_l1_weight (l1 s) * l1')%re
      else obj
  end.

Definition compute_objective (s : Cp_d1_ql1b) : option real_t :=
  obj ← objective_quadratic s ZERO;
  let obj := (obj + compute_graph_d1 (gr s) (part s))%re in
  Some (objective_l1 s obj).

End Model.

(* ------------------------------------------------------------------------- *)
(** ** solve_reduced_problem: the reduced operator, lines 213-330, and the
    residual, lines 424-460 *)

Section ReducedOperator.
Context {RT : RealT} {IT : IntT} {CO : Collaborators}.

(** The local pointers [rY], [rA], [rAA] and the shape tag [rN].  The cells
    of a buffer are addressed as the source addresses them, [rA + N*rv] then
    [[n]] being cell [N*rv + n]. *)
Record reduced_operator : Type := {
  op_rN : Z;
  op_rY : ptr real_t;
  op_rA : ptr real_t;
  op_rAA : ptr real_t
}.

(** Lines 213-236: the shape, and the buffers that it asks for. *)
Definition allocate_reduced (s : Cp_d1_ql1b) (rN0 : Z)
    (junk_rY junk_rAA : array real_t) : option reduced_operator :=
  r ← choose_reduced_shape s rN0;
  Some {| op_rN := rN r;
          op_rY := match rY_cells r with Some _ => Some junk_rY | None => None end;
          op_rA := None;
          op_rAA := match rAA_cells r with Some _ => Some junk_rAA | None => None end |}.

(** [p[i] += x] *)
Definition add_to (p : ptr real_t) (i : nat) (x : real_t) : option (ptr real_t) :=
  cur ← load p i; store p i (cur + x)%re.

(** Lines 238-248: [rA], zeroed over [N*rV] cells (a [size_t] product), then
    column [rv] of [rA] is the sum of the columns of [A] of the members of
    component [rv]. *)
Definition reduce_columns (s : Cp_d1_ql1b) (junk_rA : array real_t)
  : option (array real_t) :=
  let q := quad s in
  let p := part s in
  let Nn := Z.to_nat (N q) in
  let rA :=
    for_loop 0 (Z.to_nat (wrap size_bits (N q * Z.of_nat (rV p))))
      (fun i rA => upd rA i ZERO) junk_rA in
  for_loopM 0 (rV p) (fun rv rA =>
    for_loopM (first_vertex p rv) (first_vertex p (rv + 1)) (fun v rA =>
      for_loopM 0 Nn (fun n rA =>
        x ← load (A q) (Nn * comp_list p v + n)%nat;
        Some (upd rA (Nn * rv + n) (rA (Nn * rv + n)%nat + x)%re)) rA) rA) rA.

(** Lines 253-261: the entries [(ru, rv)], [rv <= ru], of [rA^t rA]. *)
Definition gram_upper (Nn rVn : nat) (rA : array real_t) (rAA : ptr real_t)
  : option (ptr real_t) :=
  for_loopM 0 rVn (fun ru rAA =>
    for_loopM 0 (ru + 1) (fun rv rAA =>
      rAA ← store rAA (rVn * ru + rv)%nat ZERO;
      for_loopM 0 Nn (fun n rAA =>
        add_to rAA (rVn * ru + rv)%nat
          (rA (Nn * ru + n)%nat * rA (Nn * rv + n)%nat)%re) rAA) rAA) rAA.

(** Lines 262-269: the correlation of [rA] with the observation. *)
Definition correlate_Y (Nn rVn : nat) (rA Yb : array real_t) (rY : ptr real_t)
  : option (ptr real_t) :=
  for_loopM 0 rVn (fun rv rY =>
    rY ← store rY rv ZERO;
    for_loopM 0 Nn (fun n rY =>
      add_to rY rv (rA (Nn * rv + n)%nat * Yb n)%re) rY) rY.

(** Lines 273-283: [rY[rv]] is the sum of [Y] over component [rv]. *)
Definition reduce_Y (p : partition) (Yb : array real_t) (rY : ptr real_t)
  : option (ptr real_t) :=
  for_loopM 0 (rV p) (fun rv rY =>
    rY ← store rY rv ZERO;
    for_loopM (first_vertex p rv) (first_vertex p (rv + 1)) (fun v rY =>
      add_to rY rv (Yb (comp_list p v))) rY) rY.

(** Lines 284-302: the entries [(ru, rv)], [rv <= ru], of the reduced full
    matrix. *)
Definition reduce_full (s : Cp_d1_ql1b) (rAA : ptr real_t) : option (ptr real_t) :=
  let p := part s in
  let Vn := V (gr s) in
  for_loopM 0 (rV p) (fun ru rAA =>
    for_loopM 0 (ru + 1) (fun rv rAA =>
      rAA ← store rAA (rV p * ru + rv)%nat ZERO;
      for_loopM (first_vertex p ru) (first_vertex p (ru + 1)) (fun u rAA =>
        for_loopM (first_vertex p rv) (first_vertex p (rv + 1)) (fun v rAA =>
          x ← load (A (quad s)) (Vn * comp_list p u + comp_list p v)%nat;
          add_to rAA (rV p * ru + rv)%nat x) rAA) rAA) rAA) rAA.

(** Lines 303-312: the reduced diagonal. *)
Definition reduce_diagonal (p : partition) (Ab : array real_t) (rAA : ptr real_t)
  : option (ptr real_t) :=
  for_loopM 0 (rV p) (fun rv rAA =>
    rAA ← store rAA rv ZERO;
    for_loopM (first_vertex p rv) (first_vertex p (rv + 1)) (fun v rAA =>
      add_to rAA rv (Ab (comp_list p v))) rAA) rAA.

(** Lines 313-318: the reduced identity. *)
Definition reduce_identity (p : partition) (rAA : ptr real_t)
  : option (ptr real_t) :=
  for_loopM 0 (rV p) (fun rv rAA => store rAA rv (of_nat (comp_size p rv))) rAA.

(** Lines 320-330: the entries [(ru, rv)], [ru < rv], are copied from the
    entries [(rv, ru)].  With [rV = 0] the bound [rV - 1] of the source is
    [-1] or, for a 32-bit [comp_t], [2^32 - 1]; the inner loop is empty then,
    as it is here. *)
Definition mirror_lower (rVn : nat) (rAA : ptr real_t) : option (ptr real_t) :=
  for_loopM 0 (rVn - 1) (fun ru rAA =>
    r ← for_loopM (ru + 1) rVn (fun rv '(rAA, i) =>
           x ← load rAA i;
           rAA ← store rAA (rVn * ru + rv)%nat x;
           Some (rAA, (i + rVn)%nat)) (rAA, (rVn + (rVn + 1) * ru)%nat);
    Some (fst r)) rAA.

(** Lines 212-330. *)
Definition reduce_operator (s : Cp_d1_ql1b) (rN0 : Z)
    (junk_rY junk_rA junk_rAA : array real_t) : option reduced_operator :=
  let q := quad s in
  let p := part s in
  op ← allocate_reduced s rN0 junk_rY junk_rAA;
  op ← (if negb (IS_ATA (N q)) then
          let Nn := Z.to_nat (N q) in
          rA ← reduce_columns s junk_rA;
          if (op_rN op =? FULL_ATA)%Z then
            rAA ← gram_upper Nn (rV p) rA (op_rAA op);
            rY ← match Y q with
                 | Some Yb => correlate_Y Nn (rV p) rA Yb (op_rY op)
                 | None => Some (op_rY op)
                 end;
            Some {| op_rN := op_rN op; op_rY := rY; op_rA := Some rA;
                    op_rAA := rAA |}
          else
            Some {| op_rN := op_rN op; op_rY := op_rY op; op_rA := Some rA;
                    op_rAA := op_rAA op |}
        else
          rY ← match Y q with
               | Some Yb => reduce_Y p Yb (op_rY op)
               | None => Some (op_rY op)
               end;
          rAA ← (if (N q =? FULL_ATA)%Z then reduce_full s (op_rAA op)
                 else match A q with
                      | Some Ab => reduce_diagonal p Ab (op_rAA op)
                      | None =>
                          if truthy (a q) then reduce_identity p (op_rAA op)
                          else Some (op_rAA op)
                      end);
          Some {| op_rN := op_rN op; op_rY := rY; op_rA := op_rA op;
                  op_rAA := rAA |});
  if (op_rN op =? FULL_ATA)%Z then
    rAA ← mirror_lower (rV p) (op_rAA op);
    Some {| op_rN := op_rN op; op_rY := op_rY op; op_rA := op_rA op;
            op_rAA := rAA |}
  else Some op.

(** Lines 429-430: the arguments of [pfdr->set_quadratic]; in the direct
    shape the fourth one is left to its default. *)
Record pfdr_quadratic_args : Type := {
  arg_Y : ptr real_t;
  arg_N : Z;
  arg_A : ptr real_t;
  arg_a : option real_t
}.

Definition pfdr_quadratic_arguments (s : Cp_d1_ql1b) (op : reduced_operator)
  : pfdr_quadratic_args :=
  if IS_ATA (op_rN op) then
    {| arg_Y := op_rY op; arg_N := op_rN op; arg_A := op_rAA op;
       arg_a := Some (a (quad s)) |}
  else
    {| arg_Y := Y (quad s); arg_N := N (quad s); arg_A := op_rA op;
       arg_a := None |}.

(** Modelled from the spec: the delegated solver [Pfdr_d1_ql1b], absent from
    the sources ("accepts the same shape cases; setters for edge weights,
    quadratic data, l1 data, bounds, conditioning parameters, relaxation,
    algorithm parameters; ... a solve call returning the iteration count").
    It is a function of the object (reduced graph, parameters) and of the
    arguments of its setters, to the iterate and the iteration count. *)
Definition pfdr_solver : Type :=
  Cp_d1_ql1b -> pfdr_quadratic_args -> pfdr_l1b_args -> array real_t * Z.

Definition with_rX (p : partition) (x : array real_t) : partition :=
  {| rV := rV p; comp_assign := comp_assign p; comp_list := comp_list p;
     first_vertex := first_vertex p; saturated := saturated p;
     rX := x; last_rX := last_rX p; tmp_comp_assign := tmp_comp_assign p |}.

(** Lines 446-456: [R[n] = Y_(n)], then [R[n] -= rA[i]*rX[rv]] along row [n]
    of [rA]. *)
Definition update_residual (s : Cp_d1_ql1b) (rA : ptr real_t)
  : option Cp_d1_ql1b :=
  if negb (IS_ATA (N (quad s))) then
    let Nn := Z.to_nat (N (quad s)) in
    for_loopM 0 Nn (fun n s =>
      s ← store_R s n (Y_ (quad s) n);
      r ← for_loopM 0 (rV (part s)) (fun rv '(s, i) =>
             cur ← load_R s n;
             x ← load rA i;
             s ← store_R s n (cur - x * rX (part s) rv)%re;
             Some (s, (i + Nn)%nat)) (s, n);
      Some (fst r)) s
  else Some s.

(** [solve_reduced_problem()], with the delegated solver [solve]. *)
Definition solve_reduced_problem (s : Cp_d1_ql1b) (rN0 : Z)
    (junk_rY junk_rA junk_rAA junk_w junk_y junk_low junk_upp : array real_t)
    (solve : pfdr_solver) : option Cp_d1_ql1b :=
  op ← reduce_operator s rN0 junk_rY junk_rA junk_rAA;
  st ← reduce_l1_bounds s junk_w junk_y junk_low junk_upp;
  let s := with_part s (rpart st) in
  let '(x, it) :=
    solve s (pfdr_quadratic_arguments s op)
      {| arg_l1_weights := rl1_weights st; arg_homo_l1_weight := ZERO;
         arg_Yl1 := rYl1 st;
         arg_low_bnd := rlow_bnd st; arg_homo_low_bnd := homo_low_bnd (bnd s);
         arg_upp_bnd := rupp_bnd st; arg_homo_upp_bnd := homo_upp_bnd (bnd s) |} in
  let s := record_pfdr_it (with_part s (with_rX (part s) x)) it in
  update_residual s (op_rA op).

End ReducedOperator.

(* ------------------------------------------------------------------------- *)
(** ** The destructor: line 46 *)

Section Destructor.
Context {RT : RealT} {IT : IntT}.



End Destructor.

(* ------------------------------------------------------------------------- *)
(** ** The quantities that the statements speak of *)

Section Quantities.
Context {RT : RealT} {IT : IntT} {CO : Collaborators}.

(** [big_sum lo hi f] is [f lo + ... + f (hi - 1)], added from the left. *)
Definition rsum (l : list real_t) : real_t := foldl radd ZERO l.

Definition big_sum (lo hi : nat) (f : nat -> real_t) : real_t :=
  rsum (map f (range lo hi)).

(** [<x, y>] over the first [n] cells. *)
Definition inner (x y : array real_t) (n : nat) : real_t :=
  big_sum 0 n (fun i => (x i * y i)%re).

(** [A 1]: cell [n] is the sum of row [n] of the column-major [Nn]-by-[Vn]
    matrix in [Ab]. *)
Definition A_ones (Ab : array real_t) (Nn Vn : nat) : array real_t :=
  fun n => big_sum 0 Vn (fun v => Ab (n + Nn * v)%nat).

(** The pointers that the code reads without a test are not null: [A] and
    the owned [R] in the direct matricial shape, [A] in the full
    premultiplied shape. *)
Definition pointers_ok (s : Cp_d1_ql1b) : Prop :=
  (IS_ATA (N (quad s)) = false ->
   is_Some (A (quad s))
   /\ exists p, R (quad s) = Some p /\ is_Some (heap s !! p))
  /\ (N (quad s) = FULL_ATA -> is_Some (A (quad s))).

(** Following the spec's words: [y = <A 1, Y>]; in the premultiplied shapes
    [Y] holds [A^t Y]. *)
Definition quadratic_y (s : Cp_d1_ql1b) : real_t :=
  let q := quad s in
  let Vn := V (gr s) in
  if negb (IS_ATA (N q)) then
    let Nn := Z.to_nat (N q) in
    match A q with
    | Some Ab => inner (A_ones Ab Nn Vn) (Y_ q) Nn
    | None => ZERO
    end
  else if negb (is_null (A q)) || truthy (a q) then
    match Y q with
    | Some Yb => big_sum 0 Vn Yb
    | None => ZERO
    end
  else ZERO.

(** Following the spec's words: [aa = ||A 1||^2], in the premultiplied shapes
    the sum of the entries of [A^t A] (full), of its diagonal (diagonal), or
    [V] (identity). *)
Definition quadratic_aa (s : Cp_d1_ql1b) : real_t :=
  let q := quad s in
  let Vn := V (gr s) in
  if negb (IS_ATA (N q)) then
    let Nn := Z.to_nat (N q) in
    match A q with
    | Some Ab => inner (A_ones Ab Nn Vn) (A_ones Ab Nn Vn) Nn
    | None => ZERO
    end
  else if negb (is_null (A q)) || truthy (a q) then
    match A q with
    | Some Ab =>
        if (N q =? FULL_ATA)%Z then big_sum 0 (Vn * Vn) Ab else big_sum 0 Vn Ab
    | None => if truthy (a q) then of_nat Vn else ZERO
    end
  else ZERO.

(** Following the spec's words: the total l1 weight. *)
Definition total_l1_weight (s : Cp_d1_ql1b) : real_t :=
  match l1_weights (l1 s) with
  | Some w => big_sum 0 (V (gr s)) w
  | None =>
      if truthy (homo_l1_weight (l1 s))
      then (of_nat (V (gr s)) * homo_l1_weight (l1 s))%re else ZERO
  end.

(** The median of the targets as the selection utilities return it: the
    weighted one under per-vertex weights, the one of rank [V/2] under a
    homogeneous weight, zero without targets or without l1 term. *)
Definition l1_median (s : Cp_d1_ql1b) : real_t :=
  let Vn := V (gr s) in
  match l1_weights (l1 s), Yl1 (l1 s) with
  | Some w, Some t =>
      fst (wth_element (comp_list (part s)) 0 t Vn
             (HALF * total_l1_weight s)%re w)
  | None, Some t =>
      if truthy (homo_l1_weight (l1 s))
      then fst (nth_element_idx (comp_list (part s)) 0 t Vn (Vn / 2))
      else ZERO
  | _, None => ZERO
  end.

(** Following the spec's words: the closed-form soft threshold,
    [(y - wl1) / aa] if [y - wl1 > aa median], [(y + wl1) / aa] if
    [y + wl1 < aa median], the median otherwise. *)
Definition soft_threshold (y aa wl1 median : real_t) : real_t :=
  if (y - wl1 >? aa * median)%re then ((y - wl1) / aa)%re
  else if (y + wl1 <? aa * median)%re then ((y + wl1) / aa)%re
  else median.

(** Following the spec's words: clamping into [[low, upp]], from below and
    then from above. *)
Definition clamp (low upp x : real_t) : real_t :=
  let x := if (x <? low)%re then low else x in
  if (x >? upp)%re then upp else x.

(** [m] is the greatest of [start] and of the values of [f] on [l]: none of
    them exceeds it, and it is one of them.  [is_min_of] is the dual. *)
Definition is_max_of (start m : real_t) (f : array real_t) (l : list nat) : Prop :=
  (forall v, v ∈ l -> (m <? f v)%re = false)
  /\ (m <? start)%re = false
  /\ (m = start \/ exists v, v ∈ l /\ m = f v).

Definition is_min_of (start m : real_t) (f : array real_t) (l : list nat) : Prop :=
  (forall v, v ∈ l -> (m >? f v)%re = false)
  /\ (m >? start)%re = false
  /\ (m = start \/ exists v, v ∈ l /\ m = f v).

(** The right-hand side of the test of line 224, in [size_t] arithmetic. *)
Definition premultiply_threshold (s : Cp_d1_ql1b) : Z :=
  let it := wrap size_bits (pfdr_it (pfdr s)) in
  (wrap size_bits (wrap size_bits (2 * N (quad s)) * it)
   / wrap size_bits (N (quad s) + it))%Z.

(** Following the spec's words: "premultiply when
    [rV < 2 N iterCap / (N + iterCap)]", [iterCap] being the iteration cap of
    the inner solver; the quotient is the real one, and also the rounded one. *)
Definition spec_premultiply_rule (s : Cp_d1_ql1b) : Prop :=
  let iterCap := pfdr_it_max (pfdr s) in
  (Z.of_nat (rV (part s)) * (N (quad s) + iterCap) < 2 * N (quad s) * iterCap)%Z.

Definition spec_premultiply_rule_rounded (s : Cp_d1_ql1b) : Prop :=
  let iterCap := pfdr_it_max (pfdr s) in
  (Z.of_nat (rV (part s)) < (2 * N (quad s) * iterCap) / (N (quad s) + iterCap))%Z.

(** What [split] may change is erased: the active edges and the saturation
    flags. *)
Definition erase_active (g : graph) : graph :=
  {| V := V g; E := E g; first_edge := first_edge g;
     adj_vertices := adj_vertices g; edge_weights := edge_weights g;
     homo_edge_weight := homo_edge_weight g; active := ∅ |}.

Definition erase_saturated (p : partition) : partition :=
  {| rV := rV p; comp_assign := comp_assign p; comp_list := comp_list p;
     first_vertex := first_vertex p; saturated := ∅; rX := rX p;
     last_rX := last_rX p; tmp_comp_assign := tmp_comp_assign p |}.

Definition frame (s : Cp_d1_ql1b) : Cp_d1_ql1b :=
  with_gr (with_part s (erase_saturated (part s))) (erase_active (gr s)).

(** The edges that are active in [g'] and were not in [g]. *)
Definition activated (g g' : graph) : gset nat := active g' ∖ active g.

(** The vertex lists and edge ranges stay inside the graph, and the number of
    edges fits [index_t]. *)
Definition csr_ok (s : Cp_d1_ql1b) : bool :=
  let g := gr s in
  let p := part s in
  forallb (fun rv => first_vertex p (rv + 1) <=? V g) (seq 0 (rV p))
  && forallb (fun i => comp_list p i <? V g) (seq 0 (V g))
  && forallb (fun v => first_edge g (v + 1) <=? E g) (seq 0 (V g))
  && (Z.of_nat (E g) <? 2 ^ index_bits)%Z.

(** [split()] called [n] times in a row, each call on the object and the
    flow network that the previous one left. *)
Fixpoint split_repeat (n : nat) (s : Cp_d1_ql1b) (fl : flow)
  : option (Cp_d1_ql1b * flow) :=
  match n with
  | O => Some (s, fl)
  | Datatypes.S n' =>
      st ← split s fl; split_repeat n' (sp_obj st) (sp_flow st)
  end.

(** The values did not change since the previous round: every component has
    a member, and at each of its members the previous value is the value of
    the component. *)
Definition values_unchanged (s : Cp_d1_ql1b) : Prop :=
  forall rv, rv < rV (part s) ->
    first_vertex (part s) rv < first_vertex (part s) (rv + 1)
    /\ forall i, first_vertex (part s) rv <= i < first_vertex (part s) (rv + 1) ->
         last_value (part s) i = rX (part s) rv.

(** The number of saturated components among the first [k]. *)
Definition saturated_count (p : partition) (k : nat) : nat :=
  length (List.filter (is_saturated p) (seq 0 k)).

(** The sum of [f] over the members of component [rv]. *)
Definition comp_big_sum (p : partition) (rv : nat) (f : nat -> real_t) : real_t :=
  big_sum (first_vertex p rv) (first_vertex p (rv + 1))
    (fun i => f (comp_list p i)).

(** The cells of the residual [R]. *)
Definition R_cells (s : Cp_d1_ql1b) : array real_t :=
  match R (quad s) with
  | Some p =>
      match heap s !! p with
      | Some b => blk_cells b
      | None => fun _ => ZERO
      end
  | None => fun _ => ZERO
  end.

(** Entry [(ru, rv)] of the reduced [A^t A]: the sum of the entries of [A]
    over the members of [ru] and of [rv]. *)
Definition reduced_AA (s : Cp_d1_ql1b) (Ab : array real_t) (ru rv : nat) : real_t :=
  comp_big_sum (part s) ru (fun u =>
    comp_big_sum (part s) rv (fun v => Ab (V (gr s) * u + v)%nat)).

(** Following the spec's words: the quadratic term, [1/2 ||R||^2] in the
    direct shape; in the premultiplied shapes
    [1/2 x^t (A^t A) x - x^t (A^t Y)], one summand per component, over the
    upper triangle with half the diagonal entry. *)
Definition quadratic_term (s : Cp_d1_ql1b) : real_t :=
  let q := quad s in
  let p := part s in
  if negb (IS_ATA (N q)) then
    (HALF * big_sum 0 (Z.to_nat (N q)) (fun n => R_cells s n * R_cells s n))%re
  else if (N q =? FULL_ATA)%Z then
    match A q with
    | Some Ab =>
        big_sum 0 (rV p) (fun ru =>
          rX p ru
          * (big_sum 0 (ru + 1) (fun rv =>
               if (rv <? ru)%nat then reduced_AA s Ab ru rv * rX p rv
               else HALF * reduced_AA s Ab ru rv * rX p ru)
             - comp_big_sum p ru (Y_ q)))%re
    | None => ZERO
    end
  else if negb (is_null (A q)) || truthy (a q) then
    big_sum 0 (rV p) (fun rv =>
      rX p rv
      * (HALF * match A q with
                | Some Ab => comp_big_sum p rv Ab
                | None => of_nat (comp_size p rv)
                end * rX p rv
         - comp_big_sum p rv (Y_ q)))%re
  else ZERO.

(** Following the spec's words: the l1 term, the sum of
    [weight * |x - target|] over the vertices, taken component by component
    under a homogeneous weight. *)
Definition l1_term_value (s : Cp_d1_ql1b) : real_t :=
  let p := part s in
  match l1_weights (l1 s) with
  | Some w =>
      big_sum 0 (V (gr s)) (fun v =>
        w v * rabs (rX p (comp_assign p v) - Yl1_ (l1 s) v))%re
  | None =>
      if truthy (homo_l1_weight (l1 s)) then
        big_sum 0 (rV p) (fun rv =>
          comp_big_sum p rv (fun v =>
            homo_l1_weight (l1 s) * rabs (rX p rv - Yl1_ (l1 s) v))%re)
      else ZERO
  end.

(** Under a homogeneous l1 weight, the weight, the values and the targets
    are finite. *)
Definition l1_finite (s : Cp_d1_ql1b) : Prop :=
  l1_weights (l1 s) = None ->
  rfinite (homo_l1_weight (l1 s)) = true
  /\ (forall rv, rfinite (rX (part s) rv) = true)
  /\ (forall v, rfinite (Yl1_ (l1 s) v) = true).

(** One pass of activation (lines 582-590, 642-650): only the active set
    changes, it grows by visited edges (all of which satisfy [P]), and the
    counter moves by their number, modulo [2 ^ index_bits]. *)
Definition pass_spec (P : nat -> Prop) (g0 : graph) (c0 : Z) (ga : graph * Z)
  : Prop :=
  erase_active ga.1 = erase_active g0
  /\ active g0 ⊆ active ga.1
  /\ ga.2 = wrap index_bits (c0 + Z.of_nat (size (activated g0 ga.1)))
  /\ forall e, e ∈ activated g0 ga.1 -> P e.

(** Modelled from the spec: the graph total variation, absent from the
    sources ("penalty term summing edge weights times absolute value
    differences between adjacent vertices' values"). *)
Definition graph_d1 (g : graph) (p : partition) : real_t :=
  big_sum 0 (V g) (fun u =>
    big_sum (first_edge g u) (first_edge g (u + 1)) (fun e =>
      (EDGE_WEIGHTS_ g e
       * rabs (rX p (comp_assign p u)
               - rX p (comp_assign p (adj_vertices g e))))%re)).

(** The body of the loop of line 538 without the shortcut of lines 595-600:
    both cuts, always. *)
Definition split_component_two_cuts (grad : array real_t) (rv : nat)
    (st : split_state) : split_state :=
  if is_saturated (part (sp_obj st)) rv then st
  else
    let '(st1, rv_activation) := first_cut grad rv st in
    let '(st2, rv_activation) := second_cut grad rv st1 rv_activation in
    close_component rv st2 rv_activation.

(** The cut of [fl] separates the ends of edge [e] of vertex [v]. *)
Definition separated (g : graph) (fl : flow) (v e : nat) : bool :=
  negb (Bool.eqb (is_sink fl v) (is_sink fl (adj_vertices g e))).

End Quantities.

(* ------------------------------------------------------------------------- *)
(** ** More quantities *)

Section MoreQuantities.
Context {RT : RealT} {IT : IntT} {CO : Collaborators}.


(** Edge [e] is listed under a member of a component that is not saturated. *)
Definition edge_of_unsaturated (s : Cp_d1_ql1b) (e : nat) : Prop :=
  exists rv i,
    rv < rV (part s) /\ is_saturated (part s) rv = false
    /\ first_vertex (part s) rv <= i < first_vertex (part s) (rv + 1)
    /\ first_edge (gr s) (comp_list (part s) i) <= e
       < first_edge (gr s) (comp_list (part s) i + 1).

(** The test of line 680 on component [rv]. *)
Definition evolves (s : Cp_d1_ql1b) (rv : nat) : bool :=
  let p := part s in
  (rabs (rX p rv - last_value p (first_vertex p rv))
   >? rabs (rX p rv) * dif_tol s)%re.

(** The sum of row [n] of the column-major [Nn]-row matrix [Ab] over the
    columns of the members of component [rv]. *)
Definition column_sum (p : partition) (Ab : array real_t) (Nn rv n : nat) : real_t :=
  comp_big_sum p rv (fun v => Ab (Nn * v + n)%nat).

(** [y - t_0 - t_1 - ...], subtracted from the left. *)
Definition sub_all (y : real_t) (l : list real_t) : real_t := foldl rsub y l.

(** The cells of row [ru] up to the diagonal. *)
Definition in_row (rVn ru j : nat) : bool :=
  (rVn * ru <=? j)%nat && (j <=? rVn * ru + ru)%nat.

(** What the reduction of the l1 term and of the bounds may change of the
    partition: the order of [comp_list] (the selections reorder it), and
    nothing else. *)
Definition same_components (p p' : partition) : Prop :=
  rV p' = rV p /\ comp_assign p' = comp_assign p
  /\ first_vertex p' = first_vertex p /\ rX p' = rX p
  /\ last_rX p' = last_rX p /\ tmp_comp_assign p' = tmp_comp_assign p
  /\ saturated p' = saturated p.

(** The weight accumulated by the loop of line 372 when it tests cell [k]:
    the weights of the cells [lo], ..., [k] of [comp_list]. *)
Definition cumulated (w : array real_t) (cl : array nat) (lo k : nat) : real_t :=
  big_sum lo (S k) (fun i => w (cl i)).

(** Following the comments of the source: the gradient of the quadratic
    term at vertex [v], [-(A^t) R] in the direct shape and
    [(A^t A) X - A^t Y] in the premultiplied shapes (a component of value zero
    contributes nothing). *)
Definition quadratic_gradient (s : Cp_d1_ql1b) (v : nat) : real_t :=
  let q := quad s in
  let p := part s in
  match A q with
  | Some Ab =>
      if negb (IS_ATA (N q)) then
        let Nn := Z.to_nat (N q) in
        sub_all ZERO (map (fun n => (Ab (Nn * v + n)%nat * R_cells s n)%re)
                        (range 0 Nn))
      else if (N q =? FULL_ATA)%Z then
        (big_sum 0 (rV p) (fun rv =>
           if (rX p rv =? ZERO)%re then ZERO
           else (comp_big_sum p rv (fun c => Ab (V (gr s) * v + c)%nat)
                 * rX p rv)%re)
         - Y_ q v)%re
      else (Ab v * rX p (comp_assign p v) - Y_ q v)%re
  | None =>
      if IS_ATA (N q) && negb (N q =? FULL_ATA)%Z && truthy (a q)
      then (rX p (comp_assign p v) - Y_ q v)%re
      else ZERO
  end.

(** Lines 562, 564: the value of component [rv] sits on the upper bound of
    vertex [v]; lines 621, 623: on its lower bound. *)
Definition at_upper_bound (s : Cp_d1_ql1b) (rv v : nat) : bool :=
  match upp_bnd (bnd s) with
  | Some ub => (rX (part s) rv =? ub v)%re
  | None => (homo_upp_bnd (bnd s) <? INF_REAL)%re
            && (rX (part s) rv =? homo_upp_bnd (bnd s))%re
  end.

Definition at_lower_bound (s : Cp_d1_ql1b) (rv v : nat) : bool :=
  match low_bnd (bnd s) with
  | Some lb => (rX (part s) rv =? lb v)%re
  | None => (homo_low_bnd (bnd s) >? - INF_REAL)%re
            && (rX (part s) rv =? homo_low_bnd (bnd s))%re
  end.

(** The value of component [rv] sits on the l1 target of vertex [v], where
    the l1 term is not differentiable. *)
Definition at_l1_kink (s : Cp_d1_ql1b) (rv v : nat) : bool :=
  has_l1 s && (rX (part s) rv =? Yl1_ (l1 s) v)%re.

(** The partition is one: the ranges of [first_vertex] tile the [V] cells of
    [comp_list], which lists every vertex once, and [comp_assign] names the
    component of each vertex. *)
Definition partition_ok (s : Cp_d1_ql1b) : Prop :=
  let p := part s in
  first_vertex p 0 = 0
  /\ (forall rv, rv < rV p -> first_vertex p rv <= first_vertex p (rv + 1))
  /\ first_vertex p (rV p) = V (gr s)
  /\ NoDup (map (comp_list p) (range 0 (V (gr s))))
  /\ (forall i, i < V (gr s) -> comp_list p i < V (gr s))
  /\ forall rv i, rv < rV p ->
       first_vertex p rv <= i < first_vertex p (rv + 1) ->
       comp_assign p (comp_list p i) = rv.

(** Lines 525-526: the derivative of the l1 term at vertex [v], where the
    value of its component is off the target. *)
Definition l1_gradient (s : Cp_d1_ql1b) (v : nat) (x : real_t) : real_t :=
  let c := rX (part s) (comp_assign (part s) v) in
  if has_l1 s then
    if (c >? Yl1_ (l1 s) v)%re then (x + L1_WEIGHTS_ (l1 s) v)%re
    else if (c <? Yl1_ (l1 s) v)%re then (x - L1_WEIGHTS_ (l1 s) v)%re
    else x
  else x.

End MoreQuantities.

(* ------------------------------------------------------------------------- *)
(** ** An executable instance: extended rationals *)

(** Exact rationals with the two infinities.  Where IEEE-754 gives NaN
    (infinity minus infinity, zero times infinity, a quotient of infinities,
    the root of a negative) or a rounded result, this instance picks a value;
    no statement below depends on that choice. *)
Inductive xreal : Type :=
  | NInf
  | Fin (q : Qc)
  | PInf.

Definition xadd (x y : xreal) : xreal :=
  match x, y with
  | PInf, _ | _, PInf => PInf
  | NInf, _ | _, NInf => NInf
  | Fin p, Fin q => Fin (p + q)
  end.

Definition xopp (x : xreal) : xreal :=
  match x with
  | NInf => PInf
  | Fin p => Fin (- p)
  | PInf => NInf
  end.

Definition xsub (x y : xreal) : xreal := xadd x (xopp y).

Definition xsgn (x : xreal) : Z :=
  match x with
  | NInf => (-1)%Z
  | Fin p => Z.sgn (Qnum (this p))
  | PInf => 1%Z
  end.

Definition of_sign (z : Z) : xreal :=
  match z with
  | Z0 => Fin 0
  | Zpos _ => PInf
  | Zneg _ => NInf
  end.

Definition xmul (x y : xreal) : xreal :=
  match x, y with
  | Fin p, Fin q => Fin (p * q)
  | _, _ => of_sign (xsgn x * xsgn y)
  end.

Definition xdiv (x y : xreal) : xreal :=
  match x, y with
  | Fin p, Fin q => Fin (p / q)
  | Fin _, _ => Fin 0
  | _, Fin _ => of_sign (xsgn x * (if bool_decide (xsgn y = (-1)%Z) then -1 else 1))
  | _, _ => Fin 0
  end.

Definition xabs (x : xreal) : xreal :=
  match x with
  | Fin p => Fin (if bool_decide (p < 0)%Qc then - p else p)
  | _ => PInf
  end.

(** The root of a rational, rounded down on the numerator. *)
Definition xsqrt (x : xreal) : xreal :=
  match x with
  | NInf => Fin 0
  | Fin p =>
      let n := Qnum (this p) in
      let d := Qden (this p) in
      Fin (Q2Qc (Z.sqrt (n * Zpos d) # d))
  | PInf => PInf
  end.

Definition xltb (x y : xreal) : bool :=
  match x, y with
  | _, NInf => false
  | NInf, _ => true
  | PInf, _ => false
  | _, PInf => true
  | Fin p, Fin q => bool_decide (p < q)%Qc
  end.

Definition xeqb (x y : xreal) : bool :=
  match x, y with
  | NInf, NInf | PInf, PInf => true
  | Fin p, Fin q => bool_decide (p = q)
  | _, _ => false
  end.

Definition xfinite (x : xreal) : bool :=
  match x with Fin _ => true | _ => false end.

#[export] Instance xreal_RealT : RealT := {|
  real_t := xreal;
  ZERO := Fin 0;
  ONE := Fin 1;
  HALF := Fin (Q2Qc (1 # 2));
  INF_REAL := PInf;
  radd := xadd; rsub := xsub; rmul := xmul; rdiv := xdiv;
  ropp := xopp; rabs := xabs; rsqrt := xsqrt;
  rltb := xltb; reqb := xeqb;
  of_nat := fun n => Fin (Qc_of_Z (Z.of_nat n));
  of_Q := fun q => Fin (Q2Qc q);
  rfinite := xfinite;
  sizeof_real_t := 8
|}.

(** The integer of [xreal]. *)
Definition xint (z : Z) : real_t := Fin (Qc_of_Z z).

(** [Cp_d1_ql1b<double, uint32_t, uint16_t>] with the sentinels [0] and
    [(size_t) -1]. *)
#[export] Instance example_IntT : IntT := {|
  FULL_ATA := 0;
  DIAG_ATA := 2 ^ 64 - 1;
  index_bits := 32;
  comp_bits := 16
|}.

(** Stand-ins for the collaborators, to run examples: the selections return
    the first value of the range and leave the order as it is, the min-cut
    puts the odd vertices on the sink side, and the d1 term is [graph_d1].
    Every statement below is about all collaborators. *)
#[export] Instance example_Collaborators : Collaborators := {|
  wth_element := fun cl off t _ _ _ => (t (cl off), cl);
  nth_element_idx := fun cl off t _ _ => (t (cl off), cl);
  maxflow := fun fl _ =>
    {| term_cap := term_cap fl; edge_cap := edge_cap fl; sink := Nat.odd |};
  compute_graph_d1 := graph_d1
|}.

(* ------------------------------------------------------------------------- *)
(** ** Example objects *)

Definition ex_graph (Vn En : nat) (fe adj : list nat) : graph :=
  {| V := Vn; E := En; first_edge := of_list 0 fe; adj_vertices := of_list 0 adj;
     edge_weights := None; homo_edge_weight := ONE; active := ∅ |}.

Definition ex_partition (rVn : nat) (ca cl fv : list nat) (rx lrx : list real_t)
  : partition :=
  {| rV := rVn; comp_assign := of_list 0 ca; comp_list := of_list 0 cl;
     first_vertex := of_list 0 fv; saturated := ∅; rX := of_list ZERO rx;
     last_rX := of_list ZERO lrx; tmp_comp_assign := of_list 0 ca |}.

Definition xarray (l : list Z) : array real_t := of_list ZERO (map xint l).

(** One vertex, identity operator. *)
Definition ex_one_vertex : Cp_d1_ql1b :=
  Cp_d1_ql1b_new (ex_graph 1 0 [0; 0] []) (ex_partition 1 [0] [0] [0; 1] [] [])
    (of_Q (1 # 1000)) (of_Q (1 # 1000000)).

Definition ex_l1_only : Cp_d1_ql1b :=
  match set_l1 (set_quadratic ex_one_vertex (Some (xarray [5%Z])) DIAG_ATA None ONE
                  (fun _ => ZERO)) None (xint 2) None with
  | Returned s => s
  | Exited _ s => s
  end.

(** Two vertices in one component, a direct 2-by-2 operator (column-major
    [1 3; 2 4]) and the observation [(1, 1)]. *)
Definition ex_direct : Cp_d1_ql1b :=
  set_quadratic
    (Cp_d1_ql1b_new (ex_graph 2 0 [0; 0; 0] [])
       (ex_partition 1 [0; 0] [0; 1] [0; 2] [] [])
       (of_Q (1 # 1000)) (of_Q (1 # 1000000)))
    (Some (xarray [1%Z; 1%Z])) 2 (Some (xarray [1%Z; 2%Z; 3%Z; 4%Z])) ZERO
    (fun _ => ZERO).

(** One vertex with the bounds [5 <= x] and [x <= 3], given as arrays. *)
Definition ex_bad_bounds : Cp_d1_ql1b :=
  match set_bounds (set_quadratic ex_one_vertex (Some (xarray [1%Z])) DIAG_ATA None
                      ONE (fun _ => ZERO))
          (Some (xarray [5%Z])) (- INF_REAL)%re (Some (xarray [3%Z])) INF_REAL with
  | Returned s => s
  | Exited _ s => s
  end.


(** Three vertices in the components [{0, 1}] and [{2}], with the bounds
    [1, 2, 0 <= x] and [x <= 5, 4, 6] given as arrays. *)
Definition ex_two_components : Cp_d1_ql1b :=
  Cp_d1_ql1b_new (ex_graph 3 0 [0; 0; 0; 0] [])
    (ex_partition 2 [0; 0; 1] [0; 1; 2] [0; 2; 3] [] [])
    (of_Q (1 # 1000)) (of_Q (1 # 1000000)).

Definition returned (o : outcome) : Cp_d1_ql1b :=
  match o with Returned s => s | Exited _ s => s end.

Definition ex_array_bounds : Cp_d1_ql1b :=
  returned (set_bounds ex_two_components
              (Some (xarray [1%Z; 2%Z; 0%Z])) (- INF_REAL)%re
              (Some (xarray [5%Z; 4%Z; 6%Z])) INF_REAL).

Definition ex_low_bounds : Cp_d1_ql1b :=
  returned (set_bounds ex_two_components
              (Some (xarray [1%Z; 2%Z; 0%Z])) (- INF_REAL)%re None INF_REAL).

(** Five components of one vertex each and three observations, the operator
    all ones; the object as constructed, then configured. *)
Definition ex_five_components : Cp_d1_ql1b :=
  set_quadratic
    (Cp_d1_ql1b_new (ex_graph 5 0 [0; 0; 0; 0; 0; 0] [])
       (ex_partition 5 [0; 1; 2; 3; 4] [0; 1; 2; 3; 4] [0; 1; 2; 3; 4; 5] [] [])
       (of_Q (1 # 1000)) (of_Q (1 # 1000000)))
    (Some (xarray [1%Z; 1%Z; 1%Z])) 3 (Some (fun _ => ONE)) ZERO (fun _ => ZERO).

(** The same partition with ten observations, after a solve that took three
    iterations. *)
Definition ex_after_solve : Cp_d1_ql1b :=
  record_pfdr_it
    (set_quadratic ex_five_components (Some (fun _ => ONE)) 10
       (Some (fun _ => ONE)) ZERO (fun _ => ZERO)) 3.

(** A path [0 - 1 - 2 - 3] with the edges [0 -> 1], [1 -> 2], [2 -> 3], all
    inactive, in one unsaturated component of value [0]; identity operator
    and observations [1, 2, 3, 4]. *)
Definition ex_path : Cp_d1_ql1b :=
  set_quadratic
    (Cp_d1_ql1b_new (ex_graph 4 3 [0; 1; 2; 3; 3] [1; 2; 3])
       (ex_partition 1 [0; 0; 0; 0] [0; 1; 2; 3] [0; 4] [ZERO] [ZERO])
       (of_Q (1 # 1000)) (of_Q (1 # 1000000)))
    (Some (xarray [1%Z; 2%Z; 3%Z; 4%Z])) DIAG_ATA None ONE (fun _ => ZERO).

(** The same path under an l1 penalty of weight [1] toward zero. *)
Definition ex_path_l1 : Cp_d1_ql1b :=
  returned (set_l1 ex_path None ONE None).

(** A flow network as [get_parallel_flow_graph] may hand it out. *)
Definition ex_flow : flow :=
  {| term_cap := fun _ => ZERO; edge_cap := fun _ => (ZERO, ZERO);
     sink := fun _ => false |}.

(** Three vertices in the components [{0, 1}] (saturated) and [{2}] (not
    saturated), with the values [2] and [5], which are also those of the
    previous round. *)
Definition ex_evolution : Cp_d1_ql1b :=
  let s := Cp_d1_ql1b_new (ex_graph 3 0 [0; 0; 0; 0] [])
             (ex_partition 2 [0; 0; 1] [0; 1; 2] [0; 2; 3]
                [xint 2; xint 5] [xint 2; xint 5])
             (of_Q (1 # 1000)) (of_Q (1 # 1000000)) in
  with_part s (set_saturation (part s) 0 true).

(** The path in the components [{0, 1}] and [{2, 3}] of values [1] and [3],
    identity operator, observations [1, 2, 3, 4], and an l1 penalty of weight
    [1] toward zero. *)
Definition ex_objective : Cp_d1_ql1b :=
  returned
    (set_l1
       (set_quadratic
          (Cp_d1_ql1b_new (ex_graph 4 3 [0; 1; 2; 3; 3] [1; 2; 3])
             (ex_partition 2 [0; 0; 1; 1] [0; 1; 2; 3] [0; 2; 4]
                [xint 1; xint 3] [])
             (of_Q (1 # 1000)) (of_Q (1 # 1000000)))
          (Some (xarray [1%Z; 2%Z; 3%Z; 4%Z])) DIAG_ATA None ONE (fun _ => ZERO))
       None ONE None).

(** The path of [ex_path] with its component saturated. *)
Definition ex_path_saturated : Cp_d1_ql1b :=
  with_part ex_path (set_saturation (part ex_path) 0 true).

(** Three vertices in the components [{0, 1}] and [{2}] of values [1] and
    [2], with the full premultiplied operator [1 2 3; 4 5 6; 7 8 9] and the
    observation [(1, 2, 3)]. *)
Definition ex_full : Cp_d1_ql1b :=
  set_quadratic
    (Cp_d1_ql1b_new (ex_graph 3 0 [0; 0; 0; 0] [])
       (ex_partition 2 [0; 0; 1] [0; 1; 2] [0; 2; 3] [xint 1; xint 2] [])
       (of_Q (1 # 1000)) (of_Q (1 # 1000000)))
    (Some (xarray [1%Z; 2%Z; 3%Z])) FULL_ATA
    (Some (xarray [1%Z; 2%Z; 3%Z; 4%Z; 5%Z; 6%Z; 7%Z; 8%Z; 9%Z])) ONE
    (fun _ => ZERO).

(** Five components of one vertex each and ten observations, the operator
    all ones, before any solve. *)
Definition ex_ten_observations : Cp_d1_ql1b :=
  set_quadratic ex_five_components (Some (fun _ => ONE)) 10
    (Some (fun _ => ONE)) ZERO (fun _ => ZERO).

(** Three vertices in the components [{0, 1}] (saturated) and [{2}], with
    the l1 weights [1, 1, 1] and the targets [4, 6, 8]. *)
Definition ex_saturated_l1 : Cp_d1_ql1b :=
  let s := returned (set_l1 ex_two_components (Some (xarray [1%Z; 1%Z; 1%Z])) ZERO
                       (Some (xarray [4%Z; 6%Z; 8%Z]))) in
  with_part s (set_saturation (part s) 0 true).

(** A stand-in for the delegated solver: seven iterations, every component
    at [1]. *)
Definition ex_solver : pfdr_solver := fun _ _ _ => (fun _ => ONE, 7%Z).

(* ========================================================================= *)
(** * Properties *)

(** ** Loops *)

Lemma range_S (lo hi : nat) : lo <= hi -> range lo (S hi) = range lo hi ++ [hi].
Proof.
  intros Hle. unfold range.
  replace (S hi - lo) with (S (hi - lo)) by lia.
  rewrite seq_S. do 2 f_equal. lia.
Qed.

Lemma range_empty (lo hi : nat) : hi <= lo -> range lo hi = [].
Proof. intros Hle. unfold range. by replace (hi - lo) with 0 by lia. Qed.

Lemma elem_of_range (lo hi i : nat) : i ∈ range lo hi <-> lo <= i < hi.
Proof. unfold range. rewrite elem_of_seq. lia. Qed.

Lemma for_loop_empty {S} (lo hi : nat) (body : nat -> S -> S) (s : S) :
  hi <= lo -> for_loop lo hi body s = s.
Proof. intros Hle. unfold for_loop. by rewrite range_empty. Qed.

Lemma for_loop_S {S} (lo hi : nat) (body : nat -> S -> S) (s : S) :
  lo <= hi ->
  for_loop lo (Datatypes.S hi) body s = body hi (for_loop lo hi body s).
Proof.
  intros Hle. unfold for_loop. by rewrite range_S, foldl_snoc.
Qed.

(** The invariant rule of [for_loop]. *)
Lemma for_loop_invariant {S} (I : nat -> S -> Prop) (lo hi : nat)
    (body : nat -> S -> S) (s : S) :
  lo <= hi ->
  I lo s ->
  (forall i s, lo <= i < hi -> I i s -> I (Datatypes.S i) (body i s)) ->
  I hi (for_loop lo hi body s).
Proof.
  intros Hle H0 Hstep. induction hi as [|hi IH].
  - replace lo with 0 in * by lia. by rewrite for_loop_empty.
  - destruct (decide (lo = Datatypes.S hi)) as [->|Hne].
    + by rewrite for_loop_empty.
    + rewrite for_loop_S by lia. apply Hstep; [lia|].
      apply IH; [lia|]. intros i s' Hi. apply Hstep. lia.
Qed.

Lemma for_loop_ext {S} (lo hi : nat) (f g : nat -> S -> S) (s : S) :
  (forall i s, lo <= i < hi -> f i s = g i s) ->
  for_loop lo hi f s = for_loop lo hi g s.
Proof.
  intros Hfg. unfold for_loop.
  assert (Hin : forall i, i ∈ range lo hi -> lo <= i < hi)
    by (intros i; apply elem_of_range).
  revert s Hin. induction (range lo hi) as [|i l IH]; intros s Hin; [done|].
  simpl. rewrite Hfg by (apply Hin; left).
  apply IH. intros j Hj. apply Hin. by right.
Qed.

Lemma for_each_app {S} (l1 l2 : list nat) (body : nat -> S -> option S) (s : S) :
  for_each (l1 ++ l2) body s = s' ← for_each l1 body s; for_each l2 body s'.
Proof.
  revert s. induction l1 as [|i l1 IH]; intros s; [done|].
  simpl. destruct (body i s) as [s'|]; simpl; [apply IH|done].
Qed.

Lemma for_loopM_empty {S} (lo hi : nat) (body : nat -> S -> option S) (s : S) :
  hi <= lo -> for_loopM lo hi body s = Some s.
Proof. intros Hle. unfold for_loopM. by rewrite range_empty. Qed.

Lemma for_loopM_S {S} (lo hi : nat) (body : nat -> S -> option S) (s : S) :
  lo <= hi ->
  for_loopM lo (Datatypes.S hi) body s = s' ← for_loopM lo hi body s; body hi s'.
Proof.
  intros Hle. unfold for_loopM. rewrite range_S, for_each_app by done.
  destruct (for_each (range lo hi) body s) as [s'|]; simpl; [|done].
  by destruct (body hi s').
Qed.

(** A loop whose body never faults is the pure loop. *)
Lemma for_loopM_pure {S} (lo hi : nat) (body : nat -> S -> option S)
    (g : nat -> S -> S) (s : S) :
  (forall i s, lo <= i < hi -> body i s = Some (g i s)) ->
  for_loopM lo hi body s = Some (for_loop lo hi g s).
Proof.
  intros Hb. unfold for_loopM, for_loop.
  assert (Hin : forall i, i ∈ range lo hi -> lo <= i < hi)
    by (intros i; apply elem_of_range).
  revert s Hin. induction (range lo hi) as [|i l IH]; intros s Hin; [done|].
  simpl. rewrite Hb by (apply Hin; left). simpl.
  apply IH. intros j Hj. apply Hin. by right.
Qed.

(** The invariant rule of a faulting loop whose body returns under the
    invariant. *)
Lemma for_loopM_invariant {S} (I : nat -> S -> Prop) (lo hi : nat)
    (body : nat -> S -> option S) (s : S) :
  lo <= hi ->
  I lo s ->
  (forall i s, lo <= i < hi -> I i s ->
     exists s', body i s = Some s' /\ I (Datatypes.S i) s') ->
  exists s', for_loopM lo hi body s = Some s' /\ I hi s'.
Proof.
  intros Hle H0 Hstep. induction hi as [|hi IH].
  - replace lo with 0 in * by lia. exists s. by rewrite for_loopM_empty.
  - destruct (decide (lo = Datatypes.S hi)) as [->|Hne].
    + exists s. by rewrite for_loopM_empty.
    + destruct IH as (s1 & Hs1 & HI1); [lia| |].
      { intros i s' Hi. apply Hstep. lia. }
      destruct (Hstep hi s1) as (s2 & Hs2 & HI2); [lia|done|].
      exists s2. rewrite for_loopM_S by lia. rewrite Hs1. simpl. by rewrite Hs2.
Qed.

(* ------------------------------------------------------------------------- *)
(** ** The extended rationals satisfy the laws *)

Lemma xsgn_nonneg (x : xreal) : xltb x (Fin 0) = false <-> (0 <= xsgn x)%Z.
Proof.
  destruct x as [| [[n d] c] |]; simpl; try (split; (done || lia)).
  rewrite bool_decide_eq_false. unfold Qclt, Qlt; simpl. lia.
Qed.

Lemma of_sign_nonneg (z : Z) : xltb (of_sign z) (Fin 0) = false <-> (0 <= z)%Z.
Proof. destruct z; simpl; split; try done; lia. Qed.

#[export] Instance xreal_RealLaws : RealLaws.
Proof.
  split.
  - intros [| p |]; simpl; try done.
    apply bool_decide_eq_false, (irreflexivity (<)%Qc).
  - intros [| p |] [| q |] [| r |]; simpl; try done.
    rewrite !bool_decide_eq_true. apply Qclt_trans.
  - intros [| p |] [| q |] [| r |]; simpl; try done.
    rewrite !bool_decide_eq_false. intros Hpq Hqr Hpr.
    apply Qcnot_lt_le in Hpq, Hqr.
    apply (Qclt_not_le _ _ Hpr). by apply Qcle_trans with q.
  - intros [| p |] [| q |]; simpl; try (split; done).
    rewrite bool_decide_eq_true. split; congruence.
  - intros [| p |] [| q |]; simpl; try done. f_equal; ring.
  - intros [| p |] [| q |] [| r |]; simpl; try done. f_equal; ring.
  - intros [| p |]; simpl; try done. f_equal; ring.
  - intros [| p |] [| q |]; simpl; try done; try (f_equal; ring);
      by rewrite Z.mul_comm.
  - intros [| p |]; simpl; try done. intros _. f_equal; ring.
  - intros [| p |] [| q |] [| r |]; simpl; try done. intros _ _ _. f_equal; ring.
  - intros [| p |]; simpl; try done. intros _. unfold xsub; simpl. f_equal; ring.
  - reflexivity.
  - intros [| p |]; simpl; try done.
    apply bool_decide_eq_false. case_bool_decide as Hp; [|done].
    intros Hn. apply (irreflexivity (<)%Qc p).
    apply Qclt_trans with 0%Qc; [done|].
    apply Qclt_minus_iff in Hn. by rewrite Qcplus_0_l, Qcopp_involutive in Hn.
  - intros x y Hx Hy. change (xltb (xmul x y) (Fin 0) = false).
    apply xsgn_nonneg in Hx, Hy.
    destruct x as [| p |], y as [| q |]; simpl in *; try lia;
      try (apply of_sign_nonneg; lia).
    apply bool_decide_eq_false, Qcle_not_lt.
    destruct p as [[n d] c], q as [[n' d'] c']; simpl in *.
    replace 0%Qc with (0 * Qcmake (n' # d') c')%Qc by ring.
    apply Qcmult_le_compat_r; unfold Qcle, Qle; simpl; lia.
  - reflexivity.
  - intros [| p |]; simpl; try done. intros _. f_equal. unfold Qcdiv. ring.
  - done.
  - intros [| p |] [| q |]; done.
  - intros [| p |] [| q |]; done.
  - intros [| p |] [| q |]; done.
  - intros [| p |]; done.
  - done.
Qed.

(* ------------------------------------------------------------------------- *)
(** ** Configuration *)

Section Configuration.
Context {RT : RealT} {IT : IntT}.

(** C8.  [set_l1] ends the process exactly when it is given no weight array
    and a negative homogeneous weight, and [set_bounds] exactly when it is
    given no bound array and a homogeneous lower bound greater than the
    homogeneous upper bound; in both cases the violation is reported with the
    offending values and the object is the one the setter was called on.  In
    every other case the setter returns, with the arguments stored. *)
Theorem setters_exit_iff (s : Cp_d1_ql1b) (w t lo up : ptr real_t)
    (h hlo hup : real_t) :
  (forall r s',
     set_l1 s w h t = Exited r s'
     <-> w = None /\ (h <? ZERO)%re = true /\ r = NegativeHomoL1 h /\ s' = s)
  /\ (forall s',
        set_l1 s w h t = Returned s'
        <-> ~ (w = None /\ (h <? ZERO)%re = true)
            /\ s' = with_l1 s {| l1_weights := w; homo_l1_weight := h; Yl1 := t |})
  /\ (forall r s',
        set_bounds s lo hlo up hup = Exited r s'
        <-> lo = None /\ up = None /\ (hlo >? hup)%re = true
            /\ r = LowerAboveUpper hlo hup /\ s' = s)
  /\ (forall s',
        set_bounds s lo hlo up hup = Returned s'
        <-> ~ (lo = None /\ up = None /\ (hlo >? hup)%re = true)
            /\ s' = with_bnd s {| low_bnd := lo; homo_low_bnd := hlo;
                                  upp_bnd := up; homo_upp_bnd := hup |}).
Proof.
  unfold set_l1, set_bounds.
  split; [|split; [|split]]; intros; split.
  all: try (destruct w, (h <? ZERO)%re; simpl; intros Hx;
            solve [ inversion Hx; intuition congruence
                  | intuition congruence ]).
  all: destruct lo, up, (hlo >? hup)%re; simpl; intros Hx;
       solve [ inversion Hx; intuition congruence
             | intuition congruence ].
Qed.

Lemma IS_ATA_DIAG : IS_ATA DIAG_ATA = true.
Proof. unfold IS_ATA. by rewrite Z.eqb_refl, orb_true_r. Qed.

Lemma IS_ATA_FULL : IS_ATA FULL_ATA = true.
Proof. unfold IS_ATA. by rewrite Z.eqb_refl. Qed.

Lemma malloc_check_fresh (h : gmap nat block) (bytes : Z) (junk : array real_t) :
  let '(h', p) := malloc_check h bytes junk in
  (p ∉ dom h) /\ h' !! p = Some {| blk_bytes := bytes; blk_cells := junk |}.
Proof.
  unfold malloc_check. split; [apply is_fresh|]. by rewrite lookup_insert_eq.
Qed.


End Configuration.

(* ------------------------------------------------------------------------- *)
(** ** solve_univertex_problem *)

Section Univertex.
Context {RT : RealT} {IT : IntT} {CO : Collaborators}.

Lemma big_sum_empty (lo hi : nat) (f : nat -> real_t) :
  hi <= lo -> big_sum lo hi f = ZERO.
Proof. intros Hle. unfold big_sum. by rewrite range_empty. Qed.

Lemma big_sum_S (lo hi : nat) (f : nat -> real_t) :
  lo <= hi -> big_sum lo (S hi) f = (big_sum lo hi f + f hi)%re.
Proof.
  intros Hle. unfold big_sum, rsum. rewrite range_S, map_app by done.
  simpl. by rewrite foldl_snoc.
Qed.

Lemma big_sum_ext (lo hi : nat) (f g : nat -> real_t) :
  (forall i, lo <= i < hi -> f i = g i) -> big_sum lo hi f = big_sum lo hi g.
Proof.
  intros Hfg. unfold big_sum. f_equal. apply map_ext_in.
  intros i Hi. apply Hfg, elem_of_range. by apply list_elem_of_In.
Qed.

(** An accumulation loop adds the terms to what the accumulator held. *)
Lemma sum_loop_from (lo hi : nat) (f : nat -> real_t) (acc : real_t) :
  sum_loop lo hi f acc = foldl radd acc (map f (range lo hi)).
Proof.
  unfold sum_loop, for_loop. revert acc.
  induction (range lo hi) as [|i l IH]; intros acc; [done|]. simpl. apply IH.
Qed.

Lemma sum_loop_big_sum (lo hi : nat) (f : nat -> real_t) :
  sum_loop lo hi f ZERO = big_sum lo hi f.
Proof. apply sum_loop_from. Qed.

Lemma upd_eq {T} (b : array T) (i : nat) (x : T) : upd b i x i = x.
Proof. unfold upd. by rewrite decide_True. Qed.

Lemma upd_ne {T} (b : array T) (i j : nat) (x : T) : j <> i -> upd b i x j = b j.
Proof. intros Hne. unfold upd. by rewrite decide_False. Qed.

(** Lines 113-122 compute [A 1]. *)
Lemma sum_columns_spec (Ab : array real_t) (Nn Vn : nat) (junk : array real_t) :
  exists rA, sum_columns (Some Ab) Nn Vn junk = Some rA
             /\ forall n, n < Nn -> rA n = A_ones Ab Nn Vn n.
Proof.
  unfold sum_columns.
  apply (for_loopM_invariant
           (fun k rA => forall n, n < k -> rA n = A_ones Ab Nn Vn n)); [lia| |].
  { intros n Hn. lia. }
  intros n rA Hn Hinv.
  destruct (for_loopM_invariant
              (fun v (st : array real_t * nat) =>
                 st.2 = (n + Nn * v)%nat
                 /\ st.1 n = big_sum 0 v (fun v => Ab (n + Nn * v)%nat)
                 /\ forall m, m <> n -> st.1 m = rA m)
              0 Vn
              (fun _ '(rA, i) =>
                 x ← load (Some Ab) i;
                 Some (upd rA n (rA n + x)%re, (i + Nn)%nat))
              (upd rA n ZERO, n)) as (st & Hst & Hi & Hsum & Hother).
  - lia.
  - simpl. split; [lia|]. split; [by rewrite upd_eq, big_sum_empty|].
    intros m Hm. by rewrite upd_ne.
  - intros v [rA' i] Hv (Hi & Hsum & Hother). simpl in *. eexists. split; [done|].
    simpl. split; [lia|]. split.
    + rewrite upd_eq, big_sum_S, Hsum, Hi by lia. done.
    + intros m Hm. rewrite upd_ne by done. by apply Hother.
  - rewrite Hst. simpl. eexists. split; [done|].
    intros m Hm. destruct (decide (m = n)) as [->|Hne].
    + by rewrite Hsum.
    + rewrite Hother by done. apply Hinv. lia.
Qed.

Lemma inner_ext (x x' y y' : array real_t) (n : nat) :
  (forall i, i < n -> x i = x' i) -> (forall i, i < n -> y i = y' i) ->
  inner x y n = inner x' y' n.
Proof.
  intros Hx Hy. apply big_sum_ext. intros i Hi. rewrite Hx, Hy by lia. done.
Qed.

Lemma pair_loop_inner (rA Yb : array real_t) (Nn : nat) :
  for_loop 0 Nn (fun n '(y, aa) =>
    ((y + rA n * Yb n)%re, (aa + rA n * rA n)%re)) (ZERO, ZERO)
  = (inner rA Yb Nn, inner rA rA Nn).
Proof.
  apply (for_loop_invariant
           (fun n (st : real_t * real_t) => st = (inner rA Yb n, inner rA rA n)));
    [lia| |].
  - unfold inner. by rewrite !big_sum_empty.
  - intros n [y aa] Hn [= -> ->]. unfold inner. by rewrite !big_sum_S by lia.
Qed.

(** Lines 136-141 add up the entries of the [Vn]-by-[Vn] matrix. *)
Lemma sum_entries_spec (Ab : array real_t) (Vn : nat) :
  for_loopM 0 Vn (fun u aa =>
    for_loopM 0 Vn (fun v aa =>
      x ← load (Some Ab) (Vn * u + v)%nat; Some (aa + x)%re) aa) ZERO
  = Some (big_sum 0 (Vn * Vn) Ab).
Proof.
  destruct (for_loopM_invariant
              (fun u aa => aa = big_sum 0 (Vn * u) Ab) 0 Vn
              (fun u aa =>
                 for_loopM 0 Vn (fun v aa =>
                   x ← load (Some Ab) (Vn * u + v)%nat; Some (aa + x)%re) aa)
              ZERO) as (aa & Haa & ->); [lia| | |done].
  - by rewrite big_sum_empty by lia.
  - intros u aa Hu ->.
    destruct (for_loopM_invariant
                (fun v aa => aa = big_sum 0 (Vn * u + v) Ab) 0 Vn
                (fun v aa =>
                   x ← load (Some Ab) (Vn * u + v)%nat; Some (aa + x)%re)
                (big_sum 0 (Vn * u) Ab)) as (aa & Haa & ->); [lia| | |].
    + f_equal. lia.
    + intros v aa Hv ->. simpl. eexists. split; [done|].
      replace (Vn * u + S v) with (S (Vn * u + v)) by lia.
      by rewrite big_sum_S by lia.
    + exists (big_sum 0 (Vn * u + Vn) Ab). split; [done|]. f_equal. lia.
Qed.


Lemma univertex_quadratic_spec (s : Cp_d1_ql1b) (junk : array real_t) :
  pointers_ok s ->
  exists rA, univertex_quadratic s junk = Some (quadratic_y s, quadratic_aa s, rA).
Proof.
  intros [Hdirect Hfull]. unfold univertex_quadratic, quadratic_y, quadratic_aa.
  destruct (IS_ATA (N (quad s))) eqn:Hata; simpl.
  - destruct (negb (is_null (A (quad s))) || truthy (a (quad s))) eqn:HAa;
      [|by eexists].
    destruct (N (quad s) =? FULL_ATA)%Z eqn:HN.
    + apply Z.eqb_eq in HN. destruct (Hfull HN) as [Ab HA]. rewrite HA.
      rewrite sum_entries_spec. simpl. eexists.
      by destruct (Y (quad s)); rewrite ?sum_loop_big_sum.
    + destruct (A (quad s)) as [Ab|]; simpl; eexists;
        by destruct (Y (quad s)); rewrite ?sum_loop_big_sum.
  - destruct (Hdirect eq_refl) as [[Ab HA] _]. rewrite HA.
    destruct (sum_columns_spec Ab (Z.to_nat (N (quad s))) (V (gr s)) junk)
      as (rA & -> & HrA).
    simpl. rewrite pair_loop_inner. exists rA. do 3 f_equal.
    + by apply inner_ext.
    + by apply inner_ext.
Qed.

Lemma univertex_l1_spec (s : Cp_d1_ql1b) :
  (univertex_l1 s).1 = (l1_median s, total_l1_weight s).
Proof.
  unfold univertex_l1, l1_median, total_l1_weight.
  destruct (l1_weights (l1 s)) as [w|], (Yl1 (l1 s)) as [t|];
    rewrite ?sum_loop_big_sum; try done.
  - by destruct (wth_element _ _ _ _ _ _).
  - destruct (truthy _); [|done]. by destruct (nth_element_idx _ _ _ _ _).
  - by destruct (truthy _).
Qed.

(** The residual loop of lines 199-203 returns when [R] points to a block. *)
Lemma residual_loop_returns (s : Cp_d1_ql1b) (n : nat)
    (f : nat -> Cp_d1_ql1b -> real_t) :
  (exists p, R (quad s) = Some p /\ is_Some (heap s !! p)) ->
  exists s', for_loopM 0 n (fun k s' => store_R s' k (f k s')) s = Some s'.
Proof.
  intros Hp.
  destruct (for_loopM_invariant
              (fun _ s' => exists p, R (quad s') = Some p /\ is_Some (heap s' !! p))
              0 n (fun k s' => store_R s' k (f k s')) s) as (s' & Hs' & _);
    [lia|done| |by exists s'].
  intros k s' _ (p & HR & [b Hb]). unfold store_R. rewrite HR. simpl.
  rewrite Hb. simpl. eexists. split; [done|]. simpl. exists p. split; [done|].
  by rewrite lookup_insert_eq.
Qed.

Context {RL : RealLaws}.

(** A running maximum is the greatest of the start value and the values it
    has seen. *)
Lemma running_max_spec (f : array real_t) (l : list nat) (start : real_t) :
  is_max_of start (foldl (fun m v => if (m <? f v)%re then f v else m) start l) f l.
Proof.
  induction l as [|v l IH] using rev_ind.
  - simpl. repeat split; [intros v Hv; by apply elem_of_nil in Hv| |by left].
    apply rltb_irrefl.
  - rewrite foldl_snoc. destruct IH as (Hub & Hstart & Hatt).
    set (m := foldl _ start l) in *.
    destruct (m <? f v)%re eqn:Hlt; repeat split.
    + intros u [Hu| ->%list_elem_of_singleton]%elem_of_app; [|apply rltb_irrefl].
      destruct (f v <? f u)%re eqn:Hvu; [|done].
      pose proof (rltb_trans _ _ _ Hlt Hvu). pose proof (Hub u Hu). congruence.
    + destruct (f v <? start)%re eqn:Hvs; [|done].
      by rewrite (rltb_trans _ _ _ Hlt Hvs) in Hstart.
    + right. exists v. split; [|done]. apply elem_of_app. right. by left.
    + intros u [Hu| ->%list_elem_of_singleton]%elem_of_app; [by apply Hub|done].
    + done.
    + destruct Hatt as [->|(u & Hu & ->)]; [by left|].
      right. exists u. split; [|done]. apply elem_of_app. by left.
Qed.

Lemma running_min_spec (f : array real_t) (l : list nat) (start : real_t) :
  is_min_of start (foldl (fun m v => if (m >? f v)%re then f v else m) start l) f l.
Proof.
  induction l as [|v l IH] using rev_ind.
  - simpl. repeat split; [intros v Hv; by apply elem_of_nil in Hv| |by left].
    apply rltb_irrefl.
  - rewrite foldl_snoc. destruct IH as (Hub & Hstart & Hatt).
    set (m := foldl _ start l) in *.
    destruct (m >? f v)%re eqn:Hlt; repeat split.
    + intros u [Hu| ->%list_elem_of_singleton]%elem_of_app; [|apply rltb_irrefl].
      destruct (f v >? f u)%re eqn:Hvu; [|done].
      pose proof (rltb_trans _ _ _ Hvu Hlt). pose proof (Hub u Hu). congruence.
    + destruct (f v >? start)%re eqn:Hvs; [|done].
      by rewrite (rltb_trans _ _ _ Hvs Hlt) in Hstart.
    + right. exists v. split; [|done]. apply elem_of_app. right. by left.
    + intros u [Hu| ->%list_elem_of_singleton]%elem_of_app; [by apply Hub|done].
    + done.
    + destruct Hatt as [->|(u & Hu & ->)]; [by left|].
      right. exists u. split; [|done]. apply elem_of_app. by left.
Qed.

(** With [low <= upp], clamping returns the bound that [x] violates, and a
    value of [[low, upp]]. *)
Lemma clamp_consistent (low upp x : real_t) :
  (upp <? low)%re = false ->
  ((x <? low)%re = true -> clamp low upp x = low)
  /\ ((x >? upp)%re = true -> clamp low upp x = upp)
  /\ (clamp low upp x <? low)%re = false
  /\ (clamp low upp x >? upp)%re = false.
Proof.
  intros Hcons. unfold clamp.
  destruct (x <? low)%re eqn:Hlow.
  - rewrite Hcons. repeat split; try done; [|apply rltb_irrefl].
    intros Hupp. by rewrite (rltb_trans _ _ _ Hupp Hlow) in Hcons.
  - destruct (x >? upp)%re eqn:Hupp; repeat split; try done; apply rltb_irrefl.
Qed.


(** C1 (amended).  When the unchecked pointers are valid,
    [solve_univertex_problem] returns the soft-threshold closed form of
    [y = <A 1, Y>], [aa = ||A 1||^2], the total l1 weight and the median,
    clamped from below by the greatest per-vertex lower bound and then from
    above by the least per-vertex upper bound (the homogeneous bounds without
    arrays).  When that lower bound does not exceed that upper bound, the
    result lies between them and, if the unconstrained optimum violates one
    of them, it is that bound. *)
Theorem solve_univertex_closed_form (s : Cp_d1_ql1b) (junk : array real_t) :
  pointers_ok s ->
  let x := soft_threshold (quadratic_y s) (quadratic_aa s)
             (total_l1_weight s) (l1_median s) in
  let low := univertex_low s in
  let upp := univertex_upp s in
  (exists s', solve_univertex_problem s junk = Some (clamp low upp x, s'))
  /\ match low_bnd (bnd s) with
     | Some lb => is_max_of (- INF_REAL)%re low lb (range 0 (V (gr s)))
     | None => low = homo_low_bnd (bnd s)
     end
  /\ match upp_bnd (bnd s) with
     | Some ub => is_min_of INF_REAL upp ub (range 0 (V (gr s)))
     | None => upp = homo_upp_bnd (bnd s)
     end
  /\ ((upp <? low)%re = false ->
      ((x <? low)%re = true -> clamp low upp x = low)
      /\ ((x >? upp)%re = true -> clamp low upp x = upp)
      /\ (clamp low upp x <? low)%re = false
      /\ (clamp low upp x >? upp)%re = false).
Proof.
  intros Hok x low upp. split; [|split; [|split]].
  - unfold solve_univertex_problem.
    destruct (univertex_quadratic_spec s junk Hok) as (rA & ->). simpl.
    pose proof (univertex_l1_spec s) as Hl1.
    destruct (univertex_l1 s) as [[yl1 wl1] p]. simpl in Hl1.
    injection Hl1 as -> ->.
    change (univertex_threshold (quadratic_y s) (quadratic_aa s)
              (total_l1_weight s) (l1_median s)) with x.
    fold low upp. fold (clamp low upp x).
    destruct (IS_ATA (N (quad s))) eqn:Hata; simpl; [by eexists|].
    destruct Hok as [Hdirect _]. destruct (Hdirect Hata) as [_ HR].
    destruct (residual_loop_returns (with_part s p) (Z.to_nat (N (quad s)))
                (fun n s' => (Y_ (quad s') n - rA n * clamp low upp x)%re) HR)
      as (s' & Hs').
    exists s'. by rewrite Hs'.
  - subst low. unfold univertex_low. destruct (low_bnd (bnd s)); [|done].
    apply running_max_spec.
  - subst upp. unfold univertex_upp. destruct (upp_bnd (bnd s)); [|done].
    apply running_min_spec.
  - apply clamp_consistent.
Qed.

End Univertex.

Lemma ex_direct_pointers_ok : pointers_ok ex_direct.
Proof.
  split.
  - intros _. split; [by eexists|]. exists 0. split; [done|]. by eexists.
  - intros Hfull. vm_compute in Hfull. done.
Qed.

Lemma solve_univertex_closed_form_witness :
  pointers_ok ex_direct
  /\ exists s',
       solve_univertex_problem ex_direct (fun _ => ZERO)
       = Some (clamp (univertex_low ex_direct) (univertex_upp ex_direct)
                 (soft_threshold (quadratic_y ex_direct)
                    (quadratic_aa ex_direct) (total_l1_weight ex_direct)
                    (l1_median ex_direct)), s').
Proof.
  split; [exact ex_direct_pointers_ok|].
  exact (proj1 (solve_univertex_closed_form ex_direct (fun _ => ZERO)
                  ex_direct_pointers_ok)).
Defined.

(** On [ex_direct]: [A 1 = (4, 6)], [y = 10], [aa = 52], and the solution is
    [10/52]. *)
Example univertex_direct :
  (r ← solve_univertex_problem ex_direct (fun _ => ZERO);
   Some (r.1 =? of_Q (5 # 26))%re) = Some true.
Proof. vm_compute. reflexivity. Qed.

(** The spec's pure quadratic test: identity operator, no l1 term, no
    bounds; on the observations [1, 2, 3, 6] the result is their mean [3]. *)
Example univertex_mean :
  (r ← solve_univertex_problem
         (set_quadratic ex_path (Some (xarray [1%Z; 2%Z; 3%Z; 6%Z])) DIAG_ATA
            None ONE (fun _ => ZERO)) (fun _ => ZERO);
   Some (r.1 =? xint 3)%re) = Some true.
Proof. vm_compute. reflexivity. Qed.

(** The spec's l1-only test: identity operator, one vertex, [Y = [5]],
    weight [2], target [0]; the result is [3]. *)
Example univertex_l1_only :
  (x ← solve_univertex_problem ex_l1_only (fun _ => ZERO); Some (x.1 =? xint 3)%re)
  = Some true.
Proof. vm_compute. reflexivity. Qed.

(** C1, as stated, fails on [ex_bad_bounds], which [set_bounds] accepts: the
    unconstrained optimum [1] violates the lower bound [5] only, and the
    result is the upper bound [3]. *)
Lemma univertex_bounds_counterexample :
  let s := ex_bad_bounds in
  let x := soft_threshold (quadratic_y s) (quadratic_aa s)
             (total_l1_weight s) (l1_median s) in
  set_bounds (set_quadratic ex_one_vertex (Some (xarray [1%Z])) DIAG_ATA None ONE
                (fun _ => ZERO))
    (Some (xarray [5%Z])) (- INF_REAL)%re (Some (xarray [3%Z])) INF_REAL
  = Returned s
  /\ (x =? xint 1)%re = true
  /\ univertex_low s = xint 5
  /\ univertex_upp s = xint 3
  /\ (x <? univertex_low s)%re = true
  /\ (x >? univertex_upp s)%re = false
  /\ (r ← solve_univertex_problem s (fun _ => ZERO); Some r.1) = Some (xint 3).
Proof. vm_compute. repeat split. Qed.

(* ------------------------------------------------------------------------- *)
(** ** solve_reduced_problem *)

Section Reduced.
Context {RT : RealT} {IT : IntT} {CO : Collaborators}.

Lemma for_each_fault_at_head {S} (i : nat) (l : list nat)
    (body : nat -> S -> option S) (s : S) :
  body i s = None -> for_each (i :: l) body s = None.
Proof. intros Hb. simpl. by rewrite Hb. Qed.

(** Written through a null pointer, lines 411-420 fault. *)
Lemma reduce_upp_null (s : Cp_d1_ql1b) (rv : nat) (p : partition) :
  is_Some (upp_bnd (bnd s)) -> reduce_upp s rv p None = None.
Proof. intros [ub Hub]. unfold reduce_upp. by rewrite Hub. Qed.

(** With an array of upper bounds and at least one vertex and one component,
    the loop of lines 353-422 faults in its first iteration: nothing is handed
    to the delegated solver. *)
Lemma reduce_l1_bounds_faults (s : Cp_d1_ql1b)
    (junk_w junk_y junk_low junk_upp : array real_t) :
  is_Some (upp_bnd (bnd s)) -> 0 < V (gr s) -> 0 < rV (part s) ->
  pfdr_l1b_arguments s junk_w junk_y junk_low junk_upp = None.
Proof.
  intros Hupp HV HrV. unfold pfdr_l1b_arguments, reduce_l1_bounds.
  destruct Hupp as [ub Hub]. rewrite Hub. simpl.
  destruct (_ =? 0)%nat eqn:Hops; [apply Nat.eqb_eq in Hops; lia|].
  unfold for_loopM, range. replace (rV (part s) - 0) with (S (pred (rV (part s))))
    by lia.
  simpl. destruct (reduce_l1 _ _ _) as [st|]; simpl; [|done].
  destruct (reduce_low _ _ _ _) as [rlow|]; simpl; [|done].
  by rewrite reduce_upp_null by (by rewrite Hub).
Qed.

(** Lines 400-409 leave in cell [rv] the greatest lower bound of the members
    of component [rv], and the other cells as they were. *)
Lemma reduce_low_spec {RL : RealLaws} (s : Cp_d1_ql1b) (rv : nat) (p : partition)
    (lb b : array real_t) :
  low_bnd (bnd s) = Some lb ->
  exists b', reduce_low s rv p (Some b) = Some (Some b')
             /\ is_max_of (- INF_REAL)%re (b' rv) lb (members p rv)
             /\ forall rv', rv' <> rv -> b' rv' = b rv'.
Proof.
  intros Hlb. unfold reduce_low. rewrite Hlb. simpl.
  set (lo := first_vertex p rv). set (hi := first_vertex p (rv + 1)).
  set (step := fun m v => if (m <? lb v)%re then lb v else m).
  assert (Hloop : forall k, lo <= k ->
    exists b', for_loopM lo k (fun v r =>
                 cur ← load r rv;
                 if (cur <? lb (comp_list p v))%re
                 then store r rv (lb (comp_list p v)) else Some r)
                 (Some (upd b rv (- INF_REAL)%re)) = Some (Some b')
               /\ b' rv = foldl step (- INF_REAL)%re (map (comp_list p) (range lo k))
               /\ forall rv', rv' <> rv -> b' rv' = b rv').
  { intros k Hk.
    destruct (for_loopM_invariant
      (fun k (r : ptr real_t) => exists b', r = Some b'
         /\ b' rv = foldl step (- INF_REAL)%re (map (comp_list p) (range lo k))
         /\ forall rv', rv' <> rv -> b' rv' = b rv')
      lo k (fun v r =>
              cur ← load r rv;
              if (cur <? lb (comp_list p v))%re
              then store r rv (lb (comp_list p v)) else Some r)
      (Some (upd b rv (- INF_REAL)%re))) as (r & Hr & b' & -> & Hb'); [done| | |].
    - eexists. split; [done|]. rewrite range_empty by lia. simpl.
      split; [by rewrite upd_eq|]. intros rv' Hne. by rewrite upd_ne.
    - intros v r Hv (b' & -> & Hval & Hother). simpl.
      rewrite range_S, map_app by lia. simpl. rewrite foldl_snoc. rewrite <- Hval.
      unfold step at 1.
      destruct (b' rv <? lb (comp_list p v))%re; simpl; eexists; split; try done.
      + eexists. split; [done|]. split; [by rewrite upd_eq|].
        intros rv' Hne. rewrite upd_ne by done. by apply Hother.
      + eexists. done.
    - exists b'. done. }
  destruct (decide (lo <= hi)) as [Hle|Hgt].
  - destruct (Hloop hi Hle) as (b' & Hb' & Hval & Hother).
    exists b'. split; [done|]. split; [|done].
    rewrite Hval. apply running_max_spec.
  - rewrite for_loopM_empty by lia. eexists. split; [done|].
    unfold members. fold lo hi. rewrite range_empty by lia. simpl.
    rewrite upd_eq. split; [|intros rv' Hne; by rewrite upd_ne].
    repeat split; [intros v Hv; by apply elem_of_nil in Hv| |by left].
    apply rltb_irrefl.
Qed.


(** Products and quotient of line 224 are the exact ones when nothing wraps. *)
Lemma threshold_no_wrap (n it M : Z) :
  (0 < M -> 0 <= n -> 0 <= it -> 2 * n * it < M ->
   (((2 * n) mod M) * (it mod M)) mod M / ((n + it mod M) mod M)
   = 2 * n * it / (n + it))%Z.
Proof.
  intros HM Hn Hit Hsmall.
  destruct (Z.eq_dec n 0%Z) as [->|Hn0].
  { change (2 * 0)%Z with 0%Z. rewrite !Zmod_0_l, !Z.mul_0_l.
    by rewrite !Zdiv_0_l. }
  destruct (Z.eq_dec it 0%Z) as [->|Hit0].
  { rewrite !Zmod_0_l, !Z.mul_0_r, !Zmod_0_l. by rewrite !Zdiv_0_l. }
  assert (it < M)%Z by nia. assert (2 * n < M)%Z by nia.
  assert (n + it < M)%Z by nia.
  rewrite (Z.mod_small it), (Z.mod_small (2 * n)), (Z.mod_small (2 * n * it)),
    (Z.mod_small (n + it)) by lia.
  reflexivity.
Qed.

(** The test of line 224 returns unless it divides by zero. *)
Lemma premultiply_test_returns (s : Cp_d1_ql1b) (rN0 : Z) :
  wrap size_bits (N (quad s) + wrap size_bits (pfdr_it (pfdr s))) <> 0%Z ->
  premultiply_test s rN0
  = Some (negb (IS_ATA rN0)
          && (Z.of_nat (rV (part s)) <? premultiply_threshold s)%Z).
Proof.
  intros Hden. unfold premultiply_test, premultiply_threshold.
  destruct (IS_ATA rN0); [done|]. simpl.
  by destruct (Z.eqb_spec (wrap size_bits (N (quad s)
                 + wrap size_bits (pfdr_it (pfdr s)))) 0).
Qed.

(** C3 (amended).  In the direct matricial form, and when the divisor is not
    zero, the reduced operator is premultiplied only if
    [rV < (2 N it) / (N + it)], quotient and products in [size_t], where [it]
    is [pfdr_it], the iteration count recorded by the previous solve; it is
    premultiplied whenever that holds and the value that the guard
    [!IS_ATA(rN)] reads is no sentinel.  Premultiplied, the shape given to the
    delegated solver is [FULL_ATA], with [rV * rV] cells when an operator is
    set; otherwise it is [N], without premultiplied cells.  Without
    wrap-around the quotient is the rounded-down [2 N it / (N + it)]. *)
Theorem reduced_shape_rule (s : Cp_d1_ql1b) (rN0 : Z) :
  IS_ATA (N (quad s)) = false ->
  wrap size_bits (N (quad s) + wrap size_bits (pfdr_it (pfdr s))) <> 0%Z ->
  exists r,
    choose_reduced_shape s rN0 = Some r
    /\ (IS_ATA (rN r) = true ->
        (Z.of_nat (rV (part s)) < premultiply_threshold s)%Z)
    /\ (IS_ATA rN0 = false ->
        (IS_ATA (rN r) = true
         <-> (Z.of_nat (rV (part s)) < premultiply_threshold s)%Z))
    /\ (IS_ATA (rN r) = true ->
        pfdr_quadratic_shape s r = FULL_ATA
        /\ (negb (is_null (A (quad s))) || truthy (a (quad s)) = true ->
            rAA_cells r = Some (rV (part s) * rV (part s))))
    /\ (IS_ATA (rN r) = false ->
        pfdr_quadratic_shape s r = N (quad s) /\ rAA_cells r = None)
    /\ ((0 <= N (quad s))%Z -> (0 <= pfdr_it (pfdr s))%Z ->
        (2 * N (quad s) * pfdr_it (pfdr s) < 2 ^ size_bits)%Z ->
        premultiply_threshold s
        = (2 * N (quad s) * pfdr_it (pfdr s)
           / (N (quad s) + pfdr_it (pfdr s)))%Z).
Proof.
  intros Hdirect Hden. unfold choose_reduced_shape.
  rewrite (premultiply_test_returns s rN0 Hden). simpl.
  assert (Hdiag : (N (quad s) =? DIAG_ATA)%Z = false).
  { unfold IS_ATA in Hdirect. by apply orb_false_elim in Hdirect as [_ ?]. }
  set (t := premultiply_threshold s) in *.
  assert (Hnowrap : (0 <= N (quad s))%Z -> (0 <= pfdr_it (pfdr s))%Z ->
            (2 * N (quad s) * pfdr_it (pfdr s) < 2 ^ size_bits)%Z ->
            t = (2 * N (quad s) * pfdr_it (pfdr s)
                 / (N (quad s) + pfdr_it (pfdr s)))%Z).
  { intros HN Hit Hsmall. subst t. unfold premultiply_threshold, wrap.
    by apply threshold_no_wrap. }
  destruct (IS_ATA rN0) eqn:HrN0; simpl.
  - rewrite Hdirect. eexists. split; [done|]. simpl.
    unfold pfdr_quadratic_shape. simpl. rewrite Hdirect.
    repeat split; try done; congruence.
  - destruct (Z.ltb_spec (Z.of_nat (rV (part s))) t) as [Hlt|Hge].
    + rewrite IS_ATA_FULL, Hdiag.
      destruct (negb (is_null (A (quad s))) || truthy (a (quad s))) eqn:HAa;
        eexists; (split; [done|]); unfold pfdr_quadratic_shape; simpl;
        rewrite IS_ATA_FULL; repeat split; try done; congruence.
    + rewrite Hdirect. eexists. split; [done|]. simpl.
      unfold pfdr_quadratic_shape. simpl. rewrite Hdirect.
      repeat split; try done; try congruence; lia.
Qed.

End Reduced.

(** What the guard of line 224 does when the value it reads is a sentinel:
    the direct form is kept, whatever the test of the rule says. *)
Lemma premultiply_guard_sentinel {RT : RealT} {IT : IntT} (s : Cp_d1_ql1b)
    (rN0 : Z) :
  IS_ATA rN0 = true -> IS_ATA (N (quad s)) = false ->
  choose_reduced_shape s rN0
  = Some {| rN := N (quad s); rY_cells := None; rAA_cells := None |}.
Proof.
  intros HrN0 Hdirect. unfold choose_reduced_shape, premultiply_test.
  rewrite HrN0. simpl. by rewrite Hdirect.
Qed.

Lemma reduced_shape_rule_witness :
  IS_ATA (N (quad ex_five_components)) = false
  /\ wrap size_bits (N (quad ex_five_components)
                     + wrap size_bits (pfdr_it (pfdr ex_five_components))) <> 0%Z
  /\ exists r, choose_reduced_shape ex_five_components 7 = Some r
               /\ (IS_ATA (rN r) = true ->
                   (Z.of_nat (rV (part ex_five_components))
                    < premultiply_threshold ex_five_components)%Z).
Proof.
  assert (Hd : IS_ATA (N (quad ex_five_components)) = false) by reflexivity.
  assert (Hz : wrap size_bits (N (quad ex_five_components)
                 + wrap size_bits (pfdr_it (pfdr ex_five_components))) <> 0%Z)
    by (vm_compute; discriminate).
  split; [exact Hd|]. split; [exact Hz|].
  destruct (reduced_shape_rule ex_five_components 7 Hd Hz) as (r & Hr & Honly & _).
  exists r. split; [exact Hr|exact Honly].
Defined.

(** C3, as stated, fails.  On [ex_five_components], freshly configured
    ([N = 3], [rV = 5], [pfdr_it = pfdr_it_max = 10000]), the stated rule holds
    over the reals ([5 < 60000 / 10003]) and the code keeps the direct form
    ([60000 / 10003] is [5] in [size_t]).  On [ex_after_solve] ([N = 10],
    [rV = 5], [pfdr_it = 3], cap [10000]) the stated rule holds, rounded or
    not, and the code keeps the direct form.  The guard read [7], which is no
    sentinel. *)
Lemma reduced_shape_counterexample :
  (spec_premultiply_rule ex_five_components
   /\ IS_ATA 7 = false
   /\ choose_reduced_shape ex_five_components 7
      = Some {| rN := 3; rY_cells := None; rAA_cells := None |}
   /\ IS_ATA 3 = false)
  /\ (spec_premultiply_rule ex_after_solve
      /\ spec_premultiply_rule_rounded ex_after_solve
      /\ choose_reduced_shape ex_after_solve 7
         = Some {| rN := 10; rY_cells := None; rAA_cells := None |}
      /\ IS_ATA 10 = false).
Proof.
  unfold spec_premultiply_rule, spec_premultiply_rule_rounded.
  repeat split; try reflexivity.
Qed.

(** C2: the code faults where the claim has it hand over the reduced bounds.
    On [ex_array_bounds] (components [{0, 1}] and [{2}], lower bounds
    [1, 2, 0], upper bounds [5, 4, 6]) nothing reaches the delegated solver;
    with the lower bounds alone ([ex_low_bounds]) it is handed the reduced
    lower bounds [2] and [0]. *)
Theorem reduced_upper_bounds_fault :
  pfdr_l1b_arguments ex_array_bounds (fun _ => ZERO) (fun _ => ZERO)
    (fun _ => ZERO) (fun _ => ZERO) = None
  /\ (args ← pfdr_l1b_arguments ex_low_bounds (fun _ => ZERO) (fun _ => ZERO)
               (fun _ => ZERO) (fun _ => ZERO);
      low ← arg_low_bnd args;
      Some (low 0, low 1, is_null (arg_upp_bnd args)))
     = Some (xint 2, xint 0, true).
Proof. split; vm_compute; reflexivity. Qed.

Section ReducedLower.
Context {RT : RealT} {IT : IntT} {CO : Collaborators} {RL : RealLaws}.

(** Without l1 term, lines 355-399 do nothing. *)
Lemma reduce_l1_none (s : Cp_d1_ql1b) (rv : nat) (st : reduced_l1b) :
  l1_weights (l1 s) = None -> truthy (homo_l1_weight (l1 s)) = false ->
  reduce_l1 s rv st = Some st.
Proof. intros Hw Hh. unfold reduce_l1. by rewrite Hw, Hh. Qed.

(** With an array of lower bounds, no array of upper bounds and no l1 term,
    [solve_reduced_problem] hands the delegated solver, for every component,
    the greatest lower bound of its members, and the homogeneous bounds. *)
Theorem reduced_lower_bounds_max (s : Cp_d1_ql1b)
    (junk_w junk_y junk_low junk_upp lb : array real_t) :
  low_bnd (bnd s) = Some lb -> upp_bnd (bnd s) = None ->
  l1_weights (l1 s) = None -> truthy (homo_l1_weight (l1 s)) = false ->
  0 < V (gr s) ->
  exists args low,
    pfdr_l1b_arguments s junk_w junk_y junk_low junk_upp = Some args
    /\ arg_low_bnd args = Some low
    /\ arg_upp_bnd args = None
    /\ arg_homo_low_bnd args = homo_low_bnd (bnd s)
    /\ arg_homo_upp_bnd args = homo_upp_bnd (bnd s)
    /\ forall rv, rv < rV (part s) ->
         is_max_of (- INF_REAL)%re (low rv) lb (members (part s) rv).
Proof.
  intros Hlow Hupp Hw Hh HV. unfold pfdr_l1b_arguments, reduce_l1_bounds.
  rewrite Hlow, Hupp, Hw, Hh. simpl.
  destruct (_ =? 0)%nat eqn:Hops; [apply Nat.eqb_eq in Hops; lia|].
  set (st0 := {| rl1_weights := None; rYl1 := _; rlow_bnd := Some junk_low;
                 rupp_bnd := None; rpart := part s |}).
  destruct (for_loopM_invariant
    (fun k st => exists low,
       rlow_bnd st = Some low /\ rupp_bnd st = None /\ rpart st = part s
       /\ forall rv, rv < k ->
            is_max_of (- INF_REAL)%re (low rv) lb (members (part s) rv))
    0 (rV (part s))
    (fun rv st =>
       st ← reduce_l1 s rv st;
       rlow ← reduce_low s rv (rpart st) (rlow_bnd st);
       _ ← reduce_upp s rv (rpart st) None;
       Some {| rl1_weights := rl1_weights st; rYl1 := rYl1 st; rlow_bnd := rlow;
               rupp_bnd := rupp_bnd st; rpart := rpart st |}) st0)
    as (st & Hst & low & Hl & Hu & Hp & Hmax); [lia| | |].
  - exists junk_low. split; [done|]. split; [done|]. split; [done|].
    intros rv' Hrv'. lia.
  - intros rv st _ (low & Hl & Hu & Hp & Hmax).
    rewrite reduce_l1_none by done. simpl. rewrite Hl, Hp.
    destruct (reduce_low_spec s rv (part s) lb low Hlow)
      as (low' & -> & Hmax' & Hother).
    simpl. unfold reduce_upp. rewrite Hupp. simpl.
    eexists. split; [done|]. simpl. exists low'.
    split; [done|]. split; [done|]. split; [done|].
    intros rv' Hrv'. destruct (decide (rv' = rv)) as [->|Hne]; [done|].
    rewrite Hother by done. apply Hmax. lia.
  - rewrite Hst. simpl. exists {|
      arg_l1_weights := rl1_weights st; arg_homo_l1_weight := ZERO;
      arg_Yl1 := rYl1 st; arg_low_bnd := rlow_bnd st;
      arg_homo_low_bnd := homo_low_bnd (bnd s); arg_upp_bnd := rupp_bnd st;
      arg_homo_upp_bnd := homo_upp_bnd (bnd s) |}, low.
    simpl. done.
Qed.

End ReducedLower.

Lemma reduced_lower_bounds_max_witness :
  exists args low,
    pfdr_l1b_arguments ex_low_bounds (fun _ => ZERO) (fun _ => ZERO)
      (fun _ => ZERO) (fun _ => ZERO) = Some args
    /\ arg_low_bnd args = Some low
    /\ forall rv, rv < rV (part ex_low_bounds) ->
         is_max_of (- INF_REAL)%re (low rv) (xarray [1%Z; 2%Z; 0%Z])
           (members (part ex_low_bounds) rv).
Proof.
  destruct (reduced_lower_bounds_max ex_low_bounds (fun _ => ZERO) (fun _ => ZERO)
              (fun _ => ZERO) (fun _ => ZERO) (xarray [1%Z; 2%Z; 0%Z]))
    as (args & low & Hargs & Hl & _ & _ & _ & Hmax);
    try reflexivity; [vm_compute; lia|].
  exists args, low. split; [exact Hargs|]. split; [exact Hl|exact Hmax].
Defined.

(* ------------------------------------------------------------------------- *)
(** ** split *)

Section Split.
Context {RT : RealT} {IT : IntT} {CO : Collaborators}.

Lemma activated_refl (g : graph) : activated g g = ∅.
Proof. unfold activated. set_solver. Qed.

Lemma wrap_range (b x : Z) : (0 <= b)%Z -> (0 <= wrap b x < 2 ^ b)%Z.
Proof. intros Hb. unfold wrap. apply Z.mod_pos_bound. by apply Z.pow_pos_nonneg. Qed.

Lemma pass_spec_start (P : nat -> Prop) (g0 : graph) (c0 : Z) :
  wrap index_bits c0 = c0 -> pass_spec P g0 c0 (g0, c0).
Proof.
  intros Hc. unfold pass_spec. simpl. rewrite activated_refl, size_empty.
  split; [done|]. split; [done|]. split; [|set_solver].
  by rewrite Z.add_0_r.
Qed.

Lemma pass_spec_step (P : nat -> Prop) (g0 : graph) (c0 : Z) (g : graph) (c : Z)
    (e : nat) :
  pass_spec P g0 c0 (g, c) -> is_active g e = false -> P e ->
  pass_spec P g0 c0 (set_active g e, wrap index_bits (c + 1)).
Proof.
  unfold pass_spec. simpl. intros (Hf & Hsub & -> & HP) Hna HPe.
  apply bool_decide_eq_false in Hna.
  assert (Hact : activated g0 (set_active g e) = {[ e ]} ∪ activated g0 g)
    by (unfold activated; simpl; set_solver).
  split; [by rewrite <- Hf|]. split; [set_solver|]. split.
  - rewrite Hact, size_union by (unfold activated; set_solver).
    rewrite size_singleton. unfold wrap.
    rewrite Zplus_mod_idemp_l. f_equal. lia.
  - intros e'. rewrite Hact. intros [->%elem_of_singleton|He']%elem_of_union;
      [done|by apply HP].
Qed.

Lemma activate_cut_edges_spec (P : nat -> Prop) (p : partition) (fl : flow)
    (rv : nat) (g0 : graph) (c0 : Z) :
  wrap index_bits c0 = c0 ->
  (forall i e, first_vertex p rv <= i < first_vertex p (rv + 1) ->
     first_edge g0 (comp_list p i) <= e < first_edge g0 (comp_list p i + 1) ->
     P e) ->
  pass_spec P g0 c0 (activate_cut_edges p fl rv (g0, c0)).
Proof.
  intros Hc HP. unfold activate_cut_edges, for_members.
  set (lo := first_vertex p rv) in *. set (hi := first_vertex p (rv + 1)) in *.
  destruct (decide (lo <= hi)) as [Hle|Hgt];
    [|rewrite for_loop_empty by lia; by apply pass_spec_start].
  apply (for_loop_invariant (fun _ ga => pass_spec P g0 c0 ga)); [done| |].
  { by apply pass_spec_start. }
  intros i ga Hi Hga.
  assert (Hfe : first_edge ga.1 = first_edge g0)
    by (destruct Hga as [Hf _]; exact (f_equal first_edge Hf)).
  rewrite Hfe.
  set (v := comp_list p i) in *.
  set (elo := first_edge g0 v). set (ehi := first_edge g0 (v + 1)).
  destruct (decide (elo <= ehi)) as [Hle'|Hgt'];
    [|by rewrite for_loop_empty by lia].
  apply (for_loop_invariant (fun _ ga => pass_spec P g0 c0 ga)); [done|done|].
  intros e [g c] He Hgc.
  destruct (negb (is_active g e)) eqn:Hact; simpl; [|done].
  destruct (negb (Bool.eqb _ _)); [|done].
  apply pass_spec_step; [done|by apply negb_true_iff|].
  by apply (HP i).
Qed.

(** Two passes in a row add up. *)
Lemma pass_spec_compose (P : nat -> Prop) (g0 g1 : graph) (c1 : Z)
    (ga : graph * Z) :
  pass_spec P g0 0 (g1, c1) -> pass_spec P g1 c1 ga -> pass_spec P g0 0 ga.
Proof.
  unfold pass_spec. simpl.
  intros (Hf1 & Hsub1 & -> & HP1) (Hf2 & Hsub2 & -> & HP2).
  assert (Hact : activated g0 ga.1 = activated g0 g1 ∪ activated g1 ga.1)
    by (unfold activated; apply set_eq; intros e;
        destruct (decide (e ∈ active g1)); set_solver).
  split; [congruence|]. split; [set_solver|]. split.
  - rewrite Hact, size_union by (unfold activated; set_solver).
    unfold wrap. rewrite Zplus_mod_idemp_l. f_equal. lia.
  - intros e. rewrite Hact. intros [He|He]%elem_of_union; auto.
Qed.


(** Processing an unsaturated component: the two passes (or the first one
    only) change the active set, and the saturation flag of the component is
    set from the counter. *)
Lemma split_component_spec (P : nat -> Prop) (grad : array real_t) (rv : nat)
    (st : split_state) :
  let s := sp_obj st in
  is_saturated (part s) rv = false ->
  (forall i e,
     first_vertex (part s) rv <= i < first_vertex (part s) (rv + 1) ->
     first_edge (gr s) (comp_list (part s) i) <= e
       < first_edge (gr s) (comp_list (part s) i + 1) ->
     P e) ->
  exists g' c,
    pass_spec P (gr s) 0 (g', c)
    /\ sp_obj (split_component grad rv st)
       = with_part (with_gr s g') (set_saturation (part s) rv (c =? 0)%Z)
    /\ sp_cuts (split_component grad rv st)
       = sp_cuts st + (if only_d1_nondifferentiable s then 1 else 2).
Proof.
  intros s Hsat HP. unfold split_component. fold s. rewrite Hsat.
  unfold first_cut. fold s.
  set (fl1 := maxflow _ _).
  pose proof (activate_cut_edges_spec P (part s) fl1 rv (gr s) 0
                (Zmod_0_l _) HP) as H1.
  destruct (activate_cut_edges (part s) fl1 rv (gr s, 0%Z)) as [g1 c1].
  change (only_d1_nondifferentiable (sp_obj _))
    with (only_d1_nondifferentiable s).
  destruct (only_d1_nondifferentiable s).
  - exists g1, c1. split; [done|]. simpl. split; [done|lia].
  - unfold second_cut. simpl.
    set (fl2 := maxflow _ _).
    assert (Hc1 : wrap index_bits c1 = c1).
    { destruct H1 as (_ & _ & Hc & _). simpl in Hc. rewrite Hc.
      unfold wrap. apply Zmod_mod. }
    assert (Hfe : first_edge g1 = first_edge (gr s))
      by (destruct H1 as [Hf _]; exact (f_equal first_edge Hf)).
    assert (HP1 : forall i e,
              first_vertex (part s) rv <= i < first_vertex (part s) (rv + 1) ->
              first_edge g1 (comp_list (part s) i) <= e
                < first_edge g1 (comp_list (part s) i + 1) -> P e)
      by (rewrite Hfe; exact HP).
    pose proof (activate_cut_edges_spec P (part s) fl2 rv g1 c1 Hc1 HP1) as H2.
    destruct (activate_cut_edges (part s) fl2 rv (g1, c1)) as [g2 c2].
    exists g2, c2. split; [by apply (pass_spec_compose P _ g1 c1)|].
    simpl. split; [done|lia].
Qed.

(** A saturated component is skipped. *)
Lemma split_component_skip (grad : array real_t) (rv : nat) (st : split_state) :
  is_saturated (part (sp_obj st)) rv = true -> split_component grad rv st = st.
Proof. intros Hsat. unfold split_component. by rewrite Hsat. Qed.

(** In all cases the frame stays, the active set grows and the flags of the
    other components stay. *)
Lemma split_component_frame (grad : array real_t) (rv : nat) (st : split_state) :
  let st' := split_component grad rv st in
  frame (sp_obj st') = frame (sp_obj st)
  /\ active (gr (sp_obj st)) ⊆ active (gr (sp_obj st'))
  /\ forall rv', rv' <> rv ->
       is_saturated (part (sp_obj st')) rv' = is_saturated (part (sp_obj st)) rv'.
Proof.
  intros st'. subst st'.
  destruct (is_saturated (part (sp_obj st)) rv) eqn:Hsat.
  - by rewrite split_component_skip.
  - destruct (split_component_spec (fun _ => True) grad rv st Hsat)
      as (g' & c & (Hf & Hsub & _) & -> & _); [done|].
    simpl in *. split; [|split; [done|]].
    + unfold frame. simpl. by rewrite Hf.
    + intros rv' Hne. unfold is_saturated. simpl.
      apply bool_decide_ext. destruct (c =? 0)%Z; set_solver.
Qed.

Lemma split_components_frame (grad : array real_t) (lo hi : nat)
    (st : split_state) :
  let st' := split_components grad lo hi st in
  frame (sp_obj st') = frame (sp_obj st)
  /\ active (gr (sp_obj st)) ⊆ active (gr (sp_obj st'))
  /\ forall rv, ~ (lo <= rv < hi) ->
       is_saturated (part (sp_obj st')) rv = is_saturated (part (sp_obj st)) rv.
Proof.
  intros st'. subst st'. unfold split_components.
  destruct (decide (lo <= hi)) as [Hle|Hgt];
    [|by rewrite for_loop_empty by lia].
  apply (for_loop_invariant (fun k st' =>
           frame (sp_obj st') = frame (sp_obj st)
           /\ active (gr (sp_obj st)) ⊆ active (gr (sp_obj st'))
           /\ forall rv, ~ (lo <= rv < k) ->
                is_saturated (part (sp_obj st')) rv
                = is_saturated (part (sp_obj st)) rv)); [done|done|].
  intros k st' Hk (Hf & Hsub & Hsat).
  destruct (split_component_frame grad k st') as (Hf' & Hsub' & Hsat').
  split; [congruence|]. split; [set_solver|].
  intros rv Hrv. rewrite Hsat' by lia. apply Hsat. lia.
Qed.


Lemma for_loopM_total {S} (lo hi : nat) (body : nat -> S -> option S) (s : S) :
  (forall i s, lo <= i < hi -> is_Some (body i s)) ->
  is_Some (for_loopM lo hi body s).
Proof.
  intros Hb. destruct (decide (lo <= hi)) as [Hle|Hgt];
    [|by rewrite for_loopM_empty by lia].
  destruct (for_loopM_invariant (fun _ _ => True) lo hi body s)
    as (s' & -> & _); try done.
  intros i s' Hi _. destruct (Hb i s' Hi) as [s'' ->]. by exists s''.
Qed.

Lemma for_loop_split {S} (lo k hi : nat) (body : nat -> S -> S) (s : S) :
  lo <= k <= hi ->
  for_loop lo hi body s = for_loop k hi body (for_loop lo k body s).
Proof.
  intros Hk. unfold for_loop, range.
  replace (hi - lo) with ((k - lo) + (hi - k)) by lia.
  rewrite seq_app, foldl_app. do 2 f_equal. lia.
Qed.

(** With valid pointers the gradient is computed. *)
Lemma gradient_returns (s : Cp_d1_ql1b) :
  pointers_ok s -> is_Some (gradient s).
Proof.
  intros [Hdirect Hfull]. unfold gradient.
  assert (Hq : is_Some (gradient_quadratic s)); [|by destruct Hq as [g ->]].
  unfold gradient_quadratic.
  destruct (IS_ATA (N (quad s))) eqn:Hata; simpl.
  - destruct (N (quad s) =? FULL_ATA)%Z eqn:HN.
    + apply Z.eqb_eq in HN. destruct (Hfull HN) as [Ab HA]. rewrite HA.
      apply for_loopM_total. intros u grad _.
      assert (Hin : is_Some (for_loopM 0 (rV (part s)) (fun rv grad =>
                if (rX (part s) rv =? ZERO)%re then Some grad
                else
                  aurv ← for_loopM (first_vertex (part s) rv)
                           (first_vertex (part s) (rv + 1))
                           (fun v aurv =>
                              x ← load (Some Ab)
                                    (V (gr s) * u + comp_list (part s) v)%nat;
                              Some (aurv + x)%re) ZERO;
                  Some (upd grad u (grad u + aurv * rX (part s) rv)%re)) grad)).
      { apply for_loopM_total. intros rv grad' _.
        destruct (_ =? _)%re; [done|].
        assert (Hsum : is_Some (for_loopM (first_vertex (part s) rv)
                  (first_vertex (part s) (rv + 1))
                  (fun v aurv =>
                     x ← load (Some Ab) (V (gr s) * u + comp_list (part s) v)%nat;
                     Some (aurv + x)%re) ZERO))
          by (by apply for_loopM_total).
        by destruct Hsum as [aurv ->]. }
      by destruct Hin as [grad' ->].
    + destruct (A (quad s)); [done|]. by destruct (truthy _).
  - destruct (Hdirect eq_refl) as [[Ab HA] (p & HR & [b Hb])]. rewrite HA.
    apply for_loopM_total. intros v grad _.
    apply for_loopM_total. intros n grad' _. simpl.
    unfold load_R. rewrite HR. simpl. rewrite Hb. done.
Qed.

Lemma frame_pointers_ok (s s' : Cp_d1_ql1b) :
  frame s' = frame s -> pointers_ok s -> pointers_ok s'.
Proof.
  intros Hf. unfold pointers_ok.
  pose proof (f_equal quad Hf) as Hq. pose proof (f_equal heap Hf) as Hh.
  simpl in Hq, Hh. by rewrite Hq, Hh.
Qed.

Lemma frame_csr_ok (s s' : Cp_d1_ql1b) : frame s' = frame s -> csr_ok s' = csr_ok s.
Proof.
  intros Hf. unfold csr_ok.
  pose proof (f_equal gr Hf) as Hg. pose proof (f_equal part Hf) as Hp.
  simpl in Hg, Hp.
  pose proof (f_equal V Hg) as HV. pose proof (f_equal E Hg) as HE.
  pose proof (f_equal first_edge Hg) as Hfe.
  pose proof (f_equal rV Hp) as HrV. pose proof (f_equal comp_list Hp) as Hcl.
  pose proof (f_equal first_vertex Hp) as Hfv.
  simpl in *. by rewrite HV, HE, Hfe, HrV, Hcl, Hfv.
Qed.

Lemma split_returns (s : Cp_d1_ql1b) (fl : flow) :
  pointers_ok s ->
  exists grad,
    gradient s = Some grad
    /\ split s fl
       = Some (split_components grad 0 (rV (part s))
                 {| sp_obj := s; sp_flow := fl; sp_activation := 0;
                    sp_cuts := 0 |}).
Proof.
  intros Hok. destruct (gradient_returns s Hok) as [grad Hgrad].
  exists grad. split; [done|]. unfold split. by rewrite Hgrad.
Qed.

(** C5.  With valid pointers [split()] returns, every edge that was active
    is still active, and nothing but the active edges and the saturation
    flags has changed; so it is after any number of calls in a row. *)
Theorem split_active_monotone (s : Cp_d1_ql1b) (fl : flow) :
  pointers_ok s ->
  (exists st, split s fl = Some st
              /\ active (gr s) ⊆ active (gr (sp_obj st))
              /\ frame (sp_obj st) = frame s)
  /\ forall n, exists s' fl',
       split_repeat n s fl = Some (s', fl')
       /\ active (gr s) ⊆ active (gr s')
       /\ frame s' = frame s.
Proof.
  intros Hok.
  assert (Hone : forall s fl, pointers_ok s ->
            exists st, split s fl = Some st
                       /\ active (gr s) ⊆ active (gr (sp_obj st))
                       /\ frame (sp_obj st) = frame s).
  { clear. intros s fl Hok. destruct (split_returns s fl Hok) as (grad & _ & ->).
    eexists. split; [done|].
    destruct (split_components_frame grad 0 (rV (part s))
                {| sp_obj := s; sp_flow := fl; sp_activation := 0;
                   sp_cuts := 0 |}) as (Hf & Hsub & _).
    done. }
  split; [by apply Hone|].
  intros n. revert s fl Hok. induction n as [|n IH]; intros s fl Hok.
  - exists s, fl. done.
  - destruct (Hone s fl Hok) as (st & Hst & Hsub & Hf).
    destruct (IH (sp_obj st) (sp_flow st)) as (s' & fl' & Hrep & Hsub' & Hf').
    { by apply (frame_pointers_ok s). }
    exists s', fl'. simpl. rewrite Hst. simpl.
    split; [done|]. split; [set_solver|congruence].
Qed.


Lemma is_saturated_set (p : partition) (rv : nat) (b : bool) :
  is_saturated (set_saturation p rv b) rv = b.
Proof.
  unfold is_saturated. simpl. destruct b.
  - apply bool_decide_eq_true. set_solver.
  - apply bool_decide_eq_false. set_solver.
Qed.

(** Under [csr_ok] the edges of the members of a component are edges of the
    graph. *)
Lemma csr_ok_edges (s : Cp_d1_ql1b) (rv i e : nat) :
  csr_ok s = true -> rv < rV (part s) ->
  first_vertex (part s) rv <= i < first_vertex (part s) (rv + 1) ->
  first_edge (gr s) (comp_list (part s) i) <= e
    < first_edge (gr s) (comp_list (part s) i + 1) ->
  e < E (gr s).
Proof.
  unfold csr_ok. rewrite !andb_true_iff, !forallb_forall.
  intros [[[Hfv Hcl] Hfe] _] Hrv Hi He.
  assert (Hi' : i < V (gr s)).
  { specialize (Hfv rv). rewrite Nat.leb_le in Hfv.
    assert (first_vertex (part s) (rv + 1) <= V (gr s))
      by (apply Hfv, in_seq; lia). lia. }
  assert (Hv : comp_list (part s) i < V (gr s)).
  { specialize (Hcl i). rewrite Nat.ltb_lt in Hcl. apply Hcl, in_seq. lia. }
  specialize (Hfe (comp_list (part s) i)). rewrite Nat.leb_le in Hfe.
  assert (first_edge (gr s) (comp_list (part s) i + 1) <= E (gr s))
    by (apply Hfe, in_seq; lia). lia.
Qed.

Lemma csr_ok_bits (s : Cp_d1_ql1b) :
  csr_ok s = true -> (Z.of_nat (E (gr s)) < 2 ^ index_bits)%Z.
Proof.
  unfold csr_ok. rewrite !andb_true_iff. intros [_ Hbits]. by apply Z.ltb_lt.
Qed.

(** C4.  Let [split()] run on an object with valid pointers and a
    well-formed graph, and let component [rv] be unsaturated at entry.  Then
    [split()] returns, and afterwards the saturation flag of [rv] is set
    exactly when no edge became active while [rv] was processed, the two cuts
    together. *)
Theorem split_saturation_iff (s : Cp_d1_ql1b) (fl : flow) (rv : nat) :
  pointers_ok s -> csr_ok s = true -> rv < rV (part s) ->
  is_saturated (part s) rv = false ->
  exists grad st,
    gradient s = Some grad /\ split s fl = Some st
    /\ let st0 := {| sp_obj := s; sp_flow := fl; sp_activation := 0;
                     sp_cuts := 0 |} in
       let before := split_components grad 0 rv st0 in
       let after := split_component grad rv before in
       (is_saturated (part (sp_obj st)) rv = true
        <-> size (activated (gr (sp_obj before)) (gr (sp_obj after))) = 0).
Proof.
  intros Hok Hcsr Hrv Hsat.
  destruct (split_returns s fl Hok) as (grad & Hgrad & Hsplit).
  exists grad. eexists. split; [done|]. split; [done|].
  intros st0 before after.
  destruct (split_components_frame grad 0 rv st0) as (Hf & _ & Hsat0).
  fold before in Hf, Hsat0. simpl in Hf.
  assert (Hsatb : is_saturated (part (sp_obj before)) rv = false)
    by (rewrite Hsat0 by lia; done).
  assert (Hcsrb : csr_ok (sp_obj before) = true) by (by rewrite (frame_csr_ok s)).
  assert (HrV : rV (part (sp_obj before)) = rV (part s))
    by exact (f_equal (fun s => rV (part s)) Hf).
  destruct (split_component_spec (fun e => e < E (gr (sp_obj before))) grad rv
              before Hsatb) as (g' & c & (_ & _ & Hc & HP) & Hobj & _).
  { intros i e. apply csr_ok_edges; [done|lia]. }
  fold after in Hobj. simpl in Hc, HP.
  unfold split_components at 1.
  rewrite (for_loop_split 0 (Datatypes.S rv) (rV (part s))) by lia.
  rewrite for_loop_S by lia.
  change (for_loop 0 rv (split_component grad) st0) with before.
  change (split_component grad rv before) with after.
  destruct (split_components_frame grad (Datatypes.S rv) (rV (part s)) after)
    as (_ & _ & Hsat1).
  unfold split_components in Hsat1. rewrite Hsat1 by lia.
  rewrite Hobj. simpl. rewrite is_saturated_set.
  assert (Hsize : (Z.of_nat (size (activated (gr (sp_obj before)) g'))
                   <= Z.of_nat (E (gr (sp_obj before))))%Z).
  { apply inj_le. rewrite <- (size_set_seq (C := gset nat) 0 (E (gr (sp_obj before)))).
    apply subseteq_size. intros e He. apply elem_of_set_seq.
    specialize (HP e He). lia. }
  pose proof (csr_ok_bits _ Hcsrb) as Hbits.
  rewrite Hc. unfold wrap. rewrite Z.add_0_l, Z.mod_small by lia.
  rewrite Z.eqb_eq. lia.
Qed.



End Split.

Lemma ex_path_pointers_ok : pointers_ok ex_path.
Proof. split; intros Hshape; vm_compute in Hshape; done. Qed.

Lemma split_saturation_iff_witness :
  pointers_ok ex_path /\ csr_ok ex_path = true /\ 0 < rV (part ex_path)
  /\ is_saturated (part ex_path) 0 = false
  /\ exists grad st,
       gradient ex_path = Some grad /\ split ex_path ex_flow = Some st
       /\ (is_saturated (part (sp_obj st)) 0 = true
           <-> size (activated
                       (gr (sp_obj (split_components grad 0 0
                          {| sp_obj := ex_path; sp_flow := ex_flow;
                             sp_activation := 0; sp_cuts := 0 |})))
                       (gr (sp_obj (split_component grad 0
                          (split_components grad 0 0
                             {| sp_obj := ex_path; sp_flow := ex_flow;
                                sp_activation := 0; sp_cuts := 0 |}))))) = 0).
Proof.
  assert (Hcsr : csr_ok ex_path = true) by (vm_compute; reflexivity).
  assert (HrV : 0 < rV (part ex_path)) by (vm_compute; lia).
  assert (Hsat : is_saturated (part ex_path) 0 = false) by (vm_compute; reflexivity).
  split; [exact ex_path_pointers_ok|]. split; [exact Hcsr|].
  split; [exact HrV|]. split; [exact Hsat|].
  exact (split_saturation_iff ex_path ex_flow 0 ex_path_pointers_ok Hcsr HrV Hsat).
Defined.

Lemma split_active_monotone_witness :
  pointers_ok ex_path
  /\ exists s' fl',
       split_repeat 3 ex_path ex_flow = Some (s', fl')
       /\ active (gr ex_path) ⊆ active (gr s')
       /\ frame s' = frame ex_path.
Proof.
  split; [exact ex_path_pointers_ok|].
  exact (proj2 (split_active_monotone ex_path ex_flow ex_path_pointers_ok) 3).
Defined.

(** On [ex_path] the stand-in cut separates odd from even vertices: the three
    edges become active in one cut and the component stays unsaturated; a
    second call activates nothing and saturates it.  Under the l1 penalty
    the same call makes two cuts. *)
Example split_path :
  (st ← split ex_path ex_flow;
   Some (sp_activation st,
         bool_decide (active (gr (sp_obj st)) = {[ 0; 1; 2 ]}),
         is_saturated (part (sp_obj st)) 0, sp_cuts st))
  = Some (3%Z, true, false, 1)
  /\ (st ← split ex_path ex_flow;
      st' ← split (sp_obj st) (sp_flow st);
      Some (sp_activation st',
            bool_decide (active (gr (sp_obj st')) = {[ 0; 1; 2 ]}),
            is_saturated (part (sp_obj st')) 0, sp_cuts st'))
     = Some (0%Z, true, true, 1)
  /\ (st ← split ex_path_l1 ex_flow;
      Some (sp_activation st, is_saturated (part (sp_obj st)) 0, sp_cuts st))
     = Some (3%Z, false, 2).
Proof. repeat split; vm_compute; reflexivity. Qed.

Section TwoCuts.
Context {RT : RealT} {IT : IntT} {CO : Collaborators}.

(** After a pass, an edge of a member is active or its ends are on the same
    side of the cut. *)
Lemma activate_cut_edges_settled (p : partition) (fl : flow) (rv : nat)
    (g0 : graph) (c0 : Z) :
  let ga := activate_cut_edges p fl rv (g0, c0) in
  forall i e,
    first_vertex p rv <= i < first_vertex p (rv + 1) ->
    first_edge g0 (comp_list p i) <= e < first_edge g0 (comp_list p i + 1) ->
    is_active ga.1 e = true \/ separated g0 fl (comp_list p i) e = false.
Proof.
  intros ga. subst ga. unfold activate_cut_edges, for_members.
  set (lo := first_vertex p rv). set (hi := first_vertex p (rv + 1)).
  set (Q := fun (g : graph) i e =>
              is_active g e = true \/ separated g0 fl (comp_list p i) e = false).
  set (Inv := fun (ga : graph * Z) =>
                erase_active ga.1 = erase_active g0 /\ active g0 ⊆ active ga.1).
  assert (Hmono : forall (g g' : graph) i e,
            active g ⊆ active g' -> Q g i e -> Q g' i e).
  { intros g g' i e Hsub [Ha|Hs]; [left|by right].
    apply bool_decide_eq_true. apply bool_decide_eq_true in Ha. set_solver. }
  destruct (decide (lo <= hi)) as [Hle|Hgt]; [|intros i e Hi; lia].
  assert (Hloop :
    let ga := for_loop lo hi (fun i ga =>
                for_loop (first_edge ga.1 (comp_list p i))
                  (first_edge ga.1 (comp_list p i + 1)) (fun e ga =>
                    let '(g, rv_activation) := ga in
                    if negb (is_active g e)
                       && negb (Bool.eqb (is_sink fl (comp_list p i))
                                  (is_sink fl (adj_vertices g e)))
                    then (set_active g e, wrap index_bits (rv_activation + 1))
                    else (g, rv_activation)) ga) (g0, c0) in
    Inv ga /\ forall i e, lo <= i < hi ->
      first_edge g0 (comp_list p i) <= e < first_edge g0 (comp_list p i + 1) ->
      Q ga.1 i e).
  { apply (for_loop_invariant (fun k ga =>
             Inv ga /\ forall i e, lo <= i < k ->
               first_edge g0 (comp_list p i) <= e
                 < first_edge g0 (comp_list p i + 1) -> Q ga.1 i e)); [done| |].
    { split; [done|]. intros i e Hi. lia. }
    intros i ga Hi ([Hf Hsub] & Hdone).
    assert (Hfe : first_edge ga.1 = first_edge g0) by exact (f_equal first_edge Hf).
    rewrite Hfe. set (v := comp_list p i).
    set (elo := first_edge g0 v). set (ehi := first_edge g0 (v + 1)).
    assert (Hinner :
      let ga' := for_loop elo ehi (fun e ga =>
                   let '(g, rv_activation) := ga in
                   if negb (is_active g e)
                      && negb (Bool.eqb (is_sink fl v)
                                 (is_sink fl (adj_vertices g e)))
                   then (set_active g e, wrap index_bits (rv_activation + 1))
                   else (g, rv_activation)) ga in
      Inv ga' /\ active ga.1 ⊆ active ga'.1
      /\ forall e, elo <= e < ehi -> Q ga'.1 i e).
    { destruct (decide (elo <= ehi)) as [Hle'|Hgt'];
        [|rewrite for_loop_empty by lia; repeat split; try done; intros e He; lia].
      apply (for_loop_invariant (fun k ga' =>
               Inv ga' /\ active ga.1 ⊆ active ga'.1
               /\ forall e, elo <= e < k -> Q ga'.1 i e)); [done| |].
      { repeat split; try done. intros e He. lia. }
      intros e [g c] He ([Hf' Hsub'] & Hsub'' & Hdone'). simpl in *.
      assert (Hadj : adj_vertices g = adj_vertices g0)
        by exact (f_equal adj_vertices Hf').
      destruct (is_active g e) eqn:Hact; simpl.
      - repeat split; try done. intros e' He'.
        destruct (decide (e' = e)) as [->|Hne]; [by left|]. apply Hdone'. lia.
      - destruct (negb (Bool.eqb _ _)) eqn:Hsep; simpl.
        + repeat split; [by rewrite <- Hf'|set_solver|set_solver|].
          intros e' He'. destruct (decide (e' = e)) as [->|Hne].
          * left. apply bool_decide_eq_true. set_solver.
          * apply (Hmono g); [set_solver|]. apply Hdone'. lia.
        + repeat split; try done. intros e' He'.
          destruct (decide (e' = e)) as [->|Hne]; [|apply Hdone'; lia].
          right. unfold separated. fold v. by rewrite <- Hadj. }
    destruct Hinner as ([Hf' Hsub'] & Hsub'' & Hnew).
    split; [done|]. intros i' e Hi' He.
    destruct (decide (i' = i)) as [->|Hne]; [by apply Hnew|].
    apply (Hmono ga.1); [done|]. apply Hdone; [lia|done]. }
  intros i e Hi He. by apply Hloop.
Qed.


(** A pass over edges that are all active or unseparated changes nothing. *)
Lemma activate_cut_edges_idle (p : partition) (fl : flow) (rv : nat)
    (g : graph) (c : Z) :
  (forall i e,
     first_vertex p rv <= i < first_vertex p (rv + 1) ->
     first_edge g (comp_list p i) <= e < first_edge g (comp_list p i + 1) ->
     is_active g e = true \/ separated g fl (comp_list p i) e = false) ->
  activate_cut_edges p fl rv (g, c) = (g, c).
Proof.
  intros Hsettled. unfold activate_cut_edges, for_members.
  set (lo := first_vertex p rv) in *. set (hi := first_vertex p (rv + 1)) in *.
  destruct (decide (lo <= hi)) as [Hle|Hgt]; [|by rewrite for_loop_empty by lia].
  apply (for_loop_invariant (fun _ ga => ga = (g, c))); [done|done|].
  intros i ga Hi ->. simpl.
  set (elo := first_edge g (comp_list p i)) in *.
  set (ehi := first_edge g (comp_list p i + 1)) in *.
  destruct (decide (elo <= ehi)) as [Hle'|Hgt'];
    [|by rewrite for_loop_empty by lia].
  apply (for_loop_invariant (fun _ ga => ga = (g, c))); [done|done|].
  intros e ga He ->.
  destruct (Hsettled i e Hi He) as [Ha|Hs].
  - by rewrite Ha.
  - unfold separated in Hs. rewrite Hs. by rewrite andb_false_r.
Qed.

(** Without l1 term and without bounds: if the second answer of the min-cut
    engine puts every vertex on the side where the first answer had put it,
    the second cut activates nothing, and the two-cut path leaves the object
    and the activation count of the one-cut path. *)
Theorem two_cuts_agree_when_sides_agree (grad : array real_t) (rv : nat)
    (st : split_state) :
  only_d1_nondifferentiable (sp_obj st) = true ->
  (let st1 := (first_cut grad rv st).1 in
   let s1 := sp_obj st1 in
   forall v,
     is_sink (maxflow (set_d1_capacities s1 rv
                         (second_cut_terminals s1 grad rv (sp_flow st1)))
                (members (part s1) rv)) v
     = is_sink (sp_flow st1) v) ->
  sp_obj (split_component_two_cuts grad rv st)
  = sp_obj (split_component grad rv st)
  /\ sp_activation (split_component_two_cuts grad rv st)
     = sp_activation (split_component grad rv st).
Proof.
  intros Honly Hsides. unfold split_component_two_cuts, split_component.
  destruct (is_saturated (part (sp_obj st)) rv); [done|].
  unfold first_cut in *.
  set (s := sp_obj st) in *.
  set (fl1 := maxflow (set_d1_capacities s rv
                         (first_cut_terminals s grad rv (sp_flow st)))
                (members (part s) rv)) in *.
  pose proof (activate_cut_edges_settled (part s) fl1 rv (gr s) 0) as Hsettled.
  pose proof (activate_cut_edges_spec (fun _ => True) (part s) fl1 rv (gr s) 0
                (Zmod_0_l _) (fun _ _ _ _ => I)) as (Hf & _).
  destruct (activate_cut_edges (part s) fl1 rv (gr s, 0%Z)) as [g1 c1].
  simpl in *.
  change (only_d1_nondifferentiable (with_gr s g1))
    with (only_d1_nondifferentiable s).
  rewrite Honly. unfold second_cut. simpl.
  set (fl2 := maxflow _ _) in *.
  rewrite activate_cut_edges_idle; [done|].
  assert (Hfe : first_edge g1 = first_edge (gr s))
    by exact (f_equal first_edge Hf).
  assert (Hadj : adj_vertices g1 = adj_vertices (gr s))
    by exact (f_equal adj_vertices Hf).
  intros i e Hi He. rewrite Hfe in He.
  destruct (Hsettled i e Hi He) as [Ha|Hs]; [by left|right].
  unfold separated in *. rewrite !Hsides. by rewrite Hadj.
Qed.

End TwoCuts.

Lemma two_cuts_agree_when_sides_agree_witness :
  only_d1_nondifferentiable ex_path = true
  /\ sp_obj (split_component_two_cuts (fun _ => ZERO) 0
               {| sp_obj := ex_path; sp_flow := ex_flow; sp_activation := 0;
                  sp_cuts := 0 |})
     = sp_obj (split_component (fun _ => ZERO) 0
                 {| sp_obj := ex_path; sp_flow := ex_flow; sp_activation := 0;
                    sp_cuts := 0 |}).
Proof.
  assert (Honly : only_d1_nondifferentiable ex_path = true) by reflexivity.
  split; [exact Honly|].
  refine (proj1 (two_cuts_agree_when_sides_agree (fun _ => ZERO) 0
                   {| sp_obj := ex_path; sp_flow := ex_flow; sp_activation := 0;
                      sp_cuts := 0 |} Honly _)).
  intros v. reflexivity.
Defined.

(* ------------------------------------------------------------------------- *)
(** ** compute_evolution *)

Section Evolution.
Context {RT : RealT} {IT : IntT} {CO : Collaborators} {RL : RealLaws}.

Lemma saturated_count_S (p : partition) (k : nat) :
  saturated_count p (S k)
  = saturated_count p k + (if is_saturated p k then 1 else 0).
Proof.
  unfold saturated_count. rewrite seq_S, List.filter_app, length_app. simpl.
  by destruct (is_saturated p k).
Qed.

Lemma saturated_count_le (p : partition) (k : nat) : saturated_count p k <= k.
Proof.
  induction k as [|k IH]; [done|]. rewrite saturated_count_S.
  destruct (is_saturated p k); lia.
Qed.

Lemma zero_square_term (x : real_t) :
  rfinite x = true -> (ZERO + ZERO * ZERO * x)%re = ZERO.
Proof.
  intros Hx. rewrite (rmul_0_l ZERO) by apply rfinite_0.
  rewrite rmul_0_l by done. apply radd_0_l.
Qed.

Lemma evolution_loop_unchanged (s : Cp_d1_ql1b) (compute_dif : bool) (k : nat) :
  values_unchanged s ->
  (forall rv, rv < rV (part s) -> rfinite (rX (part s) rv) = true) ->
  (dif_tol s <? ZERO)%re = false ->
  (Z.of_nat (rV (part s)) < 2 ^ comp_bits)%Z ->
  k <= rV (part s) ->
  let ev := evolution_loop s compute_dif 0 k
              {| ev_dif := ZERO; ev_amp := ZERO; ev_saturation := 0;
                 ev_part := part s |} in
  ev_dif ev = ZERO /\ ev_part ev = part s
  /\ ev_saturation ev = Z.of_nat (saturated_count (part s) k).
Proof.
  intros Hsame Hfin Htol Hbits Hk ev. subst ev. unfold evolution_loop.
  apply (for_loop_invariant (fun k ev =>
           ev_dif ev = ZERO /\ ev_part ev = part s
           /\ ev_saturation ev = Z.of_nat (saturated_count (part s) k)));
    [lia|done|].
  intros rv ev Hrv (Hdif & Hpart & Hcount).
  destruct (Hsame rv) as [Hne Hval]; [lia|].
  rewrite saturated_count_S. unfold evolution_component. rewrite Hpart.
  destruct (is_saturated (part s) rv) eqn:Hsat.
  - rewrite Hval by lia. rewrite rsub_diag by (apply Hfin; lia). rewrite rabs_0.
    rewrite (rmul_nonneg (rabs (rX (part s) rv)) (dif_tol s))
      by (done || apply rabs_nonneg).
    assert (Hwrap : wrap comp_bits (ev_saturation ev + 1)
                    = Z.of_nat (saturated_count (part s) rv + 1)).
    { rewrite Hcount. unfold wrap. pose proof (saturated_count_le (part s) rv).
      rewrite Z.mod_small by lia. lia. }
    destruct compute_dif; simpl; rewrite ?Hdif; repeat split; try done.
    apply zero_square_term, rfinite_of_nat.
  - rewrite Nat.add_0_r. destruct compute_dif; simpl; [|done].
    split; [|done].
    apply (for_loop_invariant (fun _ dif => dif = ZERO)); [lia|done|].
    intros i dif Hi ->. rewrite Hval by lia.
    rewrite rsub_diag by (apply Hfin; lia).
    rewrite (rmul_0_l ZERO) by apply rfinite_0. apply radd_0_l.
Qed.

Lemma saturated_count_all (p : partition) (k : nat) :
  saturated_count p k = k <-> forall rv, rv < k -> is_saturated p rv = true.
Proof.
  induction k as [|k IH].
  - split; [intros _ rv Hrv; lia|done].
  - rewrite saturated_count_S. pose proof (saturated_count_le p k) as Hle.
    destruct (is_saturated p k) eqn:Hk.
    + split.
      * intros Hc rv Hrv. destruct (decide (rv = k)) as [->|Hne]; [done|].
        apply IH; lia.
      * intros Hall. assert (saturated_count p k = k); [|lia].
        apply IH. intros rv Hrv. apply Hall. lia.
    + split; [lia|]. intros Hall. rewrite Hall in Hk by lia. done.
Qed.

(** C6 (amended).  When the values are those of the previous round (and are
    finite, with [dif_tol >= 0], [eps > 0] and [rV] fitting [comp_t]),
    [compute_evolution] returns [0], leaves every saturation flag as it was,
    and reports in [saturation] the number of components that were saturated
    at entry: every component is reported saturated exactly when every one
    was saturated before the call. *)
Theorem evolution_of_unchanged_values (s : Cp_d1_ql1b) (compute_dif : bool) :
  values_unchanged s ->
  (forall rv, rv < rV (part s) -> rfinite (rX (part s) rv) = true) ->
  (dif_tol s <? ZERO)%re = false ->
  (ZERO <? eps s)%re = true ->
  (Z.of_nat (rV (part s)) < 2 ^ comp_bits)%Z ->
  compute_evolution s compute_dif
  = (ZERO, Z.of_nat (saturated_count (part s) (rV (part s))), with_part s (part s))
  /\ (saturated_count (part s) (rV (part s)) = rV (part s)
      <-> forall rv, rv < rV (part s) -> is_saturated (part s) rv = true).
Proof.
  intros Hsame Hfin Htol Heps Hbits. split; [|apply saturated_count_all].
  unfold compute_evolution.
  destruct (evolution_loop_unchanged s compute_dif (rV (part s))
              Hsame Hfin Htol Hbits (le_n _)) as (Hdif & Hpart & Hcount).
  rewrite Hdif, Hpart, Hcount.
  destruct compute_dif; [|done].
  rewrite rsqrt_0. do 2 f_equal.
  destruct (_ >? eps s)%re eqn:Hamp.
  - apply rdiv_0_l. by apply (rltb_trans _ (eps s)).
  - by apply rdiv_0_l.
Qed.

End Evolution.

Lemma ex_evolution_unchanged : values_unchanged ex_evolution.
Proof.
  intros rv Hrv. change (rV (part ex_evolution)) with 2 in Hrv.
  destruct rv as [|[|rv]]; [| |lia].
  - split; [vm_compute; lia|]. intros i Hi.
    change (first_vertex (part ex_evolution) 0) with 0 in Hi.
    change (first_vertex (part ex_evolution) (0 + 1)) with 2 in Hi.
    by destruct i as [|[|i]]; [| |lia].
  - split; [vm_compute; lia|]. intros i Hi.
    change (first_vertex (part ex_evolution) 1) with 2 in Hi.
    change (first_vertex (part ex_evolution) (1 + 1)) with 3 in Hi.
    by destruct i as [|[|[|i]]]; [lia|lia| |lia].
Qed.

Lemma ex_evolution_finite rv :
  rv < rV (part ex_evolution) -> rfinite (rX (part ex_evolution) rv) = true.
Proof.
  intros Hrv. change (rV (part ex_evolution)) with 2 in Hrv.
  by destruct rv as [|[|rv]]; [| |lia].
Qed.

Lemma evolution_of_unchanged_values_witness :
  values_unchanged ex_evolution
  /\ compute_evolution ex_evolution true
     = (ZERO, Z.of_nat (saturated_count (part ex_evolution)
                          (rV (part ex_evolution))),
        with_part ex_evolution (part ex_evolution)).
Proof.
  split; [exact ex_evolution_unchanged|].
  refine (proj1 (evolution_of_unchanged_values ex_evolution true
                   ex_evolution_unchanged ex_evolution_finite _ _ _));
    vm_compute; reflexivity.
Defined.

(** C6, as stated, fails on [ex_evolution]: the values are those of the
    previous round and the returned difference is [0], but of the two
    components only one is reported saturated; component [1], unsaturated at
    entry, stays so. *)
Lemma evolution_counterexample :
  values_unchanged ex_evolution
  /\ rV (part ex_evolution) = 2
  /\ ((compute_evolution ex_evolution true).1.1 =? ZERO)%re = true
  /\ (compute_evolution ex_evolution true).1.2 = 1%Z
  /\ is_saturated (part (compute_evolution ex_evolution true).2) 1 = false.
Proof.
  split; [exact ex_evolution_unchanged|].
  repeat split; vm_compute; reflexivity.
Qed.

(* ------------------------------------------------------------------------- *)
(** ** compute_objective *)

Section Objective.
Context {RT : RealT} {IT : IntT} {CO : Collaborators} {RL : RealLaws}.

Lemma radd_0_r (x : real_t) : (x + ZERO)%re = x.
Proof. rewrite radd_comm. apply radd_0_l. Qed.

Lemma foldl_radd_acc (acc : real_t) (l : list real_t) :
  foldl radd acc l = (acc + rsum l)%re.
Proof.
  induction l as [|x l IH] using rev_ind.
  - simpl. unfold rsum. simpl. by rewrite radd_0_r.
  - unfold rsum in *. rewrite !foldl_snoc, IH. by rewrite radd_assoc.
Qed.

(** A loop that adds to [acc] adds the sum of its terms. *)
Lemma sum_loop_acc (lo hi : nat) (f : nat -> real_t) (acc : real_t) :
  sum_loop lo hi f acc = (acc + big_sum lo hi f)%re.
Proof. rewrite sum_loop_from. apply foldl_radd_acc. Qed.

(** So do two nested loops that share the accumulator. *)
Lemma nested_sum_loop_acc (lo hi : nat) (lo' hi' : nat -> nat)
    (f : nat -> nat -> real_t) (acc : real_t) :
  for_loop lo hi (fun u acc => sum_loop (lo' u) (hi' u) (f u) acc) acc
  = (acc + big_sum lo hi (fun u => big_sum (lo' u) (hi' u) (f u)))%re.
Proof.
  destruct (decide (lo <= hi)) as [Hle|Hgt].
  - apply (for_loop_invariant (fun k x =>
             x = (acc + big_sum lo k (fun u => big_sum (lo' u) (hi' u) (f u)))%re));
      [done| |].
    + by rewrite big_sum_empty, radd_0_r.
    + intros u x Hu ->. rewrite sum_loop_acc, big_sum_S by lia.
      by rewrite radd_assoc.
  - rewrite for_loop_empty, big_sum_empty by lia. by rewrite radd_0_r.
Qed.

Lemma big_sum_finite (lo hi : nat) (f : nat -> real_t) :
  (forall i, rfinite (f i) = true) -> rfinite (big_sum lo hi f) = true.
Proof.
  intros Hf. destruct (decide (lo <= hi)) as [Hle|Hgt].
  - induction hi as [|hi IH].
    + rewrite big_sum_empty by lia. apply rfinite_0.
    + destruct (decide (lo = S hi)) as [->|Hne].
      * rewrite big_sum_empty by lia. apply rfinite_0.
      * rewrite big_sum_S by lia. apply rfinite_add; [apply IH; lia|apply Hf].
  - rewrite big_sum_empty by lia. apply rfinite_0.
Qed.

Lemma rmul_big_sum (x : real_t) (lo hi : nat) (f : nat -> real_t) :
  rfinite x = true -> (forall i, rfinite (f i) = true) ->
  (x * big_sum lo hi f)%re = big_sum lo hi (fun i => (x * f i)%re).
Proof.
  intros Hx Hf. destruct (decide (lo <= hi)) as [Hle|Hgt].
  - induction hi as [|hi IH].
    + rewrite !big_sum_empty by lia. rewrite rmul_comm. by apply rmul_0_l.
    + destruct (decide (lo = S hi)) as [->|Hne].
      * rewrite !big_sum_empty by lia. rewrite rmul_comm. by apply rmul_0_l.
      * rewrite !big_sum_S by lia. rewrite rmul_add_distr_l;
          [|done|by apply big_sum_finite|done].
        rewrite IH by lia. done.
  - rewrite !big_sum_empty by lia. rewrite rmul_comm. by apply rmul_0_l.
Qed.


Lemma block_sum_spec (s : Cp_d1_ql1b) (Ab : array real_t) (ru rv : nat) :
  A (quad s) = Some Ab -> block_sum s ru rv = Some (reduced_AA s Ab ru rv).
Proof.
  intros HA. unfold block_sum, reduced_AA, comp_big_sum. rewrite HA.
  rewrite (for_loopM_pure _ _ _ (fun u acc =>
             sum_loop (first_vertex (part s) rv) (first_vertex (part s) (rv + 1))
               (fun v => Ab (V (gr s) * comp_list (part s) u
                             + comp_list (part s) v)%nat) acc)).
  - by rewrite nested_sum_loop_acc, radd_0_l.
  - intros u acc _. by apply for_loopM_pure.
Qed.

Lemma comp_sum_Y_spec (s : Cp_d1_ql1b) (rv : nat) :
  comp_sum_Y s rv = comp_big_sum (part s) rv (Y_ (quad s)).
Proof.
  unfold comp_sum_Y, comp_big_sum.
  apply (sum_loop_big_sum _ _ (fun v => Y_ (quad s) (comp_list (part s) v))).
Qed.

Lemma load_R_cells (s : Cp_d1_ql1b) (n : nat) :
  (exists p, R (quad s) = Some p /\ is_Some (heap s !! p)) ->
  load_R s n = Some (R_cells s n).
Proof.
  intros (p & HR & [b Hb]). unfold load_R, R_cells. rewrite HR. simpl.
  by rewrite Hb.
Qed.

(** Lines 710-762 compute the quadratic term. *)
Lemma objective_quadratic_spec (s : Cp_d1_ql1b) :
  pointers_ok s -> objective_quadratic s ZERO = Some (quadratic_term s).
Proof.
  intros [Hdirect Hfull]. unfold objective_quadratic, quadratic_term.
  destruct (IS_ATA (N (quad s))) eqn:Hata; simpl.
  - destruct (N (quad s) =? FULL_ATA)%Z eqn:HN.
    + apply Z.eqb_eq in HN. destruct (Hfull HN) as [Ab HA]. rewrite HA.
      rewrite (for_loopM_pure _ _ _ (fun ru obj =>
                 (obj + rX (part s) ru
                        * (big_sum 0 (ru + 1) (fun rv =>
                             if (rv <? ru)%nat
                             then reduced_AA s Ab ru rv * rX (part s) rv
                             else HALF * reduced_AA s Ab ru rv * rX (part s) ru)
                           - comp_big_sum (part s) ru (Y_ (quad s))))%re)).
      * f_equal. apply (sum_loop_big_sum 0 (rV (part s))).
      * intros ru obj _.
        rewrite (for_loopM_pure _ _ _ (fun rv acc =>
                   (acc + (if (rv <? ru)%nat
                           then reduced_AA s Ab ru rv * rX (part s) rv
                           else HALF * reduced_AA s Ab ru rv * rX (part s) ru))%re)).
        -- simpl. rewrite comp_sum_Y_spec. do 4 f_equal.
           apply (sum_loop_big_sum 0 (ru + 1)).
        -- intros rv acc _. rewrite (block_sum_spec s Ab) by done. simpl.
           by destruct (rv <? ru)%nat.
    + destruct (negb (is_null (A (quad s))) || truthy (a (quad s))); [|done].
      f_equal.
      rewrite <- (sum_loop_big_sum 0 (rV (part s))). unfold sum_loop.
      apply for_loop_ext. intros rv obj _. rewrite comp_sum_Y_spec.
      do 4 f_equal. destruct (A (quad s)) as [Ab|]; [|done]. f_equal.
      apply (sum_loop_big_sum _ _ (fun v => Ab (comp_list (part s) v))).
  - destruct (Hdirect eq_refl) as [_ HR].
    rewrite (for_loopM_pure _ _ _ (fun n obj =>
               (obj + R_cells s n * R_cells s n)%re)).
    + simpl. f_equal. rewrite rmul_comm. f_equal.
      apply (sum_loop_big_sum 0 (Z.to_nat (N (quad s)))).
    + intros n obj _. by rewrite load_R_cells.
Qed.

(** Lines 766-784 add the l1 term. *)
Lemma objective_l1_spec (s : Cp_d1_ql1b) (obj : real_t) :
  l1_finite s -> objective_l1 s obj = (obj + l1_term_value s)%re.
Proof.
  intros Hfin. unfold objective_l1, l1_term_value.
  destruct (l1_weights (l1 s)) as [w|] eqn:Hw.
  - apply (sum_loop_acc 0 (V (gr s))
             (fun v => (w v * rabs (rX (part s) (comp_assign (part s) v)
                                    - Yl1_ (l1 s) v))%re)).
  - destruct (truthy (homo_l1_weight (l1 s))); [|by rewrite radd_0_r].
    destruct (Hfin Hw) as (Hh & HrX & Ht). f_equal.
    rewrite (nested_sum_loop_acc 0 (rV (part s))
               (first_vertex (part s)) (fun rv => first_vertex (part s) (rv + 1))
               (fun rv v => rabs (rX (part s) rv
                                  - Yl1_ (l1 s) (comp_list (part s) v))%re)).
    rewrite radd_0_l.
    assert (Habs : forall rv v,
              rfinite (rabs (rX (part s) rv - Yl1_ (l1 s) v)%re) = true)
      by (intros; by apply rfinite_abs, rfinite_sub).
    rewrite rmul_big_sum; [|done|intros; by apply big_sum_finite].
    apply big_sum_ext. intros rv _. unfold comp_big_sum.
    by rewrite rmul_big_sum.
Qed.

(** C7.  With valid pointers (and finite l1 data under a homogeneous
    weight), [compute_objective] returns the sum of the quadratic term, of
    the d1 term as the engine's evaluator gives it, and of the l1 term. *)
Theorem compute_objective_sum (s : Cp_d1_ql1b) :
  pointers_ok s -> l1_finite s ->
  compute_objective s
  = Some (quadratic_term s + compute_graph_d1 (gr s) (part s)
          + l1_term_value s)%re.
Proof.
  intros Hok Hfin. unfold compute_objective.
  rewrite objective_quadratic_spec by done. simpl.
  by rewrite objective_l1_spec.
Qed.

Lemma of_list_finite (l : list real_t) (i : nat) :
  Forall (fun x => rfinite x = true) l -> rfinite (of_list ZERO l i) = true.
Proof.
  intros Hl. unfold of_list. revert i.
  induction Hl as [|x l Hx Hl IH]; intros [|i]; simpl; try done;
    apply rfinite_0.
Qed.

End Objective.

Lemma ex_objective_pointers_ok : pointers_ok ex_objective.
Proof. split; intros Hshape; vm_compute in Hshape; done. Qed.

Lemma ex_objective_l1_finite : l1_finite ex_objective.
Proof.
  intros _. split; [done|]. split; [|done].
  intros rv. apply (of_list_finite [xint 1; xint 3]). by repeat constructor.
Qed.

Lemma compute_objective_sum_witness :
  pointers_ok ex_objective /\ l1_finite ex_objective
  /\ compute_objective ex_objective
     = Some (quadratic_term ex_objective
             + compute_graph_d1 (gr ex_objective) (part ex_objective)
             + l1_term_value ex_objective)%re.
Proof.
  split; [exact ex_objective_pointers_ok|].
  split; [exact ex_objective_l1_finite|].
  exact (compute_objective_sum ex_objective ex_objective_pointers_ok
           ex_objective_l1_finite).
Defined.

(** On [ex_objective] the quadratic term is [1 (1 - 3) + 3 (3 - 7) = -14],
    the d1 term is [|1 - 3| = 2] (the edge [1 -> 2], of weight [1]) and the
    l1 term is [1 + 1 + 3 + 3 = 8]. *)
Example objective_value :
  (quadratic_term ex_objective =? xint (-14))%re = true
  /\ (graph_d1 (gr ex_objective) (part ex_objective) =? xint 2)%re = true
  /\ (l1_term_value ex_objective =? xint 8)%re = true
  /\ (obj ← compute_objective ex_objective; Some (obj =? xint (-4))%re)
     = Some true.
Proof. repeat split; vm_compute; reflexivity. Qed.

(* ------------------------------------------------------------------------- *)
(** ** More on loops *)

(** What every iteration preserves, a faulting loop that returns
    preserves. *)
Lemma for_each_preserves {S} (I : S -> Prop) (l : list nat)
    (body : nat -> S -> option S) (s s' : S) :
  (forall i s s', body i s = Some s' -> I s -> I s') ->
  for_each l body s = Some s' -> I s -> I s'.
Proof.
  intros Hb. revert s. induction l as [|i l IH]; intros s; simpl.
  - by intros [= ->].
  - destruct (body i s) as [s1|] eqn:Hs1; simpl; [|done].
    intros Hl Hs. apply (IH s1); [done|]. by apply (Hb i s).
Qed.

Lemma for_loop_id {T} (lo hi : nat) (body : nat -> T -> T) (s : T) :
  (forall i s, lo <= i < hi -> body i s = s) -> for_loop lo hi body s = s.
Proof.
  intros Hid. destruct (decide (lo <= hi)) as [Hle|Hgt];
    [|by rewrite for_loop_empty by lia].
  apply (for_loop_invariant (fun _ s' => s' = s)); [done|done|].
  intros i s' Hi ->. by apply Hid.
Qed.

(** Loops over consecutive ranges are one loop. *)
Lemma for_loop_tiles {T} (k : nat) (fv : nat -> nat) (body : nat -> T -> T)
    (s : T) :
  (forall rv, rv < k -> fv rv <= fv (rv + 1)) ->
  for_loop 0 k (fun rv s => for_loop (fv rv) (fv (rv + 1)) body s) s
  = for_loop (fv 0) (fv k) body s.
Proof.
  intros Hmono. induction k as [|k IH].
  - by rewrite !for_loop_empty by lia.
  - rewrite for_loop_S by lia. rewrite IH by (intros; apply Hmono; lia).
    assert (Hle : fv 0 <= fv k).
    { clear IH. induction k as [|k IHk]; [done|].
      etrans; [apply IHk; intros; apply Hmono; lia|].
      replace (S k) with (k + 1) by lia. apply Hmono. lia. }
    replace (S k) with (k + 1) by lia.
    rewrite (for_loop_split (fv 0) (fv k) (fv (k + 1))); [done|].
    split; [done|]. apply Hmono. lia.
Qed.

(* ------------------------------------------------------------------------- *)
(** ** split: what it returns, and what it skips *)

Section SplitCount.
Context {RT : RealT} {IT : IntT} {CO : Collaborators}.

(** The reduction variable [activation] after one component: what the
    component's passes counted is added to it. *)
Lemma split_component_activation (P : nat -> Prop) (grad : array real_t)
    (rv : nat) (st : split_state) :
  let s := sp_obj st in
  is_saturated (part s) rv = false ->
  (forall i e,
     first_vertex (part s) rv <= i < first_vertex (part s) (rv + 1) ->
     first_edge (gr s) (comp_list (part s) i) <= e
       < first_edge (gr s) (comp_list (part s) i + 1) ->
     P e) ->
  exists g' c,
    pass_spec P (gr s) 0 (g', c)
    /\ gr (sp_obj (split_component grad rv st)) = g'
    /\ sp_activation (split_component grad rv st)
       = wrap index_bits (sp_activation st + c).
Proof.
  intros s Hsat HP. unfold split_component. fold s. rewrite Hsat.
  unfold first_cut. fold s.
  set (fl1 := maxflow _ _).
  pose proof (activate_cut_edges_spec P (part s) fl1 rv (gr s) 0
                (Zmod_0_l _) HP) as H1.
  destruct (activate_cut_edges (part s) fl1 rv (gr s, 0%Z)) as [g1 c1].
  change (only_d1_nondifferentiable (sp_obj _))
    with (only_d1_nondifferentiable s).
  destruct (only_d1_nondifferentiable s).
  - exists g1, c1. split; [done|]. simpl. split; done.
  - unfold second_cut. simpl.
    set (fl2 := maxflow _ _).
    assert (Hc1 : wrap index_bits c1 = c1).
    { destruct H1 as (_ & _ & Hc & _). simpl in Hc. rewrite Hc.
      unfold wrap. apply Zmod_mod. }
    assert (Hfe : first_edge g1 = first_edge (gr s))
      by (destruct H1 as [Hf _]; exact (f_equal first_edge Hf)).
    assert (HP1 : forall i e,
              first_vertex (part s) rv <= i < first_vertex (part s) (rv + 1) ->
              first_edge g1 (comp_list (part s) i) <= e
                < first_edge g1 (comp_list (part s) i + 1) -> P e)
      by (rewrite Hfe; exact HP).
    pose proof (activate_cut_edges_spec P (part s) fl2 rv g1 c1 Hc1 HP1) as H2.
    destruct (activate_cut_edges (part s) fl2 rv (g1, c1)) as [g2 c2].
    exists g2, c2. split; [by apply (pass_spec_compose P _ g1 c1)|].
    simpl. split; done.
Qed.

(** The edges activated since [g0] are below [E], so their number fits
    [index_t]. *)
Lemma activated_size_bound (g0 g : graph) (En : nat) :
  (forall e, e ∈ activated g0 g -> e < En) -> size (activated g0 g) <= En.
Proof.
  intros HP. rewrite <- (size_set_seq (C := gset nat) 0 En).
  apply subseteq_size. intros e He. apply elem_of_set_seq.
  specialize (HP e He). lia.
Qed.

(** With valid pointers and a well-formed graph, [split()] returns the
    number of edges that it activated, the edges that are active afterwards
    and were not before: the counters neither wrap nor count an edge twice.
    It returns [0] exactly when the active set is the one it started from. *)
Theorem split_returns_activation_count (s : Cp_d1_ql1b) (fl : flow) :
  pointers_ok s -> csr_ok s = true ->
  exists st,
    split s fl = Some st
    /\ sp_activation st
       = Z.of_nat (size (activated (gr s) (gr (sp_obj st))))
    /\ (sp_activation st = 0%Z <-> active (gr (sp_obj st)) = active (gr s)).
Proof.
  intros Hok Hcsr.
  destruct (split_returns s fl Hok) as (grad & _ & ->).
  eexists. split; [done|].
  set (st0 := {| sp_obj := s; sp_flow := fl; sp_activation := 0; sp_cuts := 0 |}).
  assert (Hinv : let st := split_components grad 0 (rV (part s)) st0 in
            frame (sp_obj st) = frame s
            /\ active (gr s) ⊆ active (gr (sp_obj st))
            /\ (forall e, e ∈ activated (gr s) (gr (sp_obj st)) -> e < E (gr s))
            /\ sp_activation st
               = Z.of_nat (size (activated (gr s) (gr (sp_obj st))))).
  { unfold split_components.
    apply (for_loop_invariant (fun k st =>
             k <= rV (part s)
             /\ frame (sp_obj st) = frame s
             /\ active (gr s) ⊆ active (gr (sp_obj st))
             /\ (forall e, e ∈ activated (gr s) (gr (sp_obj st)) -> e < E (gr s))
             /\ sp_activation st
                = Z.of_nat (size (activated (gr s) (gr (sp_obj st))))));
      [lia| |].
    - split; [lia|]. split; [done|]. split; [done|]. simpl.
      rewrite activated_refl, size_empty. split; [set_solver|done].
    - intros rv st Hrv (_ & Hf & Hsub & Hlt & Hact).
      split; [lia|].
      destruct (is_saturated (part (sp_obj st)) rv) eqn:Hsat;
        [by rewrite split_component_skip|].
      assert (Hcsr' : csr_ok (sp_obj st) = true) by (by rewrite (frame_csr_ok s)).
      assert (HrV : rV (part (sp_obj st)) = rV (part s))
        by exact (f_equal (fun s => rV (part s)) Hf).
      assert (HE : E (gr (sp_obj st)) = E (gr s))
        by exact (f_equal (fun s => E (gr s)) Hf).
      destruct (split_component_frame grad rv st) as (Hf' & _ & _).
      destruct (split_component_activation (fun e => e < E (gr s)) grad rv st Hsat)
        as (g' & c & (_ & Hsub' & Hc & HP) & Hg & Hact').
      { intros i e Hi He. rewrite <- HE. by apply (csr_ok_edges _ rv i); [|lia| |]. }
      simpl in Hsub', Hc, HP. rewrite Hg, Hact'.
      assert (Hsplit : activated (gr s) g'
                       = activated (gr s) (gr (sp_obj st))
                         ∪ activated (gr (sp_obj st)) g')
        by (unfold activated; apply set_eq; intros e;
            destruct (decide (e ∈ active (gr (sp_obj st)))); set_solver).
      assert (Hall : forall e, e ∈ activated (gr s) g' -> e < E (gr s)).
      { intros e. rewrite Hsplit. intros [He|He]%elem_of_union; auto. }
      split; [congruence|]. split; [set_solver|]. split; [done|].
      pose proof (activated_size_bound _ _ _ Hall) as Hbound.
      pose proof (csr_ok_bits _ Hcsr) as Hbits.
      rewrite Hsplit, size_union in Hbound |- *
        by (unfold activated; set_solver).
      rewrite Hc, Hact. unfold wrap.
      rewrite Z.add_0_l, Zplus_mod_idemp_r, Z.mod_small by lia. lia. }
  destruct Hinv as (_ & Hsub & _ & Hact). split; [done|].
  rewrite Hact. split.
  - intros Hz. assert (Hemp : activated (gr s) (gr (sp_obj
                  (split_components grad 0 (rV (part s)) st0))) = ∅)
      by (apply leibniz_equiv, size_empty_inv; lia).
    unfold activated in Hemp. apply set_eq. intros e. split; [|by apply Hsub].
    intros He. destruct (decide (e ∈ active (gr s))) as [|Hn]; [done|].
    assert (Hin : e ∈ (∅ : gset nat)) by (rewrite <- Hemp; set_solver).
    by apply elem_of_empty in Hin.
  - intros Heq. unfold activated. rewrite Heq.
    fold (activated (gr s) (gr s)). by rewrite activated_refl, size_empty.
Qed.

(** [split()] leaves saturated a component that is saturated at entry.  When
    every component is saturated it makes no cut, activates no edge, returns
    [0], and leaves the object and the flow network as they were. *)
Theorem split_skips_saturated (s : Cp_d1_ql1b) (fl : flow) :
  pointers_ok s ->
  exists st,
    split s fl = Some st
    /\ (forall rv, is_saturated (part s) rv = true ->
          is_saturated (part (sp_obj st)) rv = true)
    /\ ((forall rv, rv < rV (part s) -> is_saturated (part s) rv = true) ->
        st = {| sp_obj := s; sp_flow := fl; sp_activation := 0; sp_cuts := 0 |}).
Proof.
  intros Hok.
  destruct (split_returns s fl Hok) as (grad & _ & ->).
  eexists. split; [done|].
  set (st0 := {| sp_obj := s; sp_flow := fl; sp_activation := 0; sp_cuts := 0 |}).
  split.
  - intros rv Hsat. unfold split_components.
    apply (for_loop_invariant (fun _ st =>
             is_saturated (part (sp_obj st)) rv = true)); [lia|done|].
    intros k st _ Hst.
    destruct (decide (k = rv)) as [->|Hne].
    + by rewrite split_component_skip.
    + destruct (split_component_frame grad k st) as (_ & _ & Hother).
      by rewrite Hother.
  - intros Hall. unfold split_components.
    apply (for_loop_invariant (fun _ st => st = st0)); [lia|done|].
    intros k st Hk ->. apply split_component_skip. apply Hall. lia.
Qed.

End SplitCount.

Section SplitLocal.
Context {RT : RealT} {IT : IntT} {CO : Collaborators}.

(** [split()] activates no edge but those listed under the members of the
    components that are not saturated when it is called. *)
Theorem split_activates_within_unsaturated (s : Cp_d1_ql1b) (fl : flow) :
  pointers_ok s ->
  exists st,
    split s fl = Some st
    /\ forall e, e ∈ activated (gr s) (gr (sp_obj st)) -> edge_of_unsaturated s e.
Proof.
  intros Hok.
  destruct (split_returns s fl Hok) as (grad & _ & ->).
  eexists. split; [done|].
  set (st0 := {| sp_obj := s; sp_flow := fl; sp_activation := 0; sp_cuts := 0 |}).
  unfold split_components.
  apply (for_loop_invariant (fun k st =>
           frame (sp_obj st) = frame s
           /\ active (gr s) ⊆ active (gr (sp_obj st))
           /\ (forall rv, k <= rv ->
                 is_saturated (part (sp_obj st)) rv = is_saturated (part s) rv)
           /\ forall e, e ∈ activated (gr s) (gr (sp_obj st)) ->
                edge_of_unsaturated s e)); [lia| |].
  - split; [done|]. split; [done|]. split; [done|].
    intros e. simpl. rewrite activated_refl. set_solver.
  - intros rv st Hrv (Hf & Hsub & Hflags & Hloc).
    destruct (split_component_frame grad rv st) as (Hf' & Hsub' & Hother).
    split; [congruence|]. split; [set_solver|]. split.
    { intros rv' Hrv'. rewrite Hother by lia. apply Hflags. lia. }
    destruct (is_saturated (part (sp_obj st)) rv) eqn:Hsat;
      [by rewrite split_component_skip|].
    pose proof (f_equal part Hf) as Hp. pose proof (f_equal gr Hf) as Hg.
    simpl in Hp, Hg.
    pose proof (f_equal first_vertex Hp) as Hfv.
    pose proof (f_equal comp_list Hp) as Hcl.
    pose proof (f_equal rV Hp) as HrV.
    pose proof (f_equal first_edge Hg) as Hfe. simpl in Hfv, Hcl, HrV, Hfe.
    destruct (split_component_spec (edge_of_unsaturated s) grad rv st Hsat)
      as (g' & c & (_ & _ & _ & HP) & Hobj & _).
    { intros i e Hi He. exists rv, i. rewrite Hfv in Hi.
      rewrite Hfe, Hcl in He. split; [lia|]. split; [|done].
      rewrite <- Hflags by lia. exact Hsat. }
    simpl in HP. rewrite Hobj. simpl.
    intros e He.
    destruct (decide (e ∈ active (gr (sp_obj st)))) as [Hin|Hout].
    + apply Hloc. unfold activated in *. set_solver.
    + apply HP. unfold activated in *. set_solver.
Qed.

End SplitLocal.

Lemma split_activates_within_unsaturated_witness :
  exists st,
    split ex_path ex_flow = Some st
    /\ forall e, e ∈ activated (gr ex_path) (gr (sp_obj st)) ->
         edge_of_unsaturated ex_path e.
Proof.
  exact (split_activates_within_unsaturated ex_path ex_flow ex_path_pointers_ok).
Defined.

Lemma ex_path_saturated_pointers_ok : pointers_ok ex_path_saturated.
Proof. split; intros Hshape; vm_compute in Hshape; done. Qed.

Lemma split_returns_activation_count_witness :
  exists st,
    split ex_path ex_flow = Some st
    /\ sp_activation st
       = Z.of_nat (size (activated (gr ex_path) (gr (sp_obj st)))).
Proof.
  destruct (split_returns_activation_count ex_path ex_flow ex_path_pointers_ok)
    as (st & Hst & Hcount & _); [vm_compute; reflexivity|].
  exists st. split; [exact Hst|exact Hcount].
Defined.

Lemma split_skips_saturated_witness :
  split ex_path_saturated ex_flow
  = Some {| sp_obj := ex_path_saturated; sp_flow := ex_flow;
            sp_activation := 0; sp_cuts := 0 |}.
Proof.
  destruct (split_skips_saturated ex_path_saturated ex_flow
              ex_path_saturated_pointers_ok) as (st & Hst & _ & Hall).
  rewrite Hst. f_equal. apply Hall.
  intros rv Hrv. change (rV (part ex_path_saturated)) with 1 in Hrv.
  destruct rv as [|rv]; [vm_compute; reflexivity|lia].
Defined.

(* ------------------------------------------------------------------------- *)
(** ** compute_evolution: the flags and the counter *)

Section EvolutionFlags.
Context {RT : RealT} {IT : IntT} {CO : Collaborators}.

Lemma saturated_count_ext (p p' : partition) (k : nat) :
  (forall rv, rv < k -> is_saturated p' rv = is_saturated p rv) ->
  saturated_count p' k = saturated_count p k.
Proof.
  intros Hext. induction k as [|k IH]; [done|].
  rewrite !saturated_count_S, IH, Hext by (intros; (apply Hext || idtac); lia).
  done.
Qed.

Lemma is_saturated_set_ne (p : partition) (rv rv' : nat) (b : bool) :
  rv' <> rv -> is_saturated (set_saturation p rv b) rv' = is_saturated p rv'.
Proof.
  intros Hne. unfold is_saturated. simpl. apply bool_decide_ext.
  destruct b; set_solver.
Qed.

Lemma ltb_S_ne (i k : nat) : i <> k -> (i <? S k)%nat = (i <? k)%nat.
Proof.
  intros Hne. destruct (Nat.ltb_spec i (S k)), (Nat.ltb_spec i k); (done || lia).
Qed.

(** [compute_evolution] only ever revokes saturation.  The flag of a
    component is set afterwards exactly when it was set at entry and the
    component did not evolve (the test of line 680 failed); nothing else of
    the object changes.  The counter written back to [saturation] is the
    number of components flagged saturated on return ([rV] fitting
    [comp_t]), and without [compute_dif] the returned value is zero. *)
Theorem compute_evolution_revokes_only (s : Cp_d1_ql1b) (compute_dif : bool) :
  (Z.of_nat (rV (part s)) < 2 ^ comp_bits)%Z ->
  let '(r, saturation, s') := compute_evolution s compute_dif in
  s' = with_part s (part s')
  /\ erase_saturated (part s') = erase_saturated (part s)
  /\ (forall rv, is_saturated (part s') rv
                 = is_saturated (part s) rv
                   && negb ((rv <? rV (part s))%nat && evolves s rv))
  /\ saturation = Z.of_nat (saturated_count (part s') (rV (part s)))
  /\ (compute_dif = false -> r = ZERO).
Proof.
  intros Hbits. unfold compute_evolution.
  set (ev0 := {| ev_dif := ZERO; ev_amp := ZERO; ev_saturation := 0;
                 ev_part := part s |}).
  assert (Hinv : forall k, k <= rV (part s) ->
            let ev := evolution_loop s compute_dif 0 k ev0 in
            erase_saturated (ev_part ev) = erase_saturated (part s)
            /\ (forall rv, is_saturated (ev_part ev) rv
                           = is_saturated (part s) rv
                             && negb ((rv <? k)%nat && evolves s rv))
            /\ ev_saturation ev = Z.of_nat (saturated_count (ev_part ev) k)).
  { intros k Hk. unfold evolution_loop.
    apply (for_loop_invariant (fun k ev =>
             erase_saturated (ev_part ev) = erase_saturated (part s)
             /\ (forall rv, is_saturated (ev_part ev) rv
                            = is_saturated (part s) rv
                              && negb ((rv <? k)%nat && evolves s rv))
             /\ ev_saturation ev = Z.of_nat (saturated_count (ev_part ev) k)));
      [lia| |].
    - split; [done|]. split; [|done]. intros rv. simpl.
      by rewrite andb_true_r.
    - intros rv ev Hrv (Hf & Hflag & Hcount).
      assert (HrX : rX (ev_part ev) = rX (part s))
        by exact (f_equal rX Hf).
      assert (Hlast : last_value (ev_part ev) (first_vertex (ev_part ev) rv)
                      = last_value (part s) (first_vertex (part s) rv)).
      { unfold last_value.
        by rewrite (f_equal last_rX Hf : last_rX (ev_part ev) = _),
          (f_equal tmp_comp_assign Hf : tmp_comp_assign (ev_part ev) = _),
          (f_equal comp_list Hf : comp_list (ev_part ev) = _),
          (f_equal first_vertex Hf : first_vertex (ev_part ev) = _). }
      assert (Hcur : is_saturated (ev_part ev) rv = is_saturated (part s) rv).
      { rewrite Hflag. replace (rv <? rv)%nat with false
          by (symmetry; apply Nat.ltb_ge; lia).
        by rewrite andb_true_r. }
      assert (Hprev : forall p',
                (forall rv', rv' <> rv ->
                   is_saturated p' rv' = is_saturated (ev_part ev) rv') ->
                saturated_count p' rv = saturated_count (ev_part ev) rv).
      { intros p' Hp'. apply saturated_count_ext. intros rv' Hrv'.
        apply Hp'. lia. }
      pose proof (saturated_count_le (ev_part ev) rv) as Hle.
      unfold evolution_component.
      destruct (is_saturated (ev_part ev) rv) eqn:Hsat.
      + rewrite HrX, Hlast. fold (evolves s rv).
        destruct (evolves s rv) eqn:Hev.
        * assert (Hgoal :
            erase_saturated (set_saturation (ev_part ev) rv false)
            = erase_saturated (part s)
            /\ (forall rv', is_saturated (set_saturation (ev_part ev) rv false) rv'
                            = is_saturated (part s) rv'
                              && negb ((rv' <? S rv)%nat && evolves s rv'))
            /\ ev_saturation ev
               = Z.of_nat (saturated_count
                             (set_saturation (ev_part ev) rv false) (S rv))).
          { split; [exact Hf|]. split.
            - intros rv'. destruct (decide (rv' = rv)) as [->|Hne].
              + rewrite is_saturated_set, Hev.
                replace (rv <? S rv)%nat with true
                  by (symmetry; apply Nat.ltb_lt; lia).
                by rewrite andb_false_r.
              + rewrite is_saturated_set_ne, Hflag by done.
                by rewrite ltb_S_ne.
            - rewrite saturated_count_S, is_saturated_set.
              rewrite Hprev by (intros; by apply is_saturated_set_ne).
              rewrite Hcount. lia. }
          by destruct compute_dif.
        * assert (Hgoal :
            (forall rv', is_saturated (ev_part ev) rv'
                         = is_saturated (part s) rv'
                           && negb ((rv' <? S rv)%nat && evolves s rv'))
            /\ wrap comp_bits (ev_saturation ev + 1)
               = Z.of_nat (saturated_count (ev_part ev) (S rv))).
          { split.
            - intros rv'. destruct (decide (rv' = rv)) as [->|Hne].
              + rewrite Hev, andb_false_r. simpl. by rewrite andb_true_r, <- Hcur.
              + rewrite Hflag. by rewrite ltb_S_ne.
            - rewrite saturated_count_S, Hsat, Hcount. unfold wrap.
              rewrite Z.mod_small by lia. lia. }
          destruct Hgoal. by destruct compute_dif.
      + assert (Hgoal :
          (forall rv', is_saturated (ev_part ev) rv'
                       = is_saturated (part s) rv'
                         && negb ((rv' <? S rv)%nat && evolves s rv'))
          /\ ev_saturation ev
             = Z.of_nat (saturated_count (ev_part ev) (S rv))).
        { split.
          - intros rv'. destruct (decide (rv' = rv)) as [->|Hne].
            + by rewrite <- Hcur, Hsat.
            + rewrite Hflag. by rewrite ltb_S_ne.
          - rewrite saturated_count_S, Hsat, Hcount. lia. }
        destruct Hgoal. by destruct compute_dif. }
  destruct (Hinv (rV (part s)) (le_n _)) as (Hf & Hflag & Hcount).
  fold (evolution_loop s compute_dif 0 (rV (part s)) ev0) in *.
  destruct compute_dif; simpl; repeat split; try done.
Qed.

End EvolutionFlags.

Lemma compute_evolution_revokes_only_witness :
  let '(r, saturation, s') := compute_evolution ex_evolution true in
  saturation = Z.of_nat (saturated_count (part s') (rV (part ex_evolution))).
Proof.
  pose proof (compute_evolution_revokes_only ex_evolution true) as H.
  destruct (compute_evolution ex_evolution true) as [[r sat] s'].
  apply H. vm_compute. reflexivity.
Defined.

(* ------------------------------------------------------------------------- *)
(** ** solve_univertex_problem: the residual *)

Section UnivertexResidual.
Context {RT : RealT} {IT : IntT} {CO : Collaborators}.

(** A loop of stores through [R] rewrites the first [k] cells of the block
    of [R] and nothing else. *)
Lemma residual_loop_spec (s : Cp_d1_ql1b) (k : nat)
    (f : nat -> Cp_d1_ql1b -> real_t) (p : nat) (b : block) :
  R (quad s) = Some p -> heap s !! p = Some b ->
  (forall n h, f n (with_quad s (quad s) h) = f n s) ->
  exists b',
    for_loopM 0 k (fun n s' => store_R s' n (f n s')) s
    = Some (with_quad s (quad s) (<[p := b']> (heap s)))
    /\ blk_bytes b' = blk_bytes b
    /\ (forall n, n < k -> blk_cells b' n = f n s)
    /\ (forall n, k <= n -> blk_cells b' n = blk_cells b n).
Proof.
  intros HR Hb Hf.
  destruct (for_loopM_invariant
              (fun k s' => exists b',
                 s' = with_quad s (quad s) (<[p := b']> (heap s))
                 /\ blk_bytes b' = blk_bytes b
                 /\ (forall n, n < k -> blk_cells b' n = f n s)
                 /\ (forall n, k <= n -> blk_cells b' n = blk_cells b n))
              0 k (fun n s' => store_R s' n (f n s')) s)
    as (s' & Hs' & b' & -> & Hrest); [lia| | |by exists b'].
  - exists b. split; [|split; [done|split; [intros; lia|done]]].
    rewrite insert_id by done. by destruct s.
  - intros n s' Hn (b' & -> & Hbytes & Hlo & Hhi).
    unfold store_R. simpl. rewrite HR. simpl. rewrite lookup_insert_eq. simpl.
    eexists. split; [done|]. eexists. split; [by rewrite insert_insert_eq|].
    simpl. split; [done|]. split.
    + intros m Hm. destruct (decide (m = n)) as [->|Hne].
      * by rewrite upd_eq, Hf.
      * rewrite upd_ne by done. apply Hlo. lia.
    + intros m Hm. rewrite upd_ne by lia. apply Hhi. lia.
Qed.

Lemma R_cells_insert (s : Cp_d1_ql1b) (p : nat) (b' : block) :
  R (quad s) = Some p ->
  R_cells (with_quad s (quad s) (<[p := b']> (heap s))) = blk_cells b'.
Proof.
  intros HR. unfold R_cells. simpl. rewrite HR. by rewrite lookup_insert_eq.
Qed.

(** What the call leaves: the value, and the object with the residual
    rewritten. *)
Lemma solve_univertex_direct (s : Cp_d1_ql1b) (junk : array real_t) :
  pointers_ok s -> IS_ATA (N (quad s)) = false ->
  exists x Ab p b b',
    A (quad s) = Some Ab /\ R (quad s) = Some p /\ heap s !! p = Some b
    /\ solve_univertex_problem s junk
       = Some (x, with_quad (with_part s (univertex_l1 s).2) (quad s)
                    (<[p := b']> (heap s)))
    /\ blk_bytes b' = blk_bytes b
    /\ (forall n, n < Z.to_nat (N (quad s)) ->
          blk_cells b' n
          = (Y_ (quad s) n
             - A_ones Ab (Z.to_nat (N (quad s))) (V (gr s)) n * x)%re)
    /\ (forall n, Z.to_nat (N (quad s)) <= n -> blk_cells b' n = blk_cells b n).
Proof.
  intros Hok Hata. pose proof Hok as [Hdirect _].
  destruct (Hdirect Hata) as [[Ab HA] (p & HR & [b Hb])].
  unfold solve_univertex_problem, univertex_quadratic.
  rewrite Hata, HA. simpl.
  destruct (sum_columns_spec Ab (Z.to_nat (N (quad s))) (V (gr s)) junk)
    as (rA & -> & HrA).
  simpl. destruct (for_loop _ _ _ _) as [y aa].
  destruct (univertex_l1 s) as [[yl1 wl1] p'] eqn:Hl1. simpl. rewrite Hata. simpl.
  set (x := if (_ >? univertex_upp s)%re then _ else _).
  destruct (residual_loop_spec (with_part s p') (Z.to_nat (N (quad s)))
              (fun n s' => (Y_ (quad s') n - rA n * x)%re) p b HR Hb)
    as (b' & Hloop & Hbytes & Hlo & Hhi); [done|].
  rewrite Hloop. simpl.
  exists x, Ab, p, b, b'. repeat split; try done.
  intros n Hn. rewrite Hlo by done. simpl. by rewrite HrA.
Qed.

(** In the direct matricial shape [solve_univertex_problem] leaves in the
    first [N] cells of [R] the residual [Y - (A 1) x] of the value [x] that it
    returns.  The cells beyond, the other blocks, the pointers, the
    configuration and the graph are as they were. *)
Theorem solve_univertex_refreshes_residual (s : Cp_d1_ql1b)
    (junk : array real_t) :
  pointers_ok s -> IS_ATA (N (quad s)) = false ->
  exists x s' Ab,
    solve_univertex_problem s junk = Some (x, s')
    /\ A (quad s) = Some Ab
    /\ (forall n, n < Z.to_nat (N (quad s)) ->
          R_cells s' n
          = (Y_ (quad s) n
             - A_ones Ab (Z.to_nat (N (quad s))) (V (gr s)) n * x)%re)
    /\ (forall n, Z.to_nat (N (quad s)) <= n -> R_cells s' n = R_cells s n)
    /\ quad s' = quad s /\ dom (heap s') = dom (heap s)
    /\ (forall q, R (quad s) <> Some q -> heap s' !! q = heap s !! q)
    /\ gr s' = gr s /\ l1 s' = l1 s /\ bnd s' = bnd s /\ pfdr s' = pfdr s.
Proof.
  intros Hok Hata.
  destruct (solve_univertex_direct s junk Hok Hata)
    as (x & Ab & p & b & b' & HA & HR & Hb & Hsolve & Hbytes & Hlo & Hhi).
  exists x. eexists. exists Ab. split; [exact Hsolve|]. split; [done|].
  rewrite (R_cells_insert (with_part s _) p b' HR).
  split; [done|]. split.
  { intros n Hn. rewrite Hhi by done. unfold R_cells. by rewrite HR, Hb. }
  simpl. split; [done|]. split.
  { rewrite dom_insert_L. apply elem_of_dom_2 in Hb. set_solver. }
  split; [|done].
  intros q Hq. apply lookup_insert_ne. congruence.
Qed.

Context {RL : RealLaws}.

(** So the quadratic term that [compute_objective] computes on the object
    that [solve_univertex_problem] leaves (direct matricial shape) is
    [1/2 ||Y - (A 1) x||^2], for the value [x] that was returned. *)
Theorem objective_after_solve_univertex (s : Cp_d1_ql1b) (junk : array real_t) :
  pointers_ok s -> IS_ATA (N (quad s)) = false ->
  exists x s' Ab,
    solve_univertex_problem s junk = Some (x, s')
    /\ A (quad s) = Some Ab
    /\ objective_quadratic s' ZERO
       = Some (HALF * big_sum 0 (Z.to_nat (N (quad s))) (fun n =>
                 let r := (Y_ (quad s) n
                           - A_ones Ab (Z.to_nat (N (quad s))) (V (gr s)) n * x)%re
                 in r * r))%re.
Proof.
  intros Hok Hata.
  destruct (solve_univertex_direct s junk Hok Hata)
    as (x & Ab & p & b & b' & HA & HR & Hb & Hsolve & Hbytes & Hlo & Hhi).
  exists x. eexists. exists Ab. split; [exact Hsolve|]. split; [done|].
  set (s' := with_quad _ _ _).
  assert (Hok' : pointers_ok s').
  { split; [|by destruct Hok].
    intros _. subst s'. simpl. split; [by rewrite HA|]. exists p. split; [done|].
    by rewrite lookup_insert_eq. }
  rewrite (objective_quadratic_spec s' Hok'). f_equal.
  unfold quadratic_term. change (quad s') with (quad s). rewrite Hata. simpl.
  f_equal. apply big_sum_ext. intros n Hn.
  subst s'. rewrite (R_cells_insert (with_part s _) p b' HR).
  by rewrite Hlo by lia.
Qed.

End UnivertexResidual.

Lemma solve_univertex_refreshes_residual_witness :
  exists x s' Ab,
    solve_univertex_problem ex_direct (fun _ => ZERO) = Some (x, s')
    /\ A (quad ex_direct) = Some Ab
    /\ forall n, n < Z.to_nat (N (quad ex_direct)) ->
         R_cells s' n
         = (Y_ (quad ex_direct) n
            - A_ones Ab (Z.to_nat (N (quad ex_direct))) (V (gr ex_direct)) n * x)%re.
Proof.
  destruct (solve_univertex_refreshes_residual ex_direct (fun _ => ZERO)
              ex_direct_pointers_ok) as (x & s' & Ab & Hs & HA & Hlo & _);
    [vm_compute; reflexivity|].
  exists x, s', Ab. split; [exact Hs|]. split; [exact HA|exact Hlo].
Defined.

Lemma objective_after_solve_univertex_witness :
  exists x s' Ab,
    solve_univertex_problem ex_direct (fun _ => ZERO) = Some (x, s')
    /\ A (quad ex_direct) = Some Ab
    /\ objective_quadratic s' ZERO
       = Some (HALF * big_sum 0 (Z.to_nat (N (quad ex_direct))) (fun n =>
                 let r := (Y_ (quad ex_direct) n
                           - A_ones Ab (Z.to_nat (N (quad ex_direct)))
                               (V (gr ex_direct)) n * x)%re
                 in r * r))%re.
Proof.
  apply (objective_after_solve_univertex ex_direct (fun _ => ZERO)
           ex_direct_pointers_ok).
  vm_compute. reflexivity.
Defined.

(* ------------------------------------------------------------------------- *)
(** ** solve_reduced_problem: the reduced operator and the residual *)

Section CellLoops.
Context {RT : RealT}.

(** A loop whose body rewrites cell [i] alone, by a function of what the
    cell holds, rewrites cell [i] alone, by the iterated function. *)
Lemma cell_loop (i lo hi : nat) (body : nat -> ptr real_t -> option (ptr real_t))
    (g : nat -> real_t -> real_t) (b : array real_t) :
  (forall v b, lo <= v < hi ->
     exists b', body v (Some b) = Some (Some b')
                /\ b' i = g v (b i) /\ forall j, j <> i -> b' j = b j) ->
  exists b', for_loopM lo hi body (Some b) = Some (Some b')
             /\ b' i = for_loop lo hi g (b i) /\ forall j, j <> i -> b' j = b j.
Proof.
  intros Hbody.
  destruct (decide (lo <= hi)) as [Hle|Hgt].
  - destruct (for_loopM_invariant
                (fun k r => exists b', r = Some b'
                   /\ b' i = for_loop lo k g (b i)
                   /\ forall j, j <> i -> b' j = b j)
                lo hi body (Some b)) as (r & Hr & b' & -> & Hi & Hj);
      [done| | |by exists b'].
    + exists b. by rewrite for_loop_empty.
    + intros v r Hv (b1 & -> & Hi & Hj).
      destruct (Hbody v b1 Hv) as (b2 & Hb2 & Hi2 & Hj2).
      exists (Some b2). split; [done|]. exists b2. split; [done|]. split.
      * rewrite for_loop_S by lia. by rewrite Hi2, Hi.
      * intros j Hne. by rewrite Hj2, Hj.
  - exists b. rewrite for_loopM_empty, for_loop_empty by lia. done.
Qed.

Lemma add_to_spec (b : array real_t) (i : nat) (x : real_t) :
  add_to (Some b) i x = Some (Some (upd b i (b i + x)%re)).
Proof. done. Qed.

(** [p[i] = z; for (v ...){ p[i] += f(v); }] *)
Lemma set_then_add (i lo hi : nat) (z : real_t) (f : nat -> real_t)
    (b : array real_t) :
  exists b',
    (r ← store (Some b) i z;
     for_loopM lo hi (fun v r => add_to r i (f v)) r) = Some (Some b')
    /\ b' i = sum_loop lo hi f z /\ forall j, j <> i -> b' j = b j.
Proof.
  simpl.
  destruct (cell_loop i lo hi (fun v r => add_to r i (f v))
              (fun v x => (x + f v)%re) (upd b i z)) as (b' & -> & Hi & Hj).
  - intros v b0 _. exists (upd b0 i (b0 i + f v)%re).
    split; [done|]. split; [by rewrite upd_eq|]. intros j Hne. by rewrite upd_ne.
  - exists b'. split; [done|]. split.
    + by rewrite Hi, upd_eq.
    + intros j Hne. by rewrite Hj, upd_ne.
Qed.

End CellLoops.

Section Fill.
Context {RT : RealT}.

(** A loop whose iteration [k] rewrites the cells [W k], distinct iterations
    rewriting distinct cells, with values [val k]. *)
Lemma fill_loop (lo hi : nat) (W : nat -> nat -> bool) (val : nat -> nat -> real_t)
    (body : nat -> ptr real_t -> option (ptr real_t)) (b : array real_t) :
  (forall k k' j, lo <= k < hi -> lo <= k' < hi ->
     W k j = true -> W k' j = true -> k = k') ->
  (forall k b, lo <= k < hi ->
     exists b', body k (Some b) = Some (Some b')
                /\ (forall j, W k j = true -> b' j = val k j)
                /\ (forall j, W k j = false -> b' j = b j)) ->
  exists b', for_loopM lo hi body (Some b) = Some (Some b')
             /\ (forall k j, lo <= k < hi -> W k j = true -> b' j = val k j)
             /\ (forall j, (forall k, lo <= k < hi -> W k j = false) -> b' j = b j).
Proof.
  intros Hdisj Hbody.
  destruct (decide (lo <= hi)) as [Hle|Hgt].
  - destruct (for_loopM_invariant
                (fun n r => exists b', r = Some b'
                   /\ (forall k j, lo <= k < n -> W k j = true -> b' j = val k j)
                   /\ (forall j, (forall k, lo <= k < n -> W k j = false) ->
                         b' j = b j))
                lo hi body (Some b)) as (r & Hr & b' & -> & Hw & Ho);
      [done| | |by exists b'].
    + exists b. split; [done|]. split; [intros; lia|done].
    + intros n r Hn (b1 & -> & Hw & Ho).
      destruct (Hbody n b1 Hn) as (b2 & Hb2 & Hw2 & Ho2).
      exists (Some b2). split; [done|]. exists b2. split; [done|]. split.
      * intros k j Hk HW. destruct (decide (k = n)) as [->|Hne]; [by apply Hw2|].
        rewrite Ho2; [apply Hw; [lia|done]|].
        destruct (W n j) eqn:HWn; [|done].
        exfalso. apply Hne. apply (Hdisj k n j); (done || lia).
      * intros j Hj. rewrite Ho2 by (apply Hj; lia). apply Ho.
        intros k Hk. apply Hj. lia.
  - exists b. rewrite for_loopM_empty by lia. split; [done|].
    split; [intros; lia|done].
Qed.

End Fill.

Section Pieces.
Context {RT : RealT} {IT : IntT} {CO : Collaborators}.

Lemma eqb_cell (i j : nat) : (j =? i)%nat = false -> j <> i.
Proof. by intros ?%Nat.eqb_neq. Qed.

(** Lines 273-283. *)
Lemma reduce_Y_spec (p : partition) (Yb b : array real_t) :
  exists b', reduce_Y p Yb (Some b) = Some (Some b')
             /\ (forall rv, rv < rV p -> b' rv = comp_big_sum p rv Yb)
             /\ (forall j, rV p <= j -> b' j = b j).
Proof.
  unfold reduce_Y.
  destruct (fill_loop 0 (rV p) (fun rv j => (j =? rv)%nat)
              (fun rv _ => comp_big_sum p rv Yb)
              (fun rv rY =>
                 rY ← store rY rv ZERO;
                 for_loopM (first_vertex p rv) (first_vertex p (rv + 1))
                   (fun v rY => add_to rY rv (Yb (comp_list p v))) rY) b)
    as (b' & Hb' & Hw & Ho).
  - intros k k' j _ _ ->%Nat.eqb_eq ->%Nat.eqb_eq. done.
  - intros rv b0 _.
    destruct (set_then_add rv (first_vertex p rv) (first_vertex p (rv + 1)) ZERO
                (fun v => Yb (comp_list p v)) b0) as (b1 & Hb1 & Hi & Hj).
    exists b1. split; [exact Hb1|]. split.
    + intros j ->%Nat.eqb_eq. rewrite Hi. apply sum_loop_big_sum.
    + intros j Hne%eqb_cell. by apply Hj.
  - exists b'. split; [exact Hb'|]. split.
    + intros rv Hrv. apply (Hw rv rv); [lia|apply Nat.eqb_refl].
    + intros j Hj. apply Ho. intros k Hk. apply Nat.eqb_neq. lia.
Qed.

(** Lines 303-312. *)
Lemma reduce_diagonal_spec (p : partition) (Ab b : array real_t) :
  exists b', reduce_diagonal p Ab (Some b) = Some (Some b')
             /\ (forall rv, rv < rV p -> b' rv = comp_big_sum p rv Ab)
             /\ (forall j, rV p <= j -> b' j = b j).
Proof. exact (reduce_Y_spec p Ab b). Qed.

(** Lines 313-318. *)
Lemma reduce_identity_spec (p : partition) (b : array real_t) :
  exists b', reduce_identity p (Some b) = Some (Some b')
             /\ (forall rv, rv < rV p -> b' rv = of_nat (comp_size p rv))
             /\ (forall j, rV p <= j -> b' j = b j).
Proof.
  unfold reduce_identity.
  destruct (fill_loop 0 (rV p) (fun rv j => (j =? rv)%nat)
              (fun rv _ => of_nat (comp_size p rv))
              (fun rv rAA => store rAA rv (of_nat (comp_size p rv))) b)
    as (b' & Hb' & Hw & Ho).
  - intros k k' j _ _ ->%Nat.eqb_eq ->%Nat.eqb_eq. done.
  - intros rv b0 _. eexists. split; [done|]. split.
    + intros j ->%Nat.eqb_eq. by rewrite upd_eq.
    + intros j Hne%eqb_cell. by rewrite upd_ne.
  - exists b'. split; [exact Hb'|]. split.
    + intros rv Hrv. apply (Hw rv rv); [lia|apply Nat.eqb_refl].
    + intros j Hj. apply Ho. intros k Hk. apply Nat.eqb_neq. lia.
Qed.

(** Lines 262-269. *)
Lemma correlate_Y_spec (Nn rVn : nat) (rA Yb b : array real_t) :
  exists b', correlate_Y Nn rVn rA Yb (Some b) = Some (Some b')
             /\ (forall rv, rv < rVn ->
                   b' rv = big_sum 0 Nn (fun n => (rA (Nn * rv + n)%nat * Yb n)%re))
             /\ (forall j, rVn <= j -> b' j = b j).
Proof.
  unfold correlate_Y.
  destruct (fill_loop 0 rVn (fun rv j => (j =? rv)%nat)
              (fun rv _ => big_sum 0 Nn (fun n => (rA (Nn * rv + n)%nat * Yb n)%re))
              (fun rv rY =>
                 rY ← store rY rv ZERO;
                 for_loopM 0 Nn (fun n rY =>
                   add_to rY rv (rA (Nn * rv + n)%nat * Yb n)%re) rY) b)
    as (b' & Hb' & Hw & Ho).
  - intros k k' j _ _ ->%Nat.eqb_eq ->%Nat.eqb_eq. done.
  - intros rv b0 _.
    destruct (set_then_add rv 0 Nn ZERO
                (fun n => (rA (Nn * rv + n)%nat * Yb n)%re) b0)
      as (b1 & Hb1 & Hi & Hj).
    exists b1. split; [exact Hb1|]. split.
    + intros j ->%Nat.eqb_eq. rewrite Hi. apply sum_loop_big_sum.
    + intros j Hne%eqb_cell. by apply Hj.
  - exists b'. split; [exact Hb'|]. split.
    + intros rv Hrv. apply (Hw rv rv); [lia|apply Nat.eqb_refl].
    + intros j Hj. apply Ho. intros k Hk. apply Nat.eqb_neq. lia.
Qed.

Lemma in_row_iff (rVn ru j : nat) :
  in_row rVn ru j = true <-> exists rv, rv <= ru /\ j = rVn * ru + rv.
Proof.
  unfold in_row. rewrite andb_true_iff, Nat.leb_le, Nat.leb_le. split.
  - intros [Hlo Hhi]. exists (j - rVn * ru). lia.
  - intros (rv & Hrv & ->). lia.
Qed.

Lemma in_row_disjoint (rVn k k' j : nat) :
  k < rVn -> k' < rVn -> in_row rVn k j = true -> in_row rVn k' j = true -> k = k'.
Proof.
  rewrite !in_row_iff. intros Hk Hk' (rv & Hrv & ->) (rv' & Hrv' & Heq).
  destruct (decide (k = k')) as [|Hne]; [done|]. exfalso.
  destruct (decide (k < k')).
  - assert (rVn * (k + 1) <= rVn * k') by (apply Nat.mul_le_mono_l; lia). lia.
  - assert (rVn * (k' + 1) <= rVn * k) by (apply Nat.mul_le_mono_l; lia). lia.
Qed.

(** A triangular fill: row [ru] receives the entries [entry ru rv],
    [rv <= ru]. *)
Lemma triangle_fill (rVn : nat) (entry : nat -> nat -> real_t)
    (cell : nat -> nat -> ptr real_t -> option (ptr real_t)) (b : array real_t) :
  (forall ru rv b, ru < rVn -> rv <= ru ->
     exists b', cell ru rv (Some b) = Some (Some b')
                /\ b' (rVn * ru + rv)%nat = entry ru rv
                /\ forall j, j <> (rVn * ru + rv)%nat -> b' j = b j) ->
  exists b',
    for_loopM 0 rVn (fun ru rAA => for_loopM 0 (ru + 1) (cell ru) rAA) (Some b)
    = Some (Some b')
    /\ (forall ru rv, ru < rVn -> rv <= ru -> b' (rVn * ru + rv)%nat = entry ru rv)
    /\ (forall j, (forall ru, ru < rVn -> in_row rVn ru j = false) -> b' j = b j).
Proof.
  intros Hcell.
  destruct (fill_loop 0 rVn (in_row rVn) (fun ru j => entry ru (j - rVn * ru))
              (fun ru rAA => for_loopM 0 (ru + 1) (cell ru) rAA) b)
    as (b' & Hb' & Hw & Ho).
  - intros k k' j Hk Hk'. apply in_row_disjoint; lia.
  - intros ru b0 Hru.
    destruct (fill_loop 0 (ru + 1) (fun rv j => (j =? rVn * ru + rv)%nat)
                (fun rv _ => entry ru rv) (cell ru) b0) as (b1 & Hb1 & Hw1 & Ho1).
    + intros k k' j _ _ ->%Nat.eqb_eq Heq%Nat.eqb_eq. lia.
    + intros rv b2 Hrv.
      destruct (Hcell ru rv b2) as (b3 & Hb3 & Hi & Hj); [lia|lia|].
      exists b3. split; [done|]. split.
      * by intros j ->%Nat.eqb_eq.
      * intros j Hne%eqb_cell. by apply Hj.
    + exists b1. split; [done|]. split.
      * intros j (rv & Hrv & ->)%in_row_iff.
        replace (rVn * ru + rv - rVn * ru) with rv by lia.
        apply (Hw1 rv); [lia|apply Nat.eqb_refl].
      * intros j Hout. apply Ho1. intros rv Hrv. apply Nat.eqb_neq.
        intros ->. assert (in_row rVn ru (rVn * ru + rv) = true); [|congruence].
        apply in_row_iff. exists rv. lia.
  - exists b'. split; [done|]. split; [|intros j Hj; apply Ho; intros; apply Hj; lia].
    intros ru rv Hru Hrv.
    rewrite (Hw ru (rVn * ru + rv)); [f_equal; lia|lia|].
    apply in_row_iff. exists rv. lia.
Qed.

(** Lines 253-261. *)
Lemma gram_upper_spec (Nn rVn : nat) (rA b : array real_t) :
  exists b',
    gram_upper Nn rVn rA (Some b) = Some (Some b')
    /\ (forall ru rv, ru < rVn -> rv <= ru ->
          b' (rVn * ru + rv)%nat
          = big_sum 0 Nn (fun n => (rA (Nn * ru + n)%nat * rA (Nn * rv + n)%nat)%re))
    /\ (forall j, (forall ru, ru < rVn -> in_row rVn ru j = false) -> b' j = b j).
Proof.
  unfold gram_upper.
  apply (triangle_fill rVn
           (fun ru rv =>
              big_sum 0 Nn (fun n => (rA (Nn * ru + n)%nat * rA (Nn * rv + n)%nat)%re))
           (fun ru rv rAA =>
              rAA ← store rAA (rVn * ru + rv)%nat ZERO;
              for_loopM 0 Nn (fun n rAA =>
                add_to rAA (rVn * ru + rv)%nat
                  (rA (Nn * ru + n)%nat * rA (Nn * rv + n)%nat)%re) rAA)).
  intros ru rv b0 _ _.
  destruct (set_then_add (rVn * ru + rv) 0 Nn ZERO
              (fun n => (rA (Nn * ru + n)%nat * rA (Nn * rv + n)%nat)%re) b0)
    as (b1 & Hb1 & Hi & Hj).
  exists b1. split; [exact Hb1|]. split; [|done].
  rewrite Hi. apply sum_loop_big_sum.
Qed.

End Pieces.

(** Cells of a row-major table: the row and the column are determined by the
    index. *)
Lemma cell_index_inj (w r c r' c' : nat) :
  c < w -> c' < w -> w * r + c = w * r' + c' -> r = r' /\ c = c'.
Proof.
  intros Hc Hc' Heq.
  assert (r = r'); [|split; [done|subst; lia]].
  destruct (decide (r = r')) as [|Hne]; [done|]. exfalso.
  destruct (decide (r < r')).
  - assert (w * (r + 1) <= w * r') by (apply Nat.mul_le_mono_l; lia). lia.
  - assert (w * (r' + 1) <= w * r) by (apply Nat.mul_le_mono_l; lia). lia.
Qed.

Section Pieces2.
Context {RT : RealT} {IT : IntT} {CO : Collaborators}.

(** Lines 320-330. *)
Lemma mirror_lower_spec (rVn : nat) (b : array real_t) :
  exists b',
    mirror_lower rVn (Some b) = Some (Some b')
    /\ (forall ru rv, ru < rv < rVn ->
          b' (rVn * ru + rv)%nat = b (rVn * rv + ru)%nat)
    /\ (forall j, (forall ru rv, ru < rv < rVn -> j <> (rVn * ru + rv)%nat) ->
          b' j = b j).
Proof.
  unfold mirror_lower.
  destruct (for_loopM_invariant
              (fun k r => exists b', r = Some b'
                 /\ (forall ru rv, ru < k -> ru < rv < rVn ->
                       b' (rVn * ru + rv)%nat = b (rVn * rv + ru)%nat)
                 /\ (forall j, (forall ru rv, ru < k -> ru < rv < rVn ->
                                  j <> (rVn * ru + rv)%nat) -> b' j = b j))
              0 (rVn - 1)
              (fun ru rAA =>
                 r ← for_loopM (ru + 1) rVn (fun rv '(rAA, i) =>
                        x ← load rAA i;
                        rAA ← store rAA (rVn * ru + rv)%nat x;
                        Some (rAA, (i + rVn)%nat))
                      (rAA, (rVn + (rVn + 1) * ru)%nat);
                 Some (fst r)) (Some b)) as (r & Hr & b' & -> & Hw & Ho).
  - lia.
  - exists b. split; [done|]. split; [intros; lia|done].
  - intros ru r Hru (b1 & -> & Hw & Ho).
    destruct (for_loopM_invariant
                (fun k (st : ptr real_t * nat) =>
                   st.2 = (rVn * k + ru)%nat
                   /\ exists b2, st.1 = Some b2
                      /\ (forall rv, ru < rv < k ->
                            b2 (rVn * ru + rv)%nat = b (rVn * rv + ru)%nat)
                      /\ (forall j, (forall rv, ru < rv < k ->
                                       j <> (rVn * ru + rv)%nat) -> b2 j = b1 j))
                (ru + 1) rVn
                (fun rv '(rAA, i) =>
                   x ← load rAA i;
                   rAA ← store rAA (rVn * ru + rv)%nat x;
                   Some (rAA, (i + rVn)%nat))
                (Some b1, (rVn + (rVn + 1) * ru)%nat))
      as ([r2 i2] & Hr2 & Hi2 & b2 & Hb2 & Hw2 & Ho2).
    + lia.
    + simpl. split; [lia|]. exists b1. split; [done|]. split; [intros; lia|done].
    + intros rv [r3 i3] Hrv (Hi3 & b3 & Hb3 & Hw3 & Ho3). simpl in Hi3, Hb3.
      subst r3 i3. simpl. eexists. split; [done|]. simpl. split; [lia|].
      eexists. split; [done|]. split.
      * intros rv' Hrv'. destruct (decide (rv' = rv)) as [->|Hne].
        -- rewrite upd_eq. rewrite Ho3.
           ++ apply Ho. intros ru' rv'' Hru' Hrv'' Heq.
              apply cell_index_inj in Heq; lia.
           ++ intros rv'' Hrv'' Heq. apply cell_index_inj in Heq; lia.
        -- rewrite upd_ne by lia. apply Hw3. lia.
      * intros j Hj. rewrite upd_ne by (apply Hj; lia). apply Ho3.
        intros rv' Hrv'. apply Hj. lia.
    + simpl in Hi2, Hb2. subst r2. rewrite Hr2. simpl.
      eexists. split; [done|]. exists b2. split; [done|]. split.
      * intros ru' rv Hru' Hrv. destruct (decide (ru' = ru)) as [->|Hne].
        -- apply Hw2. lia.
        -- rewrite Ho2; [apply Hw; lia|].
           intros rv' Hrv' Heq. apply cell_index_inj in Heq; lia.
      * intros j Hj. rewrite Ho2 by (intros; apply Hj; lia).
        apply Ho. intros ru' rv Hru' Hrv. apply Hj; lia.
  - exists b'. split; [done|]. split.
    + intros ru rv Hrv. apply Hw; lia.
    + intros j Hj. apply Ho. intros ru rv _ Hrv. by apply Hj.
Qed.

(** Lines 238-248. *)
Lemma reduce_columns_spec (s : Cp_d1_ql1b) (Ab junk : array real_t) :
  A (quad s) = Some Ab ->
  (0 <= N (quad s))%Z ->
  (N (quad s) * Z.of_nat (rV (part s)) < 2 ^ size_bits)%Z ->
  exists rA,
    reduce_columns s junk = Some rA
    /\ forall rv n, rv < rV (part s) -> n < Z.to_nat (N (quad s)) ->
         rA (Z.to_nat (N (quad s)) * rv + n)%nat
         = column_sum (part s) Ab (Z.to_nat (N (quad s))) rv n.
Proof.
  intros HA HN Hfit. unfold reduce_columns. rewrite HA.
  set (Nn := Z.to_nat (N (quad s))). set (p := part s).
  assert (HM : Z.to_nat (wrap size_bits (N (quad s) * Z.of_nat (rV p)))
               = (Nn * rV p)%nat).
  { unfold wrap. rewrite Z.mod_small by (split; [lia|done]).
    subst Nn. rewrite Z2Nat.inj_mul, Nat2Z.id by lia. done. }
  rewrite HM.
  set (zeroed := for_loop 0 (Nn * rV p) _ junk).
  assert (Hzero : forall i, i < Nn * rV p -> zeroed i = ZERO).
  { subst zeroed.
    apply (for_loop_invariant (fun k (rA : array real_t) =>
             forall i, i < k -> rA i = ZERO)); [lia|intros; lia|].
    intros k rA Hk Hinv i Hi. destruct (decide (i = k)) as [->|Hne].
    - by rewrite upd_eq.
    - rewrite upd_ne by done. apply Hinv. lia. }
  match goal with |- exists rA, ?L = Some rA /\ _ =>
    cut (exists rA, L = Some rA
           /\ (forall rv n, rv < rV p -> n < Nn ->
                 rA (Nn * rv + n)%nat = column_sum p Ab Nn rv n)
           /\ (forall rv n, rV p <= rv < rV p -> n < Nn ->
                 rA (Nn * rv + n)%nat = ZERO))
  end.
  { intros (rA & H1 & H2 & _). by exists rA. }
  apply (for_loopM_invariant
           (fun k (rA : array real_t) =>
              (forall rv n, rv < k -> n < Nn ->
                 rA (Nn * rv + n)%nat = column_sum p Ab Nn rv n)
              /\ (forall rv n, k <= rv < rV p -> n < Nn ->
                    rA (Nn * rv + n)%nat = ZERO))); [lia| |].
  { split; [intros; lia|]. intros rv n Hrv Hn. apply Hzero.
    assert (Nn * (rv + 1) <= Nn * rV p) by (apply Nat.mul_le_mono_l; lia). lia. }
  intros rv rA Hrv [Hdone Htodo].
  set (lo := first_vertex p rv). set (hi := first_vertex p (rv + 1)).
  assert (Hcol : exists rA',
            for_loopM lo hi (fun v rA =>
              for_loopM 0 Nn (fun n rA =>
                x ← load (Some Ab) (Nn * comp_list p v + n)%nat;
                Some (upd rA (Nn * rv + n) (rA (Nn * rv + n)%nat + x)%re)) rA) rA
            = Some rA'
            /\ (forall n, n < Nn ->
                  rA' (Nn * rv + n)%nat
                  = sum_loop lo hi (fun v => Ab (Nn * comp_list p v + n)%nat)
                      (rA (Nn * rv + n)%nat))
            /\ (forall j, (forall n, n < Nn -> j <> (Nn * rv + n)%nat) ->
                  rA' j = rA j)).
  { destruct (decide (lo <= hi)) as [Hle|Hgt].
    - apply (for_loopM_invariant
               (fun k (rA' : array real_t) =>
                  (forall n, n < Nn ->
                     rA' (Nn * rv + n)%nat
                     = sum_loop lo k (fun v => Ab (Nn * comp_list p v + n)%nat)
                         (rA (Nn * rv + n)%nat))
                  /\ (forall j, (forall n, n < Nn -> j <> (Nn * rv + n)%nat) ->
                        rA' j = rA j))); [done| |].
      + split; [|done]. intros n Hn. unfold sum_loop. by rewrite for_loop_empty.
      + intros v rA1 Hv [Hsum Hout].
        destruct (for_loopM_invariant
                    (fun k (rA2 : array real_t) =>
                       (forall n, n < k ->
                          rA2 (Nn * rv + n)%nat
                          = (rA1 (Nn * rv + n)%nat
                             + Ab (Nn * comp_list p v + n)%nat)%re)
                       /\ (forall j, (forall n, n < k -> j <> (Nn * rv + n)%nat) ->
                             rA2 j = rA1 j))
                    0 Nn
                    (fun n rA =>
                       x ← load (Some Ab) (Nn * comp_list p v + n)%nat;
                       Some (upd rA (Nn * rv + n) (rA (Nn * rv + n)%nat + x)%re))
                    rA1) as (rA2 & HrA2 & Hin & Hother); [lia|split; [intros; lia|done]| |].
        * intros n rA2 Hn [Hin Hother]. simpl. eexists. split; [done|]. split.
          -- intros n' Hn'. destruct (decide (n' = n)) as [->|Hne].
             ++ rewrite upd_eq. rewrite Hother; [done|]. intros; lia.
             ++ rewrite upd_ne by lia. apply Hin. lia.
          -- intros j Hj. rewrite upd_ne by (apply Hj; lia).
             apply Hother. intros n' Hn'. apply Hj. lia.
        * exists rA2. split; [done|]. split.
          -- intros n Hn. unfold sum_loop in *. rewrite for_loop_S by lia.
             rewrite Hin, Hsum by done. done.
          -- intros j Hj. rewrite Hother by (intros; by apply Hj). by apply Hout.
    - exists rA. rewrite for_loopM_empty by lia. split; [done|]. split; [|done].
      intros n Hn. unfold sum_loop. by rewrite for_loop_empty by lia. }
  destruct Hcol as (rA' & HrA' & Hsum & Hout).
  exists rA'. split; [done|]. split.
  - intros rv' n Hrv' Hn. destruct (decide (rv' = rv)) as [->|Hne].
    + rewrite Hsum, Htodo by (done || lia). apply sum_loop_big_sum.
    + rewrite Hout; [apply Hdone; lia|].
      intros n' Hn' Heq. apply cell_index_inj in Heq; lia.
  - intros rv' n Hrv' Hn. rewrite Hout; [apply Htodo; lia|].
    intros n' Hn' Heq. apply cell_index_inj in Heq; lia.
Qed.

Lemma store_R_insert (s : Cp_d1_ql1b) (p : nat) (b : block) (n : nat) (x : real_t) :
  R (quad s) = Some p ->
  store_R (with_quad s (quad s) (<[p := b]> (heap s))) n x
  = Some (with_quad s (quad s)
            (<[p := {| blk_bytes := blk_bytes b;
                       blk_cells := upd (blk_cells b) n x |}]> (heap s))).
Proof.
  intros HR. unfold store_R. simpl. rewrite HR. simpl.
  rewrite lookup_insert_eq. simpl. by rewrite insert_insert_eq.
Qed.

Lemma load_R_insert (s : Cp_d1_ql1b) (p : nat) (b : block) (n : nat) :
  R (quad s) = Some p ->
  load_R (with_quad s (quad s) (<[p := b]> (heap s))) n = Some (blk_cells b n).
Proof.
  intros HR. unfold load_R. simpl. rewrite HR. simpl.
  by rewrite lookup_insert_eq.
Qed.

(** Lines 446-456. *)
Lemma update_residual_spec (s : Cp_d1_ql1b) (rA : array real_t) (p : nat)
    (b : block) :
  IS_ATA (N (quad s)) = false ->
  R (quad s) = Some p -> heap s !! p = Some b ->
  exists b',
    update_residual s (Some rA)
    = Some (with_quad s (quad s) (<[p := b']> (heap s)))
    /\ blk_bytes b' = blk_bytes b
    /\ (forall n, n < Z.to_nat (N (quad s)) ->
          blk_cells b' n
          = sub_all (Y_ (quad s) n)
              (map (fun rv => (rA (n + Z.to_nat (N (quad s)) * rv)%nat
                               * rX (part s) rv)%re) (range 0 (rV (part s)))))
    /\ (forall n, Z.to_nat (N (quad s)) <= n -> blk_cells b' n = blk_cells b n).
Proof.
  intros Hata HR Hb. unfold update_residual. rewrite Hata. simpl.
  set (Nn := Z.to_nat (N (quad s))).
  set (final := fun n =>
         sub_all (Y_ (quad s) n)
           (map (fun rv => (rA (n + Nn * rv)%nat * rX (part s) rv)%re)
              (range 0 (rV (part s))))).
  destruct (for_loopM_invariant
              (fun k s' => exists b',
                 s' = with_quad s (quad s) (<[p := b']> (heap s))
                 /\ blk_bytes b' = blk_bytes b
                 /\ (forall n, n < k -> blk_cells b' n = final n)
                 /\ (forall n, k <= n -> blk_cells b' n = blk_cells b n))
              0 Nn
              (fun n s =>
                 s ← store_R s n (Y_ (quad s) n);
                 r ← for_loopM 0 (rV (part s)) (fun rv '(s, i) =>
                        cur ← load_R s n;
                        x ← load (Some rA) i;
                        s ← store_R s n (cur - x * rX (part s) rv)%re;
                        Some (s, (i + Nn)%nat)) (s, n);
                 Some (fst r)) s)
    as (s' & Hs' & b' & -> & Hrest); [lia| | |by exists b'].
  - exists b. split; [|split; [done|split; [intros; lia|done]]].
    rewrite insert_id by done. by destruct s.
  - intros n s1 Hn (b1 & -> & Hbytes & Hlo & Hhi).
    rewrite store_R_insert by done. simpl.
    set (partial := fun k =>
           sub_all (Y_ (quad s) n)
             (map (fun rv => (rA (n + Nn * rv)%nat * rX (part s) rv)%re)
                (range 0 k))).
    assert (Hpartial : forall k, partial (S k)
              = (partial k - rA (n + Nn * k)%nat * rX (part s) k)%re).
    { intros k. unfold partial, sub_all.
      rewrite range_S, map_app by lia. simpl. by rewrite foldl_snoc. }
    destruct (for_loopM_invariant
                (fun k (st : Cp_d1_ql1b * nat) => exists b2,
                   st = (with_quad s (quad s) (<[p := b2]> (heap s)),
                         (n + Nn * k)%nat)
                   /\ blk_bytes b2 = blk_bytes b
                   /\ blk_cells b2 n = partial k
                   /\ (forall m, m <> n -> blk_cells b2 m = blk_cells b1 m))
                0 (rV (part s))
                (fun rv '(s, i) =>
                   cur ← load_R s n;
                   x ← load (Some rA) i;
                   s ← store_R s n (cur - x * rX (part s) rv)%re;
                   Some (s, (i + Nn)%nat))
                (with_quad s (quad s)
                   (<[p := {| blk_bytes := blk_bytes b1;
                              blk_cells := upd (blk_cells b1) n (Y_ (quad s) n) |}]>
                      (heap s)), n))
      as (st & Hst & b2 & -> & Hbytes2 & Hn2 & Hother2).
    + lia.
    + eexists. split; [f_equal; lia|]. simpl. split; [done|].
      split; [by rewrite upd_eq|]. intros m Hm. by rewrite upd_ne.
    + intros rv [s2 i2] Hrv (b2 & [= -> ->] & Hbytes2 & Hn2 & Hother2).
      rewrite load_R_insert by done. simpl.
      rewrite store_R_insert by done. simpl. eexists. split; [done|].
      eexists. split; [f_equal; lia|]. cbn [blk_cells blk_bytes].
      split; [done|]. split.
      * by rewrite upd_eq, Hn2, Hpartial.
      * intros m Hm. rewrite upd_ne by done. by apply Hother2.
    + simpl in Hst |- *. rewrite Hst. simpl. eexists. split; [done|].
      exists b2. split; [done|]. split; [congruence|]. split.
      * intros m Hm. destruct (decide (m = n)) as [->|Hne]; [done|].
        rewrite Hother2 by done. apply Hlo. lia.
      * intros m Hm. rewrite Hother2 by lia. apply Hhi. lia.
Qed.

End Pieces2.

Section Operator.
Context {RT : RealT} {IT : IntT} {CO : Collaborators}.

Lemma IS_ATA_not_FULL (n : Z) : IS_ATA n = false -> (n =? FULL_ATA)%Z = false.
Proof. unfold IS_ATA. by intros [? _]%orb_false_iff. Qed.

Lemma IS_ATA_not_DIAG (n : Z) : IS_ATA n = false -> (n =? DIAG_ATA)%Z = false.
Proof. unfold IS_ATA. by intros [_ ?]%orb_false_iff. Qed.

(** The reduced operator of a main problem in direct matricial shape. *)
Lemma reduce_operator_direct (s : Cp_d1_ql1b) (rN0 : Z) (premult : bool)
    (Ab junk_rY junk_rA junk_rAA : array real_t) :
  IS_ATA (N (quad s)) = false ->
  A (quad s) = Some Ab ->
  (0 <= N (quad s))%Z ->
  (N (quad s) * Z.of_nat (rV (part s)) < 2 ^ size_bits)%Z ->
  premultiply_test s rN0 = Some premult ->
  let Nn := Z.to_nat (N (quad s)) in
  let rVn := rV (part s) in
  let col := column_sum (part s) Ab Nn in
  exists op rA,
    reduce_operator s rN0 junk_rY junk_rA junk_rAA = Some op
    /\ op_rA op = Some rA
    /\ (forall rv n, rv < rVn -> n < Nn -> rA (Nn * rv + n)%nat = col rv n)
    /\ if premult then
         op_rN op = FULL_ATA
         /\ (exists rAA,
               op_rAA op = Some rAA
               /\ forall ru rv, ru < rVn -> rv <= ru ->
                    rAA (rVn * ru + rv)%nat
                    = big_sum 0 Nn (fun n => (col ru n * col rv n)%re)
                    /\ rAA (rVn * rv + ru)%nat = rAA (rVn * ru + rv)%nat)
         /\ match Y (quad s) with
            | Some Yb =>
                exists rY, op_rY op = Some rY
                  /\ forall rv, rv < rVn ->
                       rY rv = big_sum 0 Nn (fun n => (col rv n * Yb n)%re)
            | None => op_rY op = None
            end
       else op_rN op = N (quad s) /\ op_rY op = None /\ op_rAA op = None.
Proof.
  intros Hata HA HN Hfit Htest Nn rVn col.
  unfold reduce_operator, allocate_reduced, choose_reduced_shape.
  rewrite Htest, Hata, HA. simpl.
  destruct (reduce_columns_spec s Ab junk_rA HA HN Hfit) as (rA & HrA & Hcol).
  fold Nn rVn col in Hcol.
  destruct premult.
  - rewrite IS_ATA_FULL, (IS_ATA_not_DIAG _ Hata). simpl.
    rewrite HrA. simpl. rewrite Z.eqb_refl.
    destruct (gram_upper_spec Nn rVn rA junk_rAA) as (g & Hg & Hup & _).
    fold Nn rVn. rewrite Hg. simpl.
    destruct (mirror_lower_spec rVn g) as (m & Hm & Hmir & Hkeep).
    assert (Hentries : forall ru rv, ru < rVn -> rv <= ru ->
              m (rVn * ru + rv)%nat
              = big_sum 0 Nn (fun n => (col ru n * col rv n)%re)
              /\ m (rVn * rv + ru)%nat = m (rVn * ru + rv)%nat).
    { intros ru rv Hru Hrv.
      assert (Hlow : m (rVn * ru + rv)%nat
                     = big_sum 0 Nn (fun n => (col ru n * col rv n)%re)).
      { rewrite Hkeep
          by (intros ru' rv' Hlt Heq; apply cell_index_inj in Heq; lia).
        rewrite Hup by done. apply big_sum_ext. intros n Hn.
        by rewrite !Hcol by lia. }
      split; [done|].
      destruct (decide (rv = ru)) as [->|Hne]; [done|].
      rewrite (Hmir rv ru), Hlow, Hup by (done || lia).
      apply big_sum_ext. intros n Hn. by rewrite !Hcol by lia. }
    destruct (Y (quad s)) as [Yb|]; simpl.
    + destruct (correlate_Y_spec Nn rVn rA Yb junk_rY) as (rY & HrY & Hcor & _).
      rewrite HrY. simpl. rewrite Z.eqb_refl, Hm. simpl.
      eexists. exists rA. split; [done|]. split; [done|]. split; [done|].
      split; [done|]. split; [by exists m|].
      exists rY. split; [done|]. intros rv Hrv. rewrite Hcor by done.
      apply big_sum_ext. intros n Hn. by rewrite Hcol by lia.
    + rewrite Z.eqb_refl, Hm. simpl.
      eexists. exists rA. split; [done|]. split; [done|]. split; [done|].
      split; [done|]. split; [by exists m|done].
  - rewrite Hata. simpl. rewrite HrA. simpl.
    rewrite (IS_ATA_not_FULL _ Hata). simpl. rewrite (IS_ATA_not_FULL _ Hata).
    eexists. exists rA. done.
Qed.

End Operator.

Section Premultiplied.
Context {RT : RealT} {IT : IntT} {CO : Collaborators} {RL : RealLaws}.

(** Lines 284-302. *)
Lemma reduce_full_spec (s : Cp_d1_ql1b) (Ab b : array real_t) :
  A (quad s) = Some Ab ->
  exists b',
    reduce_full s (Some b) = Some (Some b')
    /\ (forall ru rv, ru < rV (part s) -> rv <= ru ->
          b' (rV (part s) * ru + rv)%nat = reduced_AA s Ab ru rv)
    /\ (forall j, (forall ru, ru < rV (part s) -> in_row (rV (part s)) ru j = false) ->
          b' j = b j).
Proof.
  intros HA. unfold reduce_full. rewrite HA.
  set (p := part s). set (Vn := V (gr s)).
  apply (triangle_fill (rV p) (reduced_AA s Ab)
           (fun ru rv rAA =>
              rAA ← store rAA (rV p * ru + rv)%nat ZERO;
              for_loopM (first_vertex p ru) (first_vertex p (ru + 1)) (fun u rAA =>
                for_loopM (first_vertex p rv) (first_vertex p (rv + 1)) (fun v rAA =>
                  x ← load (Some Ab) (Vn * comp_list p u + comp_list p v)%nat;
                  add_to rAA (rV p * ru + rv)%nat x) rAA) rAA)).
  intros ru rv b0 _ _. simpl.
  set (i := (rV p * ru + rv)%nat).
  destruct (cell_loop i (first_vertex p ru) (first_vertex p (ru + 1))
              (fun u rAA =>
                 for_loopM (first_vertex p rv) (first_vertex p (rv + 1)) (fun v rAA =>
                   add_to rAA i (Ab (Vn * comp_list p u + comp_list p v)%nat)) rAA)
              (fun u x =>
                 sum_loop (first_vertex p rv) (first_vertex p (rv + 1))
                   (fun v => Ab (Vn * comp_list p u + comp_list p v)%nat) x)
              (upd b0 i ZERO)) as (b1 & Hb1 & Hi & Hj).
  - intros u b2 _.
    apply (cell_loop i _ _
             (fun v rAA => add_to rAA i (Ab (Vn * comp_list p u + comp_list p v)%nat))
             (fun v x => (x + Ab (Vn * comp_list p u + comp_list p v)%nat)%re)).
    intros v b3 _. eexists. split; [done|]. split; [by rewrite upd_eq|].
    intros j Hne. by rewrite upd_ne.
  - exists b1. split; [exact Hb1|]. split.
    + rewrite Hi, upd_eq.
      rewrite (nested_sum_loop_acc (first_vertex p ru) (first_vertex p (ru + 1))
                 (fun _ => first_vertex p rv) (fun _ => first_vertex p (rv + 1))
                 (fun u v => Ab (Vn * comp_list p u + comp_list p v)%nat)).
      by rewrite radd_0_l.
    + intros j Hne. by rewrite Hj, upd_ne.
Qed.

(** The reduced observation of a premultiplied main problem. *)
Lemma reduce_Y_returns (p : partition) (Yq : ptr real_t) (junk_rY : array real_t) :
  exists rY',
    match Yq with
    | Some Yb => reduce_Y p Yb (if is_null Yq then None else Some junk_rY)
    | None => Some (if is_null Yq then None else Some junk_rY)
    end = Some rY'
    /\ match Yq with
       | Some Yb =>
           exists rY, rY' = Some rY
             /\ forall rv, rv < rV p -> rY rv = comp_big_sum p rv Yb
       | None => rY' = None
       end.
Proof.
  destruct Yq as [Yb|]; simpl; [|by eexists].
  destruct (reduce_Y_spec p Yb junk_rY) as (rY & HrY & Hsum & _).
  exists (Some rY). split; [done|]. by exists rY.
Qed.

(** For a main problem premultiplied with a full matrix, the matrix that
    [solve_reduced_problem] hands to the delegated solver (tag [FULL_ATA]) is
    symmetric: its entry [(ru, rv)], [rv <= ru], is the sum of the entries of
    [A] over the rows of the members of [ru] and the columns of the members of
    [rv] (the block sums of [compute_objective]), and the entry [(rv, ru)] is
    a copy of it.  The reduced observation is the sum of [Y] over each
    component. *)
Theorem reduced_full_matrix (s : Cp_d1_ql1b) (rN0 : Z)
    (Ab junk_rY junk_rA junk_rAA : array real_t) :
  N (quad s) = FULL_ATA -> FULL_ATA <> DIAG_ATA ->
  A (quad s) = Some Ab ->
  is_Some (premultiply_test s rN0) ->
  let rVn := rV (part s) in
  exists op rAA,
    reduce_operator s rN0 junk_rY junk_rA junk_rAA = Some op
    /\ op_rN op = FULL_ATA /\ op_rAA op = Some rAA /\ op_rA op = None
    /\ pfdr_quadratic_arguments s op
       = {| arg_Y := op_rY op; arg_N := FULL_ATA; arg_A := Some rAA;
            arg_a := Some (a (quad s)) |}
    /\ (forall ru rv, ru < rVn -> rv <= ru ->
          rAA (rVn * ru + rv)%nat = reduced_AA s Ab ru rv
          /\ rAA (rVn * rv + ru)%nat = reduced_AA s Ab ru rv)
    /\ match Y (quad s) with
       | Some Yb =>
           exists rY, op_rY op = Some rY
             /\ forall rv, rv < rVn -> rY rv = comp_big_sum (part s) rv Yb
       | None => op_rY op = None
       end.
Proof.
  intros HN Hne HA [premult Htest] rVn.
  destruct (reduce_full_spec s Ab junk_rAA HA) as (f & Hf & Hup & _).
  destruct (mirror_lower_spec rVn f) as (m & Hm & Hmir & Hkeep).
  assert (Hentries : forall ru rv, ru < rVn -> rv <= ru ->
            m (rVn * ru + rv)%nat = reduced_AA s Ab ru rv
            /\ m (rVn * rv + ru)%nat = reduced_AA s Ab ru rv).
  { intros ru rv Hru Hrv.
    assert (Hlow : m (rVn * ru + rv)%nat = reduced_AA s Ab ru rv).
    { rewrite Hkeep by (intros ru' rv' Hlt Heq; apply cell_index_inj in Heq; lia).
      by apply Hup. }
    split; [done|].
    destruct (decide (rv = ru)) as [->|Hneq]; [done|].
    rewrite (Hmir rv ru) by lia. by apply Hup. }
  unfold reduce_operator, allocate_reduced, choose_reduced_shape.
  rewrite Htest, HN, HA. simpl.
  assert (HrN : (if premult then FULL_ATA else FULL_ATA) = FULL_ATA)
    by (by destruct premult).
  rewrite HrN, IS_ATA_FULL. simpl.
  replace (FULL_ATA =? DIAG_ATA)%Z with false by (symmetry; by apply Z.eqb_neq).
  simpl.
  destruct (Y (quad s)) as [Yb|]; simpl.
  - destruct (reduce_Y_spec (part s) Yb junk_rY) as (rY & HrY & Hsum & _).
    rewrite HrY. simpl. rewrite Z.eqb_refl. simpl. rewrite Hf. simpl.
    rewrite Z.eqb_refl. fold rVn. rewrite Hm. simpl.
    eexists. exists m. split; [done|]. split; [done|]. split; [done|].
    split; [done|]. split.
    { unfold pfdr_quadratic_arguments. simpl. by rewrite IS_ATA_FULL. }
    split; [done|]. by exists rY.
  - rewrite Z.eqb_refl. simpl. rewrite Hf. simpl.
    rewrite Z.eqb_refl. fold rVn. rewrite Hm. simpl.
    eexists. exists m. split; [done|]. split; [done|]. split; [done|].
    split; [done|]. split.
    { unfold pfdr_quadratic_arguments. simpl. by rewrite IS_ATA_FULL. }
    done.
Qed.

(** For a main problem premultiplied with a diagonal matrix or the identity
    (and a guard of line 224 that keeps the tag [DIAG_ATA]), the delegated
    solver is handed, for every component, the sum of the diagonal entries of
    its members, or their number for the identity, and the sum of [Y] over
    the component. *)
Theorem reduced_diagonal_matrix (s : Cp_d1_ql1b) (rN0 : Z)
    (junk_rY junk_rA junk_rAA : array real_t) :
  N (quad s) = DIAG_ATA -> FULL_ATA <> DIAG_ATA ->
  premultiply_test s rN0 = Some false ->
  let p := part s in
  exists op,
    reduce_operator s rN0 junk_rY junk_rA junk_rAA = Some op
    /\ op_rN op = DIAG_ATA /\ op_rA op = None
    /\ pfdr_quadratic_arguments s op
       = {| arg_Y := op_rY op; arg_N := DIAG_ATA; arg_A := op_rAA op;
            arg_a := Some (a (quad s)) |}
    /\ match A (quad s) with
       | Some Ab =>
           exists rAA, op_rAA op = Some rAA
             /\ forall rv, rv < rV p -> rAA rv = comp_big_sum p rv Ab
       | None =>
           if truthy (a (quad s)) then
             exists rAA, op_rAA op = Some rAA
               /\ forall rv, rv < rV p -> rAA rv = of_nat (comp_size p rv)
           else op_rAA op = None
       end
    /\ match Y (quad s) with
       | Some Yb =>
           exists rY, op_rY op = Some rY
             /\ forall rv, rv < rV p -> rY rv = comp_big_sum p rv Yb
       | None => op_rY op = None
       end.
Proof.
  intros HN Hne Htest p.
  assert (Hnf : (DIAG_ATA =? FULL_ATA)%Z = false) by (apply Z.eqb_neq; congruence).
  assert (Hargs : forall rY rAA,
            pfdr_quadratic_arguments s
              {| op_rN := DIAG_ATA; op_rY := rY; op_rA := None; op_rAA := rAA |}
            = {| arg_Y := rY; arg_N := DIAG_ATA; arg_A := rAA;
                 arg_a := Some (a (quad s)) |}).
  { intros rY rAA. unfold pfdr_quadratic_arguments. simpl. by rewrite IS_ATA_DIAG. }
  unfold reduce_operator, allocate_reduced, choose_reduced_shape.
  rewrite Htest, HN. simpl. rewrite IS_ATA_DIAG. simpl. fold p.
  destruct (Y (quad s)) as [Yb|] eqn:HYq; simpl;
    [destruct (reduce_Y_spec p Yb junk_rY) as (rY & HrY & HsumY & _)|];
    (destruct (A (quad s)) as [Ab|] eqn:HA; simpl;
     [destruct (reduce_diagonal_spec p Ab junk_rAA) as (d & Hd & Hsum & _)
     |destruct (truthy (a (quad s))) eqn:Ha; simpl;
      [destruct (reduce_identity_spec p junk_rAA) as (d & Hd & Hsum & _)|]]);
    rewrite ?Z.eqb_refl; simpl; rewrite ?HrY; simpl; rewrite ?Hnf;
    rewrite ?Hd; simpl; rewrite ?Hnf;
    (eexists; split; [done|]; split; [done|]; split; [done|];
     split; [apply Hargs|]; split; eauto).
Qed.

End Premultiplied.

Section Solve.
Context {RT : RealT} {IT : IntT} {CO : Collaborators}.

Lemma same_components_refl (p : partition) : same_components p p.
Proof. by repeat split. Qed.

Lemma reduce_l1_partition (s : Cp_d1_ql1b) (rv : nat) (st st' : reduced_l1b)
    (p0 : partition) :
  reduce_l1 s rv st = Some st' ->
  same_components p0 (rpart st) -> same_components p0 (rpart st').
Proof.
  intros Hred Hsame.
  assert (Hclear : forall cl,
            is_saturated (rpart st) rv = false ->
            same_components p0 (set_saturation (with_comp_list (rpart st) cl) rv false)).
  { intros cl Hsat%bool_decide_eq_false.
    destruct Hsame as (H1 & H2 & H3 & H4 & H5 & H6 & H7).
    repeat split; simpl; try done. rewrite <- H7. set_solver. }
  unfold reduce_l1 in Hred.
  destruct (l1_weights (l1 s)) as [w|].
  - destruct (store (rl1_weights st) rv ZERO) as [rw0|]; simpl in Hred; [|done].
    destruct (for_loopM _ _ _ rw0) as [rw|]; simpl in Hred; [|done].
    destruct (Yl1 (l1 s)) as [t|]; [|by injection Hred as <-].
    destruct (load rw rv) as [rwv|]; simpl in Hred; [|done].
    destruct (is_saturated (rpart st) rv) eqn:Hsat.
    + destruct (median_position _ _ _ _ _ _) as [i|]; simpl in Hred; [|done].
      destruct (store (rYl1 st) rv _) as [ry|]; simpl in Hred; [|done].
      by injection Hred as <-.
    + destruct (wth_element _ _ _ _ _ _) as [m cl].
      destruct (store (rYl1 st) rv _) as [ry|]; simpl in Hred; [|done].
      injection Hred as <-. by apply Hclear.
  - destruct (truthy (homo_l1_weight (l1 s))); [|by injection Hred as <-].
    destruct (store (rl1_weights st) rv _) as [rw|]; simpl in Hred; [|done].
    destruct (Yl1 (l1 s)) as [t|]; [|by injection Hred as <-].
    destruct (is_saturated (rpart st) rv) eqn:Hsat.
    + destruct (store (rYl1 st) rv _) as [ry|]; simpl in Hred; [|done].
      by injection Hred as <-.
    + destruct (nth_element_idx _ _ _ _ _) as [m cl].
      destruct (store (rYl1 st) rv _) as [ry|]; simpl in Hred; [|done].
      injection Hred as <-. by apply Hclear.
Qed.

Lemma reduce_l1_bounds_partition (s : Cp_d1_ql1b)
    (junk_w junk_y junk_low junk_upp : array real_t) (st : reduced_l1b) :
  reduce_l1_bounds s junk_w junk_y junk_low junk_upp = Some st ->
  same_components (part s) (rpart st).
Proof.
  unfold reduce_l1_bounds. destruct (_ =? 0)%nat.
  - intros [= <-]. apply same_components_refl.
  - intros Hloop.
    unfold for_loopM in Hloop.
    refine (for_each_preserves (fun st => same_components (part s) (rpart st))
              _ _ _ _ _ Hloop (same_components_refl _)).
    intros rv st0 st1 Hbody Hsame.
    destruct (reduce_l1 s rv st0) as [st2|] eqn:Hl1; simpl in Hbody; [|done].
    destruct (reduce_low s rv (rpart st2) (rlow_bnd st2)) as [rlow|];
      simpl in Hbody; [|done].
    destruct (reduce_upp s rv (rpart st2) None) as [rupp|]; simpl in Hbody; [|done].
    injection Hbody as <-. simpl. by apply (reduce_l1_partition s rv st0).
Qed.


(** For a main problem in direct matricial shape (with [N * rV] fitting
    [size_t]), column [rv] of the reduced operator [rA] is the sum of the
    columns of [A] of the members of component [rv].  Without
    premultiplication the delegated solver is handed [(Y, N, rA)]; with it,
    the tag [FULL_ATA], the symmetric matrix of the inner products of the
    columns of [rA], and their inner products with [Y]. *)
Theorem reduced_direct_operator (s : Cp_d1_ql1b) (rN0 : Z) (premult : bool)
    (Ab junk_rY junk_rA junk_rAA : array real_t) :
  IS_ATA (N (quad s)) = false ->
  A (quad s) = Some Ab ->
  (0 <= N (quad s))%Z ->
  (N (quad s) * Z.of_nat (rV (part s)) < 2 ^ size_bits)%Z ->
  premultiply_test s rN0 = Some premult ->
  let Nn := Z.to_nat (N (quad s)) in
  let rVn := rV (part s) in
  let col := column_sum (part s) Ab Nn in
  exists op rA,
    reduce_operator s rN0 junk_rY junk_rA junk_rAA = Some op
    /\ op_rA op = Some rA
    /\ (forall rv n, rv < rVn -> n < Nn -> rA (Nn * rv + n)%nat = col rv n)
    /\ if premult then
         pfdr_quadratic_arguments s op
         = {| arg_Y := op_rY op; arg_N := FULL_ATA; arg_A := op_rAA op;
              arg_a := Some (a (quad s)) |}
         /\ (exists rAA,
               op_rAA op = Some rAA
               /\ forall ru rv, ru < rVn -> rv <= ru ->
                    rAA (rVn * ru + rv)%nat
                    = big_sum 0 Nn (fun n => (col ru n * col rv n)%re)
                    /\ rAA (rVn * rv + ru)%nat = rAA (rVn * ru + rv)%nat)
         /\ match Y (quad s) with
            | Some Yb =>
                exists rY, op_rY op = Some rY
                  /\ forall rv, rv < rVn ->
                       rY rv = big_sum 0 Nn (fun n => (col rv n * Yb n)%re)
            | None => op_rY op = None
            end
       else
         pfdr_quadratic_arguments s op
         = {| arg_Y := Y (quad s); arg_N := N (quad s); arg_A := Some rA;
              arg_a := None |}.
Proof.
  intros Hata HA HN Hfit Htest Nn rVn col.
  destruct (reduce_operator_direct s rN0 premult Ab junk_rY junk_rA junk_rAA
              Hata HA HN Hfit Htest) as (op & rA & Hop & HrA & Hcol & Hshape).
  exists op, rA. split; [done|]. split; [done|]. split; [done|].
  unfold pfdr_quadratic_arguments. destruct premult.
  - destruct Hshape as (HrN & HrAA & HrY). rewrite HrN, IS_ATA_FULL. done.
  - destruct Hshape as (HrN & _ & _). rewrite HrN, Hata, HrA. done.
Qed.

(** In the direct matricial shape, when the reduction of the l1 term and of
    the bounds returns, [solve_reduced_problem] returns: [rX] is the iterate
    of the delegated solver, [pfdr_it] the number of iterations that it
    reports, and the first [N] cells of [R] hold [Y - A x] for the
    piecewise-constant [x] of values [rX], subtracted component by component.
    The cells beyond, the configuration, the graph, the components and their
    saturation flags are as they were. *)
Theorem solve_reduced_residual (s : Cp_d1_ql1b) (rN0 : Z) (premult : bool)
    (junk_rY junk_rA junk_rAA junk_w junk_y junk_low junk_upp : array real_t)
    (solve : pfdr_solver) (st : reduced_l1b) :
  pointers_ok s ->
  IS_ATA (N (quad s)) = false ->
  (0 <= N (quad s))%Z ->
  (N (quad s) * Z.of_nat (rV (part s)) < 2 ^ size_bits)%Z ->
  premultiply_test s rN0 = Some premult ->
  reduce_l1_bounds s junk_w junk_y junk_low junk_upp = Some st ->
  let Nn := Z.to_nat (N (quad s)) in
  exists Ab op x it s',
    A (quad s) = Some Ab
    /\ reduce_operator s rN0 junk_rY junk_rA junk_rAA = Some op
    /\ solve (with_part s (rpart st)) (pfdr_quadratic_arguments s op)
         {| arg_l1_weights := rl1_weights st; arg_homo_l1_weight := ZERO;
            arg_Yl1 := rYl1 st;
            arg_low_bnd := rlow_bnd st; arg_homo_low_bnd := homo_low_bnd (bnd s);
            arg_upp_bnd := rupp_bnd st; arg_homo_upp_bnd := homo_upp_bnd (bnd s) |}
       = (x, it)
    /\ solve_reduced_problem s rN0 junk_rY junk_rA junk_rAA
         junk_w junk_y junk_low junk_upp solve = Some s'
    /\ rX (part s') = x /\ pfdr_it (pfdr s') = it
    /\ (forall n, n < Nn ->
          R_cells s' n
          = sub_all (Y_ (quad s) n)
              (map (fun rv => (column_sum (part s) Ab Nn rv n * x rv)%re)
                 (range 0 (rV (part s)))))
    /\ (forall n, Nn <= n -> R_cells s' n = R_cells s n)
    /\ quad s' = quad s /\ gr s' = gr s /\ l1 s' = l1 s /\ bnd s' = bnd s
    /\ dom (heap s') = dom (heap s)
    /\ same_components (part s) (with_rX (part s') (rX (part s))).
Proof.
  intros Hok Hata HN Hfit Htest Hl1b Nn.
  pose proof Hok as [Hdirect _].
  destruct (Hdirect Hata) as [[Ab HA] (p & HR & [b Hb])].
  destruct (reduce_operator_direct s rN0 premult Ab junk_rY junk_rA junk_rAA
              Hata HA HN Hfit Htest) as (op & rA & Hop & HrA & Hcol & _).
  pose proof (reduce_l1_bounds_partition s _ _ _ _ st Hl1b)
    as (HrV & Hca & Hfv & HrX & Hlast & Htmp & Hsat).
  unfold solve_reduced_problem. rewrite Hop, Hl1b. simpl.
  change (pfdr_quadratic_arguments (with_part s (rpart st)) op)
    with (pfdr_quadratic_arguments s op).
  destruct (solve _ _ _) as [x it] eqn:Hsolve.
  set (s2 := record_pfdr_it _ it).
  destruct (update_residual_spec s2 rA p b Hata HR Hb)
    as (b' & Hupd & Hbytes & Hlo & Hhi).
  exists Ab, op, x, it. eexists.
  split; [done|]. split; [done|]. split; [exact Hsolve|].
  rewrite HrA, Hupd. split; [done|].
  split; [done|]. split; [done|].
  rewrite (R_cells_insert s2 p b' HR). split.
  { intros n Hn. rewrite Hlo by done. f_equal. simpl. rewrite HrV.
    apply map_ext_in. intros rv Hrv%list_elem_of_In%elem_of_range.
    rewrite <- Hcol by (done || lia). do 2 f_equal. fold Nn. lia. }
  split.
  { intros n Hn. rewrite Hhi by done. unfold R_cells. by rewrite HR, Hb. }
  simpl. split; [done|]. split; [done|]. split; [done|]. split; [done|].
  split.
  { rewrite dom_insert_L. apply elem_of_dom_2 in Hb. set_solver. }
  by repeat split.
Qed.

End Solve.

Lemma example_sentinels_differ : FULL_ATA <> DIAG_ATA.
Proof. vm_compute. discriminate. Qed.

Lemma reduced_full_matrix_witness :
  exists op rAA,
    reduce_operator ex_full FULL_ATA (fun _ => ZERO) (fun _ => ZERO) (fun _ => ZERO)
    = Some op
    /\ op_rAA op = Some rAA
    /\ forall ru rv, ru < 2 -> rv <= ru ->
         rAA (2 * ru + rv)%nat
         = reduced_AA ex_full
             (xarray [1%Z; 2%Z; 3%Z; 4%Z; 5%Z; 6%Z; 7%Z; 8%Z; 9%Z]) ru rv
         /\ rAA (2 * rv + ru)%nat
            = reduced_AA ex_full
                (xarray [1%Z; 2%Z; 3%Z; 4%Z; 5%Z; 6%Z; 7%Z; 8%Z; 9%Z]) ru rv.
Proof.
  destruct (reduced_full_matrix ex_full FULL_ATA
              (xarray [1%Z; 2%Z; 3%Z; 4%Z; 5%Z; 6%Z; 7%Z; 8%Z; 9%Z])
              (fun _ => ZERO) (fun _ => ZERO) (fun _ => ZERO))
    as (op & rAA & Hop & _ & HrAA & _ & _ & Hentries & _);
    [reflexivity|exact example_sentinels_differ|reflexivity|by eexists|].
  exists op, rAA. split; [exact Hop|]. split; [exact HrAA|exact Hentries].
Defined.

Lemma reduced_diagonal_matrix_witness :
  exists op rAA,
    reduce_operator ex_objective DIAG_ATA (fun _ => ZERO) (fun _ => ZERO)
      (fun _ => ZERO) = Some op
    /\ op_rN op = DIAG_ATA /\ op_rAA op = Some rAA
    /\ forall rv, rv < rV (part ex_objective) ->
         rAA rv = of_nat (comp_size (part ex_objective) rv).
Proof.
  destruct (reduced_diagonal_matrix ex_objective DIAG_ATA
              (fun _ => ZERO) (fun _ => ZERO) (fun _ => ZERO))
    as (op & Hop & HrN & _ & _ & HrAA & _);
    [reflexivity|exact example_sentinels_differ|reflexivity|].
  change (A (quad ex_objective)) with (@None (array real_t)) in HrAA.
  change (truthy (a (quad ex_objective))) with true in HrAA.
  destruct HrAA as (rAA & HrAA & Hval).
  exists op, rAA. split; [exact Hop|]. split; [exact HrN|].
  split; [exact HrAA|exact Hval].
Defined.

Lemma ex_ten_observations_pointers_ok : pointers_ok ex_ten_observations.
Proof.
  split.
  - intros _. split; [by eexists|]. exists 0. split; [done|]. by eexists.
  - intros Hfull. vm_compute in Hfull. done.
Qed.

Lemma reduced_direct_operator_witness :
  exists op rA rAA,
    reduce_operator ex_ten_observations 10 (fun _ => ZERO) (fun _ => ZERO)
      (fun _ => ZERO) = Some op
    /\ op_rA op = Some rA /\ op_rAA op = Some rAA
    /\ (forall rv n, rv < 5 -> n < 10 ->
          rA (10 * rv + n)%nat
          = column_sum (part ex_ten_observations) (fun _ => ONE) 10 rv n)
    /\ forall ru rv, ru < 5 -> rv <= ru ->
         rAA (5 * rv + ru)%nat = rAA (5 * ru + rv)%nat.
Proof.
  destruct (reduced_direct_operator ex_ten_observations 10 true (fun _ => ONE)
              (fun _ => ZERO) (fun _ => ZERO) (fun _ => ZERO))
    as (op & rA & Hop & HrA & Hcol & _ & (rAA & HrAA & Hent) & _);
    [reflexivity|reflexivity|vm_compute; discriminate|vm_compute; reflexivity
    |vm_compute; reflexivity|].
  exists op, rA, rAA. split; [exact Hop|]. split; [exact HrA|].
  split; [exact HrAA|]. split; [exact Hcol|].
  intros ru rv Hru Hrv. exact (proj2 (Hent ru rv Hru Hrv)).
Defined.

Lemma solve_reduced_residual_witness :
  exists s',
    solve_reduced_problem ex_ten_observations 10
      (fun _ => ZERO) (fun _ => ZERO) (fun _ => ZERO) (fun _ => ZERO)
      (fun _ => ZERO) (fun _ => ZERO) (fun _ => ZERO) ex_solver = Some s'
    /\ pfdr_it (pfdr s') = 7%Z
    /\ forall n, n < 10 ->
         R_cells s' n
         = sub_all (Y_ (quad ex_ten_observations) n)
             (map (fun rv =>
                     (column_sum (part ex_ten_observations) (fun _ => ONE) 10 rv n
                      * ONE)%re) (range 0 5)).
Proof.
  destruct (solve_reduced_residual ex_ten_observations 10 true
              (fun _ => ZERO) (fun _ => ZERO) (fun _ => ZERO) (fun _ => ZERO)
              (fun _ => ZERO) (fun _ => ZERO) (fun _ => ZERO) ex_solver
              {| rl1_weights := None; rYl1 := None; rlow_bnd := None;
                 rupp_bnd := None; rpart := part ex_ten_observations |}
              ex_ten_observations_pointers_ok)
    as (Ab & op & x & it & s' & HA & _ & Hsolve & Hs' & _ & Hit & HR & _);
    [reflexivity|vm_compute; discriminate|vm_compute; reflexivity
    |vm_compute; reflexivity|reflexivity|].
  injection HA as <-. injection Hsolve as <- <-.
  exists s'. split; [exact Hs'|]. split; [exact Hit|exact HR].
Defined.

(** On [ex_full] the reduced matrix is [12 15; 15 9]: the entry above the
    diagonal is a copy of the one below, not the block sum [3 + 6] that [A]
    holds there; the reduced observation is [(3, 3)]. *)
Example reduced_full_example :
  (op ← reduce_operator ex_full FULL_ATA (fun _ => ZERO) (fun _ => ZERO)
          (fun _ => ZERO);
   rAA ← op_rAA op;
   rY ← op_rY op;
   Some ((rAA 0 =? xint 12) && (rAA 1 =? xint 15) && (rAA 2 =? xint 15)
         && (rAA 3 =? xint 9) && (rY 0 =? xint 3) && (rY 1 =? xint 3))%re)
  = Some true.
Proof. vm_compute. reflexivity. Qed.

(** On [ex_ten_observations] every column of [A] is all ones and so is the
    observation: with the five components at [1], every cell of the residual
    is [1 - 5 = -4]; the solve is recorded with its seven iterations. *)
Example solve_reduced_example :
  (s' ← solve_reduced_problem ex_ten_observations 10
          (fun _ => ZERO) (fun _ => ZERO) (fun _ => ZERO) (fun _ => ZERO)
          (fun _ => ZERO) (fun _ => ZERO) (fun _ => ZERO) ex_solver;
   Some ((R_cells s' 0 =? xint (-4))%re && (R_cells s' 9 =? xint (-4))%re,
         pfdr_it (pfdr s')))
  = Some (true, 7%Z).
Proof. vm_compute. reflexivity. Qed.

(* ------------------------------------------------------------------------- *)
(** ** The residual block from constructor to destructor *)

Section Ownership.
Context {RT : RealT} {IT : IntT} {CO : Collaborators}.




End Ownership.



(* ------------------------------------------------------------------------- *)
(** ** solve_reduced_problem: the reduced l1 term *)

Section Median.
Context {RT : RealT} {IT : IntT} {CO : Collaborators}.

Lemma sum_loop_S (lo hi : nat) (f : nat -> real_t) (acc : real_t) :
  lo <= hi -> sum_loop lo (S hi) f acc = (sum_loop lo hi f acc + f hi)%re.
Proof. intros Hle. unfold sum_loop. by rewrite for_loop_S. Qed.

Lemma sum_loop_first (lo hi : nat) (f : nat -> real_t) (acc : real_t) :
  lo < hi -> sum_loop lo hi f acc = sum_loop (S lo) hi f (acc + f lo)%re.
Proof.
  intros Hlt. unfold sum_loop, for_loop, range.
  replace (hi - lo) with (S (hi - S lo)) by lia. done.
Qed.

Lemma sum_loop_one (i : nat) (f : nat -> real_t) (acc : real_t) :
  sum_loop i (S i) f acc = (acc + f i)%re.
Proof.
  rewrite sum_loop_S by lia. unfold sum_loop. by rewrite for_loop_empty by lia.
Qed.

(** The loop of line 372 stops at the first cell at which the accumulated
    weight is not below [wrk], if there is one among the cells it may read. *)
Lemma median_position_spec (fuel : nat) (w : array real_t) (cl : array nat)
    (wrk acc : real_t) (i0 j : nat) :
  i0 <= j < i0 + fuel ->
  (sum_loop i0 (S j) (fun i => w (cl i)) acc <? wrk)%re = false ->
  exists i,
    median_position fuel w cl wrk acc i0 = Some i
    /\ i0 <= i <= j
    /\ (sum_loop i0 (S i) (fun i => w (cl i)) acc <? wrk)%re = false
    /\ forall k, i0 <= k < i ->
         (sum_loop i0 (S k) (fun i => w (cl i)) acc <? wrk)%re = true.
Proof.
  revert acc i0. induction fuel as [|fuel IH]; intros acc i0 Hj Hreach; [lia|].
  simpl. destruct (acc + w (cl i0) <? wrk)%re eqn:Hlt.
  - destruct (decide (j = i0)) as [->|Hne].
    { rewrite sum_loop_one in Hreach. congruence. }
    destruct (IH (acc + w (cl i0))%re (S i0)) as (i & Hi & Hrange & Hstop & Hbefore).
    + lia.
    + by rewrite <- (sum_loop_first i0 (S j) (fun i => w (cl i)) acc) by lia.
    + exists i. split; [done|]. split; [lia|]. split.
      * by rewrite sum_loop_first by lia.
      * intros k Hk. destruct (decide (k = i0)) as [->|Hnk].
        -- by rewrite sum_loop_one.
        -- rewrite sum_loop_first by lia. apply Hbefore. lia.
  - exists i0. split; [done|]. split; [lia|]. split.
    + by rewrite sum_loop_one.
    + intros k Hk. lia.
Qed.

(** For a saturated component with l1 weights and targets, lines 363-373:
    when the total weight [W] of the component is not below
    [W/2 + size * eps], the loop of line 372 stops inside the component, at
    the first member at which the accumulated weight is not below that
    threshold, and the reduced target is the target of that member; the
    reduced weight is [W], and the partition is left as it is. *)
Theorem saturated_median_is_member (s : Cp_d1_ql1b) (rv : nat) (st : reduced_l1b)
    (w t rw0 ry0 : array real_t) :
  l1_weights (l1 s) = Some w -> Yl1 (l1 s) = Some t ->
  rl1_weights st = Some rw0 -> rYl1 st = Some ry0 ->
  is_saturated (rpart st) rv = true ->
  let p := rpart st in
  let lo := first_vertex p rv in
  let hi := first_vertex p (rv + 1) in
  let total := comp_big_sum p rv w in
  let wrk := (HALF * total + of_nat (hi - lo) * eps s)%re in
  lo < hi <= V (gr s) ->
  (total <? wrk)%re = false ->
  exists st' rw ry i,
    reduce_l1 s rv st = Some st'
    /\ rl1_weights st' = Some rw /\ rw rv = total
    /\ rYl1 st' = Some ry /\ ry rv = t (comp_list p i)
    /\ lo <= i < hi
    /\ (cumulated w (comp_list p) lo i <? wrk)%re = false
    /\ (forall k, lo <= k < i -> (cumulated w (comp_list p) lo k <? wrk)%re = true)
    /\ rpart st' = p.
Proof.
  intros Hw Ht Hrw Hry Hsat p lo hi total wrk Hrange Htotal.
  unfold reduce_l1. rewrite Hw, Ht, Hrw, Hry. fold p lo hi.
  destruct (set_then_add rv lo hi ZERO (fun v => w (comp_list p v)) rw0)
    as (rw & Hloop & Hsum & _).
  simpl in Hloop. unfold add_to in Hloop. simpl. rewrite Hloop. simpl.
  rewrite (Hsat : is_saturated p rv = true).
  assert (Htot : rw rv = total)
    by (rewrite Hsum; apply (sum_loop_big_sum lo hi (fun v => w (comp_list p v)))).
  rewrite Htot. fold wrk.
  destruct (median_position_spec (V (gr s) - lo) w (comp_list p) wrk ZERO lo
              (hi - 1)) as (i & Hi & Hin & Hstop & Hbefore).
  - lia.
  - replace (S (hi - 1)) with hi by lia.
    rewrite (sum_loop_big_sum lo hi (fun v => w (comp_list p v))). exact Htotal.
  - rewrite Hi. simpl.
    exists {| rl1_weights := Some rw; rYl1 := Some (upd ry0 rv (t (comp_list p i)));
              rlow_bnd := rlow_bnd st; rupp_bnd := rupp_bnd st; rpart := p |},
      rw, (upd ry0 rv (t (comp_list p i))), i.
    split; [done|]. split; [done|]. split; [done|]. split; [done|].
    split; [by rewrite upd_eq|]. split; [lia|]. unfold cumulated.
    split.
    + by rewrite <- (sum_loop_big_sum lo (S i) (fun v => w (comp_list p v))).
    + split; [|done]. intros k Hk.
      rewrite <- (sum_loop_big_sum lo (S k) (fun v => w (comp_list p v))).
      by apply Hbefore.
Qed.

Context {RL : RealLaws}.

(** Lines 400-409 return when the buffer of line 345 is there. *)
Lemma reduce_low_returns (s : Cp_d1_ql1b) (rv : nat) (p : partition)
    (rlow : ptr real_t) :
  is_null rlow = is_null (low_bnd (bnd s)) ->
  exists rlow', reduce_low s rv p rlow = Some rlow'
                /\ is_null rlow' = is_null (low_bnd (bnd s)).
Proof.
  intros Hnull. destruct (low_bnd (bnd s)) as [lb|] eqn:Hlb.
  - destruct rlow as [b|]; [|done].
    destruct (reduce_low_spec s rv p lb b Hlb) as (b' & -> & _). by eexists.
  - unfold reduce_low. rewrite Hlb. by eexists.
Qed.

(** With an l1 term without targets (and no array of upper bounds),
    [solve_reduced_problem] hands to the delegated solver, for every
    component, the sum of the l1 weights of its members, or the number of its
    members times the homogeneous weight; the homogeneous weight that it
    passes is zero, and the targets are null. *)
Theorem reduced_l1_weights (s : Cp_d1_ql1b)
    (junk_w junk_y junk_low junk_upp : array real_t) :
  has_l1 s = true -> Yl1 (l1 s) = None -> upp_bnd (bnd s) = None ->
  0 < V (gr s) ->
  exists args rw,
    pfdr_l1b_arguments s junk_w junk_y junk_low junk_upp = Some args
    /\ arg_l1_weights args = Some rw
    /\ arg_homo_l1_weight args = ZERO
    /\ arg_Yl1 args = None
    /\ forall rv, rv < rV (part s) ->
         rw rv = match l1_weights (l1 s) with
                 | Some w => comp_big_sum (part s) rv w
                 | None => (of_nat (comp_size (part s) rv) * homo_l1_weight (l1 s))%re
                 end.
Proof.
  intros Hl1 Ht Hupp HV. unfold pfdr_l1b_arguments, reduce_l1_bounds.
  unfold has_l1 in Hl1. rewrite Hl1, Ht, Hupp. simpl.
  set (st0 := {| rl1_weights := Some junk_w; rYl1 := None; rlow_bnd := _;
                 rupp_bnd := None; rpart := part s |}).
  set (target := fun rv =>
         match l1_weights (l1 s) with
         | Some w => comp_big_sum (part s) rv w
         | None => (of_nat (comp_size (part s) rv) * homo_l1_weight (l1 s))%re
         end).
  set (body := fun rv st =>
         st ← reduce_l1 s rv st;
         rlow ← reduce_low s rv (rpart st) (rlow_bnd st);
         _ ← reduce_upp s rv (rpart st) None;
         Some {| rl1_weights := rl1_weights st; rYl1 := rYl1 st; rlow_bnd := rlow;
                 rupp_bnd := rupp_bnd st; rpart := rpart st |}).
  assert (Hloop : exists st,
            for_loopM 0 (rV (part s)) body st0 = Some st
            /\ exists rw, rl1_weights st = Some rw /\ rYl1 st = None
                 /\ forall rv, rv < rV (part s) -> rw rv = target rv).
  { destruct (for_loopM_invariant
                (fun k st => exists rw,
                   rl1_weights st = Some rw /\ rYl1 st = None
                   /\ rpart st = part s
                   /\ is_null (rlow_bnd st) = is_null (low_bnd (bnd s))
                   /\ forall rv, rv < k -> rw rv = target rv)
                0 (rV (part s)) body st0)
      as (st & Hst & rw & Hrw & Hry & _ & _ & Hval); [lia| | |by eauto 6].
    - exists junk_w. simpl. split; [done|]. split; [done|]. split; [done|].
      split; [by destruct (low_bnd (bnd s))|intros; lia].
    - intros rv st _ (rw & Hrw & Hry & Hp & Hnull & Hval).
      assert (Hred : exists rw',
                reduce_l1 s rv st
                = Some {| rl1_weights := Some rw'; rYl1 := rYl1 st;
                          rlow_bnd := rlow_bnd st; rupp_bnd := rupp_bnd st;
                          rpart := rpart st |}
                /\ rw' rv = target rv /\ forall j, j <> rv -> rw' j = rw j).
      { unfold reduce_l1, target. rewrite Ht, Hrw, Hp.
        destruct (l1_weights (l1 s)) as [w|].
        - destruct (set_then_add rv (first_vertex (part s) rv)
                      (first_vertex (part s) (rv + 1)) ZERO
                      (fun v => w (comp_list (part s) v)) rw)
            as (rw' & Hloop & Hsum & Hother).
          simpl in Hloop. unfold add_to in Hloop. simpl. rewrite Hloop. simpl.
          exists rw'. split; [done|]. split; [|done].
          rewrite Hsum.
          apply (sum_loop_big_sum _ _ (fun v => w (comp_list (part s) v))).
        - simpl in Hl1. rewrite Hl1. simpl. eexists. split; [done|].
          split; [by rewrite upd_eq|]. intros j Hne. by rewrite upd_ne. }
      destruct Hred as (rw' & Hred & Hrv & Hother).
      unfold body. rewrite Hred. simpl.
      destruct (reduce_low_returns s rv (rpart st) (rlow_bnd st) Hnull)
        as (rlow' & -> & Hnull').
      simpl. unfold reduce_upp. rewrite Hupp. simpl.
      eexists. split; [done|]. exists rw'. simpl.
      split; [done|]. split; [done|]. split; [done|]. split; [done|].
      intros rv' Hrv'. destruct (decide (rv' = rv)) as [->|Hne]; [done|].
      rewrite Hother by done. apply Hval. lia. }
  destruct Hloop as (st & Hst & rw & Hrw & Hry & Hval).
  match goal with
  | |- context [if (?n =? 0)%nat then _ else _] =>
      destruct (n =? 0)%nat eqn:Hops
  end.
  - apply Nat.eqb_eq in Hops.
    assert (HrV0 : rV (part s) = 0)
      by (destruct (is_null (l1_weights (l1 s))); lia).
    simpl. eexists. exists junk_w. simpl. repeat split; try done.
    intros rv Hrv. lia.
  - rewrite Hst. simpl. eexists. exists rw. simpl. done.
Qed.

End Median.

Lemma saturated_median_is_member_witness :
  exists st' ry i,
    reduce_l1 ex_saturated_l1 0
      {| rl1_weights := Some (fun _ => ZERO); rYl1 := Some (fun _ => ZERO);
         rlow_bnd := None; rupp_bnd := None; rpart := part ex_saturated_l1 |}
    = Some st'
    /\ rYl1 st' = Some ry
    /\ ry 0 = xarray [4%Z; 6%Z; 8%Z] (comp_list (part ex_saturated_l1) i)
    /\ 0 <= i < 2.
Proof.
  destruct (saturated_median_is_member ex_saturated_l1 0
              {| rl1_weights := Some (fun _ => ZERO); rYl1 := Some (fun _ => ZERO);
                 rlow_bnd := None; rupp_bnd := None;
                 rpart := part ex_saturated_l1 |}
              (xarray [1%Z; 1%Z; 1%Z]) (xarray [4%Z; 6%Z; 8%Z])
              (fun _ => ZERO) (fun _ => ZERO))
    as (st' & rw & ry & i & Hred & _ & _ & Hry & Hval & Hi & _);
    [reflexivity|reflexivity|reflexivity|reflexivity|vm_compute; reflexivity
    |vm_compute; lia|vm_compute; reflexivity|].
  exists st', ry, i. split; [exact Hred|]. split; [exact Hry|].
  split; [exact Hval|exact Hi].
Defined.

Lemma reduced_l1_weights_witness :
  exists args rw,
    pfdr_l1b_arguments ex_path_l1 (fun _ => ZERO) (fun _ => ZERO)
      (fun _ => ZERO) (fun _ => ZERO) = Some args
    /\ arg_l1_weights args = Some rw
    /\ forall rv, rv < rV (part ex_path_l1) ->
         rw rv = (of_nat (comp_size (part ex_path_l1) rv)
                  * homo_l1_weight (l1 ex_path_l1))%re.
Proof.
  destruct (reduced_l1_weights ex_path_l1 (fun _ => ZERO) (fun _ => ZERO)
              (fun _ => ZERO) (fun _ => ZERO))
    as (args & rw & Hargs & Hrw & _ & _ & Hval);
    [vm_compute; reflexivity|reflexivity|reflexivity|vm_compute; lia|].
  exists args, rw. split; [exact Hargs|]. split; [exact Hrw|exact Hval].
Defined.

(* ------------------------------------------------------------------------- *)
(** ** split: the gradient and the capacities *)

Section GradQ.
Context {RT : RealT} {IT : IntT} {CO : Collaborators}.

(** A loop that writes cell [v] at iteration [v]. *)
Lemma table_loop (n : nat) (val : nat -> real_t) (g0 : array real_t) :
  let g := for_loop 0 n (fun v g => upd g v (val v)) g0 in
  (forall v, v < n -> g v = val v) /\ (forall v, n <= v -> g v = g0 v).
Proof.
  apply (for_loop_invariant (fun k (g : array real_t) =>
           (forall v, v < k -> g v = val v) /\ (forall v, k <= v -> g v = g0 v)));
    [lia|split; [intros; lia|done]|].
  intros k g Hk [Hlo Hhi]. split.
  - intros v Hv. destruct (decide (v = k)) as [->|Hne]; [by rewrite upd_eq|].
    rewrite upd_ne by done. apply Hlo. lia.
  - intros v Hv. rewrite upd_ne by lia. apply Hhi. lia.
Qed.

(** The same for a faulting loop whose iteration [v] rewrites cell [v]
    alone, from what the cell holds. *)
Lemma table_loopM (n : nat) (val : nat -> real_t)
    (body : nat -> array real_t -> option (array real_t)) (g0 : array real_t) :
  (forall v g, v < n -> g v = g0 v ->
     exists g', body v g = Some g' /\ g' v = val v
                /\ forall u, u <> v -> g' u = g u) ->
  exists g, for_loopM 0 n body g0 = Some g
            /\ (forall v, v < n -> g v = val v)
            /\ (forall v, n <= v -> g v = g0 v).
Proof.
  intros Hbody.
  apply (for_loopM_invariant (fun k (g : array real_t) =>
           (forall v, v < k -> g v = val v) /\ (forall v, k <= v -> g v = g0 v)));
    [lia|split; [intros; lia|done]|].
  intros k g Hk [Hlo Hhi].
  destruct (Hbody k g) as (g' & Hg' & Hv & Hother); [lia|apply Hhi; lia|].
  exists g'. split; [done|]. split.
  - intros v Hv'. destruct (decide (v = k)) as [->|Hne]; [done|].
    rewrite Hother by done. apply Hlo. lia.
  - intros v Hv'. rewrite Hother by lia. apply Hhi. lia.
Qed.

Context {RL : RealLaws}.

(** With valid pointers, lines 469-503 of [split()] compute at every vertex
    the gradient of the quadratic term: [-(A^t) R] in the direct shape,
    [(A^t A) X - A^t Y] in the premultiplied ones, zero without quadratic
    term. *)
Theorem gradient_quadratic_closed_form (s : Cp_d1_ql1b) :
  pointers_ok s ->
  exists grad,
    gradient_quadratic s = Some grad
    /\ (forall v, v < V (gr s) -> grad v = quadratic_gradient s v)
    /\ (forall v, V (gr s) <= v -> grad v = ZERO).
Proof.
  intros [Hdirect Hfull]. unfold gradient_quadratic, quadratic_gradient.
  destruct (IS_ATA (N (quad s))) eqn:Hata; simpl.
  - destruct (N (quad s) =? FULL_ATA)%Z eqn:HN; simpl.
    + apply Z.eqb_eq in HN. destruct (Hfull HN) as [Ab HA]. rewrite HA.
      set (p := part s). set (Vn := V (gr s)).
      apply (table_loopM Vn (fun u =>
               (big_sum 0 (rV p) (fun rv =>
                  if (rX p rv =? ZERO)%re then ZERO
                  else (comp_big_sum p rv (fun c => Ab (Vn * u + c)%nat)
                        * rX p rv)%re)
                - Y_ (quad s) u)%re)).
      intros u g Hu Hg0.
      destruct (for_loopM_invariant
                  (fun k (g' : array real_t) =>
                     g' u = big_sum 0 k (fun rv =>
                              if (rX p rv =? ZERO)%re then ZERO
                              else (comp_big_sum p rv (fun c => Ab (Vn * u + c)%nat)
                                    * rX p rv)%re)
                     /\ forall w, w <> u -> g' w = g w)
                  0 (rV p)
                  (fun rv grad =>
                     if (rX p rv =? ZERO)%re then Some grad
                     else
                       aurv ← for_loopM (first_vertex p rv) (first_vertex p (rv + 1))
                                (fun v aurv =>
                                   x ← load (Some Ab) (Vn * u + comp_list p v)%nat;
                                   Some (aurv + x)%re) ZERO;
                       Some (upd grad u (grad u + aurv * rX p rv)%re)) g)
        as (g1 & Hg1 & Hsum & Hother); [lia| | |].
      * split; [|done]. by rewrite big_sum_empty.
      * intros rv g1 Hrv [Hsum Hother]. rewrite big_sum_S by lia.
        destruct (rX p rv =? ZERO)%re.
        -- exists g1. split; [done|]. split; [|done].
           by rewrite radd_0_r, Hsum.
        -- rewrite (for_loopM_pure _ _ _ (fun v aurv =>
                      (aurv + Ab (Vn * u + comp_list p v)%nat)%re)) by done.
           simpl. eexists. split; [done|]. split.
           ++ rewrite upd_eq, Hsum. do 2 f_equal.
              apply (sum_loop_big_sum _ _
                       (fun v => Ab (Vn * u + comp_list p v)%nat)).
           ++ intros w Hw. rewrite upd_ne by done. by apply Hother.
      * rewrite Hg1. simpl. eexists. split; [done|]. split.
        -- by rewrite upd_eq, Hsum.
        -- intros w Hw. rewrite upd_ne by done. by apply Hother.
    + destruct (A (quad s)) as [Ab|]; simpl.
      * eexists. split; [done|]. apply table_loop.
      * destruct (truthy (a (quad s))); simpl.
        -- eexists. split; [done|]. apply table_loop.
        -- eexists. done.
  - destruct (Hdirect eq_refl) as [[Ab HA] HR]. rewrite HA.
    set (Nn := Z.to_nat (N (quad s))).
    apply (table_loopM (V (gr s)) (fun v =>
             sub_all ZERO (map (fun n => (Ab (Nn * v + n)%nat * R_cells s n)%re)
                             (range 0 Nn)))).
    intros v g Hv Hg0.
    set (partial := fun k =>
           sub_all (g v)
             (map (fun n => (Ab (Nn * v + n)%nat * R_cells s n)%re) (range 0 k))).
    assert (Hpartial : forall k, partial (S k)
              = (partial k - Ab (Nn * v + k)%nat * R_cells s k)%re).
    { intros k. unfold partial, sub_all.
      rewrite range_S, map_app by lia. simpl. by rewrite foldl_snoc. }
    destruct (for_loopM_invariant
                (fun k (g' : array real_t) =>
                   g' v = partial k /\ forall w, w <> v -> g' w = g w)
                0 Nn
                (fun n grad =>
                   x ← load (Some Ab) (Nn * v + n)%nat;
                   r ← load_R s n;
                   Some (upd grad v (grad v - x * r)%re)) g)
      as (g1 & Hg1 & Hsum & Hother); [lia|done| |].
    + intros n g1 Hn [Hsum Hother]. simpl. rewrite load_R_cells by done. simpl.
      eexists. split; [done|]. split.
      * by rewrite upd_eq, Hsum, Hpartial.
      * intros w Hw. rewrite upd_ne by done. by apply Hother.
    + exists g1. split; [done|]. split; [|done].
      rewrite Hsum. unfold partial. by rewrite Hg0.
Qed.

End GradQ.

Section Cells.
Context {RT : RealT}.

(** A loop over a list of vertices whose iteration [v] rewrites cell [v]
    alone, by [f v] of what the cell holds: the cells of the vertices off the
    list stay, and each vertex that occurs once on the list has gone through
    [f] once. *)
Lemma foldl_cells {S} (get : S -> nat -> real_t) (body : nat -> S -> S)
    (f : nat -> real_t -> real_t) (l : list nat) (s : S) :
  (forall v s, get (body v s) v = f v (get s v)) ->
  (forall v s u, u <> v -> get (body v s) u = get s u) ->
  (forall u, u ∉ l -> get (foldl (fun s v => body v s) s l) u = get s u)
  /\ (NoDup l -> forall v, v ∈ l ->
        get (foldl (fun s v => body v s) s l) v = f v (get s v)).
Proof.
  intros Hat Hoff. revert s. induction l as [|v l IH]; intros s.
  - split; [done|]. intros _ v Hv. by apply elem_of_nil in Hv.
  - simpl. destruct (IH (body v s)) as [IHoff IHat]. split.
    + intros u Hu. rewrite IHoff by set_solver. apply Hoff. set_solver.
    + intros [Hv Hl]%NoDup_cons u [->|Hu]%elem_of_cons.
      * rewrite IHoff by done. apply Hat.
      * rewrite IHat by done. f_equal. apply Hoff. set_solver.
Qed.

Lemma for_members_foldl {S} {IT : IntT} (p : partition) (rv : nat)
    (body : nat -> S -> S) (s : S) :
  for_members p rv body s = foldl (fun s v => body v s) s (members p rv).
Proof.
  unfold for_members, for_loop, members.
  set (l := range _ _). clearbody l. revert s.
  induction l as [|i l IH]; intros s; [done|]. simpl. apply IH.
Qed.

End Cells.

Section Terminals.
Context {RT : RealT} {IT : IntT} {CO : Collaborators}.

Lemma term_loop (p : partition) (rv : nat) (body : nat -> flow -> flow)
    (f : nat -> real_t -> real_t) (fl : flow) :
  (forall v fl, term_cap (body v fl) v = f v (term_cap fl v)) ->
  (forall v fl u, u <> v -> term_cap (body v fl) u = term_cap fl u) ->
  (forall v fl, edge_cap (body v fl) = edge_cap fl /\ sink (body v fl) = sink fl) ->
  let fl' := for_members p rv body fl in
  edge_cap fl' = edge_cap fl /\ sink fl' = sink fl
  /\ (forall u, u ∉ members p rv -> term_cap fl' u = term_cap fl u)
  /\ (NoDup (members p rv) -> forall v, v ∈ members p rv ->
        term_cap fl' v = f v (term_cap fl v)).
Proof.
  intros Hat Hoff Hrest fl'. subst fl'. rewrite for_members_foldl.
  assert (Hkeep : forall l,
            edge_cap (foldl (fun s v => body v s) fl l) = edge_cap fl
            /\ sink (foldl (fun s v => body v s) fl l) = sink fl).
  { intros l. induction l as [|v l [IHe IHs]] using rev_ind; [done|].
    rewrite foldl_snoc. destruct (Hrest v (foldl (fun s v => body v s) fl l)).
    split; congruence. }
  destruct (Hkeep (members p rv)) as [He Hs].
  destruct (foldl_cells term_cap body f (members p rv) fl Hat Hoff) as [H1 H2].
  done.
Qed.

(** The terminal capacities that the two cuts of [split()] give to the
    members of a component (each listed once): the bound wins over the
    gradient and the l1 term.  For the first cut, [+inf] at a vertex whose
    upper bound is the value of the component, else the gradient, plus the l1
    weight where the value sits on the l1 target; for the second cut, [-inf]
    at the lower bound, else the gradient, minus the l1 weight on the target.
    The capacities of the other vertices, the edge capacities and the sides
    are not touched. *)
Theorem cut_terminal_capacities (s : Cp_d1_ql1b) (grad : array real_t)
    (rv : nat) (fl : flow) :
  NoDup (members (part s) rv) ->
  let fl1 := first_cut_terminals s grad rv fl in
  let fl2 := second_cut_terminals s grad rv fl in
  (forall v, v ∈ members (part s) rv ->
     term_cap fl1 v
     = (if at_upper_bound s rv v then INF_REAL
        else if at_l1_kink s rv v then (grad v + L1_WEIGHTS_ (l1 s) v)%re
        else grad v)
     /\ term_cap fl2 v
        = (if at_lower_bound s rv v then (- INF_REAL)%re
           else if at_l1_kink s rv v then (grad v + - L1_WEIGHTS_ (l1 s) v)%re
           else grad v))
  /\ (forall u, u ∉ members (part s) rv ->
        term_cap fl1 u = term_cap fl u /\ term_cap fl2 u = term_cap fl u)
  /\ edge_cap fl1 = edge_cap fl /\ sink fl1 = sink fl
  /\ edge_cap fl2 = edge_cap fl /\ sink fl2 = sink fl.
Proof.
  intros Hnd fl1 fl2. set (p := part s).
  (* the gradient pass, shared by the two cuts *)
  destruct (term_loop p rv (fun v fl => set_term_capacities fl v (grad v))
              (fun v _ => grad v) fl) as (Ge & Gs & Goff & Gat).
  { intros v f0. apply upd_eq. }
  { intros v f0 u Hu. by apply upd_ne. }
  { done. }
  set (flg := for_members p rv (fun v fl => set_term_capacities fl v (grad v)) fl)
    in *.
  (* the l1 pass *)
  assert (Hl1 : forall sgn : real_t -> real_t,
            let fll :=
              if has_l1 s then
                for_members p rv (fun v fl =>
                  if (rX p rv =? Yl1_ (l1 s) v)%re
                  then add_term_capacities fl v (sgn (L1_WEIGHTS_ (l1 s) v))
                  else fl) flg
              else flg in
            edge_cap fll = edge_cap fl /\ sink fll = sink fl
            /\ (forall u, u ∉ members p rv -> term_cap fll u = term_cap fl u)
            /\ (forall v, v ∈ members p rv ->
                  term_cap fll v
                  = if at_l1_kink s rv v
                    then (grad v + sgn (L1_WEIGHTS_ (l1 s) v))%re else grad v)).
  { intros sgn fll. subst fll. unfold at_l1_kink. fold p.
    destruct (has_l1 s); simpl.
    - destruct (term_loop p rv
                  (fun v fl =>
                     if (rX p rv =? Yl1_ (l1 s) v)%re
                     then add_term_capacities fl v (sgn (L1_WEIGHTS_ (l1 s) v))
                     else fl)
                  (fun v x => if (rX p rv =? Yl1_ (l1 s) v)%re
                              then (x + sgn (L1_WEIGHTS_ (l1 s) v))%re else x) flg)
        as (Le & Ls & Loff & Lat).
      { intros v f0. destruct (_ =? _)%re; [apply upd_eq|done]. }
      { intros v f0 u Hu. destruct (_ =? _)%re; [by apply upd_ne|done]. }
      { intros v f0. by destruct (_ =? _)%re. }
      split; [congruence|]. split; [congruence|]. split.
      + intros u Hu. rewrite Loff by done. by apply Goff.
      + intros v Hv. rewrite Lat, Gat by done. done.
    - split; [done|]. split; [done|]. split; [done|].
      intros v Hv. by apply Gat. }
  (* the bound pass *)
  assert (Hbnd : forall (fll : flow) (test : nat -> bool) (inf : real_t),
            let flb := for_members p rv (fun v fl =>
                         if test v then set_term_capacities fl v inf else fl) fll in
            edge_cap flb = edge_cap fll /\ sink flb = sink fll
            /\ (forall u, u ∉ members p rv -> term_cap flb u = term_cap fll u)
            /\ (forall v, v ∈ members p rv ->
                  term_cap flb v = if test v then inf else term_cap fll v)).
  { intros fll test inf flb. subst flb.
    destruct (term_loop p rv
                (fun v fl => if test v then set_term_capacities fl v inf else fl)
                (fun v x => if test v then inf else x) fll)
      as (Be & Bs & Boff & Bat).
    { intros v f0. destruct (test v); [apply upd_eq|done]. }
    { intros v f0 u Hu. destruct (test v); [by apply upd_ne|done]. }
    { intros v f0. by destruct (test v). }
    split; [done|]. split; [done|]. split; [done|]. intros v Hv. by apply Bat. }
  assert (Hall : forall (fll : flow) (inf : real_t),
            let flb := for_members p rv (fun v fl =>
                         set_term_capacities fl v inf) fll in
            edge_cap flb = edge_cap fll /\ sink flb = sink fll
            /\ (forall u, u ∉ members p rv -> term_cap flb u = term_cap fll u)
            /\ (forall v, v ∈ members p rv -> term_cap flb v = inf)).
  { intros fll inf flb. subst flb.
    destruct (term_loop p rv (fun v fl => set_term_capacities fl v inf)
                (fun v x => inf) fll) as (Be & Bs & Boff & Bat).
    { intros v f0. apply upd_eq. }
    { intros v f0 u Hu. by apply upd_ne. }
    { done. }
    split; [done|]. split; [done|]. split; [done|]. intros v Hv. by apply Bat. }
  assert (H1 : edge_cap fl1 = edge_cap fl /\ sink fl1 = sink fl
               /\ (forall u, u ∉ members p rv -> term_cap fl1 u = term_cap fl u)
               /\ (forall v, v ∈ members p rv ->
                     term_cap fl1 v
                     = if at_upper_bound s rv v then INF_REAL
                       else if at_l1_kink s rv v
                            then (grad v + L1_WEIGHTS_ (l1 s) v)%re
                            else grad v)).
  { subst fl1. unfold first_cut_terminals, at_upper_bound. fold p. fold flg.
    destruct (Hl1 (fun x => x)) as (Le & Ls & Loff & Lat).
    set (fll := if has_l1 s then _ else flg) in *.
    destruct (upp_bnd (bnd s)) as [ub|].
    - destruct (Hbnd fll (fun v => (rX p rv =? ub v)%re) INF_REAL)
        as (Be & Bs & Boff & Bat).
      split; [congruence|]. split; [congruence|]. split.
      + intros u Hu. rewrite Boff by done. by apply Loff.
      + intros v Hv. rewrite Bat by done. destruct (_ =? _)%re; [done|].
        by apply Lat.
    - destruct (_ && _).
      + destruct (Hall fll INF_REAL) as (Be & Bs & Boff & Bat).
        split; [congruence|]. split; [congruence|]. split.
        * intros u Hu. rewrite Boff by done. by apply Loff.
        * intros v Hv. by apply Bat.
      + done. }
  assert (H2 : edge_cap fl2 = edge_cap fl /\ sink fl2 = sink fl
               /\ (forall u, u ∉ members p rv -> term_cap fl2 u = term_cap fl u)
               /\ (forall v, v ∈ members p rv ->
                     term_cap fl2 v
                     = if at_lower_bound s rv v then (- INF_REAL)%re
                       else if at_l1_kink s rv v
                            then (grad v + - L1_WEIGHTS_ (l1 s) v)%re
                            else grad v)).
  { subst fl2. unfold second_cut_terminals, at_lower_bound. fold p. fold flg.
    destruct (Hl1 ropp) as (Le & Ls & Loff & Lat).
    set (fll := if has_l1 s then _ else flg) in *.
    destruct (low_bnd (bnd s)) as [lb|].
    - destruct (Hbnd fll (fun v => (rX p rv =? lb v)%re) (- INF_REAL)%re)
        as (Be & Bs & Boff & Bat).
      split; [congruence|]. split; [congruence|]. split.
      + intros u Hu. rewrite Boff by done. by apply Loff.
      + intros v Hv. rewrite Bat by done. destruct (_ =? _)%re; [done|].
        by apply Lat.
    - destruct (_ && _).
      + destruct (Hall fll (- INF_REAL)%re) as (Be & Bs & Boff & Bat).
        split; [congruence|]. split; [congruence|]. split.
        * intros u Hu. rewrite Boff by done. by apply Loff.
        * intros v Hv. by apply Bat.
      + done. }
  destruct H1 as (E1 & S1 & O1 & A1). destruct H2 as (E2 & S2 & O2 & A2).
  split; [intros v Hv; split; [by apply A1|by apply A2]|].
  split; [intros u Hu; split; [by apply O1|by apply O2]|]. done.
Qed.

End Terminals.

Section Gradient.
Context {RT : RealT} {IT : IntT} {CO : Collaborators} {RL : RealLaws}.

(** Lines 505-517 leave the gradient as it is when no edge is active. *)
Lemma gradient_d1_idle (s : Cp_d1_ql1b) (grad : array real_t) :
  active (gr s) = ∅ -> gradient_d1 s grad = grad.
Proof.
  intros Hact. unfold gradient_d1.
  apply for_loop_id. intros u g _. apply for_loop_id. intros e g' _.
  unfold is_active. rewrite Hact. by rewrite bool_decide_eq_false_2 by set_solver.
Qed.

(** Lines 519-529 on a partition. *)
Lemma gradient_l1_spec (s : Cp_d1_ql1b) (grad : array real_t) :
  partition_ok s ->
  forall i, i < V (gr s) ->
    let v := comp_list (part s) i in
    gradient_l1 s grad v = l1_gradient s v (grad v).
Proof.
  intros (H0 & Hmono & HV & Hnd & _ & Hca) i Hi v.
  unfold gradient_l1, l1_gradient. destruct (has_l1 s); [|done].
  set (p := part s) in *.
  set (B := fun v (g : array real_t) =>
         if (rX p (comp_assign p v) >? Yl1_ (l1 s) v)%re
         then upd g v (g v + L1_WEIGHTS_ (l1 s) v)%re
         else if (rX p (comp_assign p v) <? Yl1_ (l1 s) v)%re
              then upd g v (g v - L1_WEIGHTS_ (l1 s) v)%re
              else g).
  match goal with
  | |- ?L v = _ =>
      assert (Hflat : L = foldl (fun g v => B v g) grad
                            (map (comp_list p) (range 0 (V (gr s)))))
  end.
  { rewrite (for_loop_ext 0 (rV p) _
               (fun rv g => for_loop (first_vertex p rv) (first_vertex p (rv + 1))
                              (fun i g => B (comp_list p i) g) g)).
    - rewrite (for_loop_tiles (rV p) (first_vertex p)
                 (fun i g => B (comp_list p i) g)) by done.
      rewrite H0, HV. unfold for_loop.
      set (l := range 0 (V (gr s))). clearbody l. revert grad.
      induction l as [|j l IH]; intros grad; [done|]. simpl. apply IH.
    - intros rv g Hrv. apply for_loop_ext. intros j g' Hj.
      unfold B. simpl. by rewrite (Hca rv j) by lia. }
  rewrite Hflat.
  destruct (foldl_cells (fun g => g) B
              (fun v x =>
                 if (rX p (comp_assign p v) >? Yl1_ (l1 s) v)%re
                 then (x + L1_WEIGHTS_ (l1 s) v)%re
                 else if (rX p (comp_assign p v) <? Yl1_ (l1 s) v)%re
                      then (x - L1_WEIGHTS_ (l1 s) v)%re
                      else x)
              (map (comp_list p) (range 0 (V (gr s)))) grad) as [_ Hat].
  - intros u g. unfold B. destruct (_ >? _)%re; [apply upd_eq|].
    destruct (_ <? _)%re; [apply upd_eq|done].
  - intros u g w Hw. unfold B. destruct (_ >? _)%re; [by apply upd_ne|].
    destruct (_ <? _)%re; [by apply upd_ne|done].
  - apply (Hat Hnd). apply list_elem_of_fmap. exists i. split; [done|].
    apply elem_of_range. lia.
Qed.

(** On a partition, with valid pointers and no active edge (as before the
    first split), the gradient that [split()] computes at a vertex is what
    lines 469-503 computed there for the quadratic term, plus the l1 weight
    where the value of the component is above the l1 target, minus it where
    it is below; the loop over the edges of lines 505-517 adds nothing. *)
Theorem gradient_without_active_edges (s : Cp_d1_ql1b) :
  pointers_ok s -> partition_ok s -> active (gr s) = ∅ ->
  exists gq grad,
    gradient_quadratic s = Some gq
    /\ gradient s = Some grad
    /\ forall i, i < V (gr s) ->
         let v := comp_list (part s) i in
         grad v = l1_gradient s v (gq v).
Proof.
  intros Hok Hpart Hact.
  destruct (gradient_returns s Hok) as [grad Hgrad].
  unfold gradient in Hgrad |- *.
  destruct (gradient_quadratic s) as [gq|]; [|done].
  injection Hgrad as <-.
  exists gq. eexists. split; [done|]. split; [done|].
  intros i Hi. cbv zeta. rewrite gradient_d1_idle by done.
  apply (gradient_l1_spec s gq Hpart i Hi).
Qed.

End Gradient.

Lemma gradient_quadratic_closed_form_witness :
  exists grad,
    gradient_quadratic ex_direct = Some grad
    /\ forall v, v < V (gr ex_direct) -> grad v = quadratic_gradient ex_direct v.
Proof.
  destruct (gradient_quadratic_closed_form ex_direct ex_direct_pointers_ok)
    as (grad & Hgrad & Hval & _).
  exists grad. split; [exact Hgrad|exact Hval].
Defined.

Lemma ex_path_l1_pointers_ok : pointers_ok ex_path_l1.
Proof. split; intros Hshape; vm_compute in Hshape; done. Qed.

Lemma ex_path_l1_partition_ok : partition_ok ex_path_l1.
Proof.
  split; [reflexivity|]. split.
  { intros rv Hrv. change (rV (part ex_path_l1)) with 1 in Hrv.
    destruct rv as [|rv]; [vm_compute; lia|lia]. }
  split; [reflexivity|]. split.
  { change (NoDup [0; 1; 2; 3]). repeat constructor; set_solver. }
  split.
  { intros i Hi. change (V (gr ex_path_l1)) with 4 in *.
    destruct i as [|[|[|[|i]]]]; vm_compute; lia. }
  intros rv i Hrv Hi. change (rV (part ex_path_l1)) with 1 in Hrv.
  destruct rv as [|rv]; [|lia].
  change (first_vertex (part ex_path_l1) 0) with 0 in Hi.
  change (first_vertex (part ex_path_l1) (0 + 1)) with 4 in Hi.
  destruct i as [|[|[|[|i]]]]; (reflexivity || lia).
Qed.

Lemma gradient_without_active_edges_witness :
  exists gq grad,
    gradient_quadratic ex_path_l1 = Some gq
    /\ gradient ex_path_l1 = Some grad
    /\ forall i, i < V (gr ex_path_l1) ->
         grad (comp_list (part ex_path_l1) i)
         = l1_gradient ex_path_l1 (comp_list (part ex_path_l1) i)
             (gq (comp_list (part ex_path_l1) i)).
Proof.
  apply (gradient_without_active_edges ex_path_l1 ex_path_l1_pointers_ok
           ex_path_l1_partition_ok).
  reflexivity.
Defined.

(** On [ex_path_l1], values [0], observations [1, 2, 3, 4], targets [0]: the
    gradient is [-1, -2, -3, -4], the l1 term being at its kink. *)
Example gradient_path :
  (grad ← gradient ex_path_l1;
   Some ((grad 0 =? xint (-1)) && (grad 1 =? xint (-2)) && (grad 2 =? xint (-3))
         && (grad 3 =? xint (-4)))%re)
  = Some true.
Proof. vm_compute. reflexivity. Qed.

Lemma ex_path_members_NoDup : NoDup (members (part ex_path_l1) 0).
Proof. change (NoDup [0; 1; 2; 3]). repeat constructor; set_solver. Qed.

Lemma cut_terminal_capacities_witness :
  term_cap (first_cut_terminals ex_path_l1 (fun _ => ZERO) 0 ex_flow) 2
  = (if at_upper_bound ex_path_l1 0 2 then INF_REAL
     else if at_l1_kink ex_path_l1 0 2
          then (ZERO + L1_WEIGHTS_ (l1 ex_path_l1) 2)%re
          else ZERO)
  /\ term_cap (second_cut_terminals ex_path_l1 (fun _ => ZERO) 0 ex_flow) 2
     = (if at_lower_bound ex_path_l1 0 2 then (- INF_REAL)%re
        else if at_l1_kink ex_path_l1 0 2
             then (ZERO + - L1_WEIGHTS_ (l1 ex_path_l1) 2)%re
             else ZERO).
Proof.
  apply (proj1 (cut_terminal_capacities ex_path_l1 (fun _ => ZERO) 0 ex_flow
                  ex_path_members_NoDup) 2).
  change (2 ∈ [0; 1; 2; 3]). set_solver.
Defined.
